(** * UNIALIGN 3D point-cloud pipeline: normalisation, sampling, augmentation
      and dataset adapters of [datasets/modal_3d/datasets.py]

    NumPy arrays are nested lists: a 1-D array is a list of scalars, an
    [N x D] cloud a list of rows (row-major), a [B x N x C] batch a list of
    clouds.  The normalisations and farthest point sampling are followed over
    the exact reals [R]: every operation there is taken in exact arithmetic,
    and the one place where IEEE semantics is visible in the source, a
    division whose divisor may be zero, is modelled by [np_div], which yields
    [NaN] or an infinity as NumPy does (under a RuntimeWarning, without
    raising).  The augmentations are written over a class [Float] of scalars,
    whose instances are the reals and the floats [npfloat] (a real, NaN or an
    infinity), so that the dataset adapters carry an array of NaN through
    their pipeline as the program does.  The rounding of an arithmetic
    operation is not modelled; the casts to single precision that the source
    writes ([dtype=np.float32], [.float()]) are applications of a function
    [float32] that is left open (class [Cast32]).  A Python exception is
    [None] in an [option] result. *)

From Stdlib Require Import Reals Lra Lia Ascii.
From stdpp Require Import base option list gmap strings.

#[global] Instance Rlt_decision (x y : R) : Decision (x < y)%R := Rlt_dec x y.
#[global] Instance Rle_decision (x y : R) : Decision (x <= y)%R := Rle_dec x y.
#[global] Instance Req_decision : EqDecision R := Req_dec_T.

(** ** Array primitives *)

Module Np.
Local Open Scope R_scope.

(** A float that may have left the reals: the result of a true division. *)
Inductive npfloat : Type :=
  | Fin (r : R)
  | NaN
  | Inf (negative : bool).

(** [x / m] on float64 scalars: [0/0] is NaN, [x/0] is a signed infinity. *)
Definition np_div (x m : R) : npfloat :=
  if decide (m = 0) then
    (if decide (x = 0) then NaN else Inf (bool_decide (x < 0)))
  else Fin (x / m).

(** The arrays all of whose entries are real numbers. *)
Definition lift (pc : list (list R)) : list (list npfloat) :=
  (fun r : list R => Fin <$> r) <$> pc.

(** [shape[1]] of a 2-D array held as a list of rows. *)
Definition ncols {A} (pc : list (list A)) : nat := length (hd [] pc).

(** Every row has width [D]: the list really is an [N x D] array. *)
Definition rect {A} (D : nat) (pc : list (list A)) : Prop :=
  Forall (fun r => length r = D) pc.

(** [np.sum] of a 1-D array. *)
Definition np_sum (l : list R) : R := foldr Rplus 0 l.

(** [np.sum(pc, axis=0)] for an array of width [D]. *)
Definition col_sum (D : nat) (pc : list (list R)) : list R :=
  foldr (zip_with Rplus) (replicate D 0) pc.

(** [np.mean(pc, axis=0)]. *)
Definition np_mean0 (pc : list (list R)) : list R :=
  (fun s => s / INR (length pc)) <$> col_sum (ncols pc) pc.

(** [pc - centroid], the row vector broadcast over the rows. *)
Definition sub_rows (pc : list (list R)) (c : list R) : list (list R) :=
  (fun r => zip_with Rminus r c) <$> pc.

(** [np.sqrt(np.sum(pc**2, axis=1))] and [np.linalg.norm(pc, axis=1)],
    one row at a time. *)
Definition row_norm (r : list R) : R := sqrt (np_sum ((fun x => x ^ 2) <$> r)).

(** [np.max] of a 1-D array; it raises on an empty array. *)
Definition np_max (l : list R) : option R :=
  match l with
  | [] => None
  | x :: l' => Some (foldl Rmax x l')
  end.

(** Column [j] of a 2-D array, [pc[:, j]]. *)
Definition col (j : nat) (pc : list (list R)) : list R :=
  (fun r : list R => default 0 (r !! j)) <$> pc.

(** [pc / m] for a divisor known to be non-zero. *)
Definition scale_rows (m : R) (pc : list (list R)) : list (list R) :=
  (fun r : list R => (fun x => x / m) <$> r) <$> pc.

(** [np.zeros_like]. *)
Definition zeros_like {A} (pc : list (list A)) : list (list npfloat) :=
  (fun r : list A => (fun _ => Fin 0) <$> r) <$> pc.

End Np.
Import Np.

(** ** Normalisation *)

Section Normalisation.
Local Open Scope R_scope.

(** [pc_normalize] (lines 66-71): centre, then divide by the largest norm,
    with no guard on the divisor. *)
Definition pc_normalize (pc : list (list R)) : option (list (list npfloat)) :=
  let centroid := np_mean0 pc in
  let pc := sub_rows pc centroid in
  m ← np_max (row_norm <$> pc);
  Some ((fun r : list R => (fun x => np_div x m) <$> r) <$> pc).

(** [normalize_pc] (lines 73-80): the same with a guard at [1e-6]. *)
Definition normalize_pc (pc : list (list R)) : option (list (list npfloat)) :=
  let pc := sub_rows pc (np_mean0 pc) in
  m ← np_max (row_norm <$> pc);
  if bool_decide (m < 1e-6) then Some (zeros_like pc)
  else
    m' ← np_max (row_norm <$> pc);
    Some ((fun r : list R => (fun x => np_div x m') <$> r) <$> pc).

(** The points of the cloud are not all coincident. *)
Definition nondegenerate (pc : list (list R)) : Prop :=
  exists r1 r2, r1 ∈ pc /\ r2 ∈ pc /\ r1 <> r2.

End Normalisation.

(** ** Scalars

    What an array holds is followed as a real number of exact arithmetic
    until a division leaves the reals; what is computed from the result of
    such a division is followed in [npfloat], with the rules of IEEE
    arithmetic for NaN and the infinities (signed zeros apart).  The
    functions that the program applies to arrays of either kind are written
    once, over a type [F] of scalars. *)

Class Float (F : Type) : Type := {
  (** A [float64] scalar, as an entry of an array. *)
  of_R : R -> F;
  fplus : F -> F -> F;
  fminus : F -> F -> F;
  fmult : F -> F -> F;
  (** The smaller of two entries, as [arr.min()] accumulates it. *)
  fmin : F -> F -> F;
}.

#[global] Instance Float_R : Float R := {|
  of_R := fun x => x;
  fplus := Rplus;
  fminus := Rminus;
  fmult := Rmult;
  fmin := Rmin;
|}.

Section NpFloat.
Local Open Scope R_scope.

Definition nf_plus (x y : npfloat) : npfloat :=
  match x, y with
  | Fin a, Fin b => Fin (a + b)
  | NaN, _ | _, NaN => NaN
  | Inf s, Inf t => if bool_decide (s = t) then Inf s else NaN
  | Inf s, Fin _ | Fin _, Inf s => Inf s
  end.

Definition nf_minus (x y : npfloat) : npfloat :=
  match x, y with
  | Fin a, Fin b => Fin (a - b)
  | NaN, _ | _, NaN => NaN
  | Inf s, Inf t => if bool_decide (s = t) then NaN else Inf s
  | Inf s, Fin _ => Inf s
  | Fin _, Inf s => Inf (negb s)
  end.

Definition nf_mult (x y : npfloat) : npfloat :=
  match x, y with
  | Fin a, Fin b => Fin (a * b)
  | NaN, _ | _, NaN => NaN
  | Inf s, Inf t => Inf (xorb s t)
  | Inf s, Fin b | Fin b, Inf s =>
      if decide (b = 0) then NaN else Inf (xorb s (bool_decide (b < 0)))
  end.

(** [x / y]; on the reals it is [np_div]. *)
Definition nf_div (x y : npfloat) : npfloat :=
  match x, y with
  | Fin a, Fin b => np_div a b
  | NaN, _ | _, NaN => NaN
  | Inf _, Inf _ => NaN
  | Inf s, Fin b => Inf (xorb s (bool_decide (b < 0)))
  | Fin _, Inf _ => Fin 0
  end.

Definition nf_sqrt (x : npfloat) : npfloat :=
  match x with
  | Fin a => if decide (a < 0) then NaN else Fin (sqrt a)
  | NaN => NaN
  | Inf s => if s then NaN else Inf false
  end.

(** The smaller and the larger of two floats as [np.min] and [np.max]
    accumulate them: a NaN is passed on. *)
Definition nf_min (x y : npfloat) : npfloat :=
  match x, y with
  | NaN, _ | _, NaN => NaN
  | Fin a, Fin b => Fin (Rmin a b)
  | Inf s, z | z, Inf s => if s then Inf true else z
  end.

Definition nf_max (x y : npfloat) : npfloat :=
  match x, y with
  | NaN, _ | _, NaN => NaN
  | Fin a, Fin b => Fin (Rmax a b)
  | Inf s, z | z, Inf s => if s then z else Inf false
  end.

End NpFloat.

#[global] Instance Float_npfloat : Float npfloat := {|
  of_R := Fin;
  fplus := nf_plus;
  fminus := nf_minus;
  fmult := nf_mult;
  fmin := nf_min;
|}.

(** The cast to single precision: [dtype=np.float32] of the array a value is
    assigned into, and [.float()] of a tensor.  On the reals it is a function
    that is left open (its overflow to an infinity is not followed); NaN and
    the infinities are cast to themselves. *)
Class Cast32 (F : Type) : Type := float32 : F -> F.

#[global] Instance Cast32_npfloat `{!Cast32 R} : Cast32 npfloat :=
  fun x => match x with Fin r => Fin (float32 r) | _ => x end.

(** The cast of values that single precision represents. *)
Definition exact_cast : Cast32 R := fun x => x.

(** ** Random sources and the store

    The source draws from three generators: the global stream of [np.random],
    the object [np_random] of [datasets.aug_random] (the stream used by the
    [_distill] variants; its module is not part of the sources at hand, so it
    is taken as a second generator with the same interface), and Python's
    [random] module.  A generator is a state of an abstract type [G]; a draw
    returns the value and the next state. *)

Class RandomState (G : Type) : Type := {
  (** [random()], [rand()], [random_sample()]: uniform on [0, 1). *)
  random_sample : G -> R * G;
  (** [randn()]: standard normal. *)
  standard_normal : G -> R * G;
  (** [randint(low, high)], for [low < high]: an integer of [low, high). *)
  randint : nat -> nat -> G -> nat * G;
  (** [shuffle(x)]: a permutation of the array. *)
  shuffle : list nat -> G -> list nat * G;
  random_sample_range : forall g, (0 <= (random_sample g).1 < 1)%R;
  randint_range : forall lo hi g, lo < hi -> lo <= (randint lo hi g).1 < hi;
  shuffle_perm : forall l g, (shuffle l g).1 ≡ₚ l;
}.

(** A generator that replays a tape of draws: floats for the real-valued
    draws and naturals for the integer ones; an exhausted tape yields the
    low end of the range.  [shuffle] is the identity permutation. *)
Record tape : Type := Tape { tape_floats : list R; tape_ints : list nat }.

Definition tape_unit (x : R) : R :=
  if decide (0 <= x < 1)%R then x else 0%R.

Definition tape_random_sample (g : tape) : R * tape :=
  match tape_floats g with
  | [] => (0%R, g)
  | x :: r => (tape_unit x, Tape r (tape_ints g))
  end.

Definition tape_standard_normal (g : tape) : R * tape :=
  match tape_floats g with
  | [] => (0%R, g)
  | x :: r => (x, Tape r (tape_ints g))
  end.

Definition tape_randint (lo hi : nat) (g : tape) : nat * tape :=
  match tape_ints g with
  | [] => (lo, g)
  | n :: r => (lo + n mod (hi - lo), Tape (tape_floats g) r)
  end.

#[global] Program Instance tape_RandomState : RandomState tape := {|
  random_sample := tape_random_sample;
  standard_normal := tape_standard_normal;
  randint := tape_randint;
  shuffle := fun l g => (l, g);
|}.
Next Obligation.
  intros [[|x r] ints]; unfold tape_random_sample, tape_unit; simpl.
  - lra.
  - destruct (decide _); simpl; lra.
Qed.
Next Obligation.
  intros lo hi [fl [|n r]] Hlt; unfold tape_randint; simpl.
  - lia.
  - pose proof (Nat.mod_upper_bound n (hi - lo)). lia.
Qed.
Next Obligation. done. Qed.

(** Array objects, as the store holds them: 1-D and 2-D arrays of reals, a
    2-D float array with an entry that has left the reals, and 1-D integer
    arrays. *)
Inductive ndarray : Type :=
  | Float1 (v : list R)
  | Float2 (a : list (list R))
  | NanFloat2 (a : list (list npfloat))
  | Int1 (v : list nat).

Section World.
Context {G : Type} `{!RandomState G}.
Local Open Scope R_scope.

Record world : Type := World {
  mem : gmap nat ndarray;      (* array objects by address *)
  np_random_global : G;        (* the stream behind [np.random.*] *)
  np_random : G;               (* [datasets.aug_random.np_random] *)
  py_random : G;               (* the stream behind [random.*] *)
}.

Definition set_mem (m : gmap nat ndarray) (w : world) : world :=
  World m (np_random_global w) (np_random w) (py_random w).
Definition set_np_random_global (g : G) (w : world) : world :=
  World (mem w) g (np_random w) (py_random w).
Definition set_np_random (g : G) (w : world) : world :=
  World (mem w) (np_random_global w) g (py_random w).
Definition set_py_random (g : G) (w : world) : world :=
  World (mem w) (np_random_global w) (np_random w) g.

(** A computation reads and updates the world.  Its result is [None] when an
    exception was raised; the world is then the one at the raise. *)
Definition M (A : Type) : Type := world -> option A * world.

Definition ret {A} (a : A) : M A := fun w => (Some a, w).
Definition bind {A B} (m : M A) (k : A -> M B) : M B :=
  fun w => match m w with (Some a, w') => k a w' | (None, w') => (None, w') end.
Definition raise {A} : M A := fun w => (None, w).
Definition lift_opt {A} (o : option A) : M A := fun w => (o, w).

Notation "'let!' x ':=' m 'in' k" := (bind m (fun x => k))
  (at level 10, x pattern, m at level 100, k at level 200).

(** A fresh array object. *)
Definition alloc (a : ndarray) : M nat :=
  fun w => let l := fresh (dom (mem w)) in (Some l, set_mem (<[l := a]> (mem w)) w).

Definition load (l : nat) : M ndarray := fun w => (mem w !! l, w).

Definition load1 (l : nat) : M (list R) :=
  let! a := load l in match a with Float1 v => ret v | _ => raise end.

Definition load2 (l : nat) : M (list (list R)) :=
  let! a := load l in match a with Float2 v => ret v | _ => raise end.

(** Overwrite the contents of an existing array object. *)
Definition store (l : nat) (a : ndarray) : M unit :=
  fun w => match mem w !! l with
           | Some _ => (Some tt, set_mem (<[l := a]> (mem w)) w)
           | None => (None, w)
           end.

(** [arr[i] = x] on a 1-D float array; out of range raises IndexError. *)
Definition store_at (l : nat) (i : nat) (x : R) : M unit :=
  let! v := load1 l in
  if decide (i < length v)%nat then store l (Float1 (<[i := x]> v)) else raise.

(** [for x in l: s = body(x, s)]. *)
Fixpoint for_in {A St} (l : list A) (body : A -> St -> M St) (s : St) : M St :=
  match l with
  | [] => ret s
  | x :: l' => let! s' := body x s in for_in l' body s'
  end.

(** [np.random.randint(low, high)]; it raises unless [low < high]. *)
Definition np_random_randint (low high : nat) : M nat :=
  fun w => if decide (low < high)%nat then
             let '(n, g) := randint low high (np_random_global w) in
             (Some n, set_np_random_global g w)
           else (None, w).

(** ** Farthest-point sampling *)

(** [np.sum((xyz - centroid) ** 2, -1)]. *)
Definition sq_dists (xyz : list (list R)) (centroid : list R) : list R :=
  (fun p : list R => np_sum ((fun x => x ^ 2) <$> zip_with Rminus p centroid)) <$> xyz.

(** [dist < distance], elementwise. *)
Definition np_less (dist distance : list R) : list bool :=
  zip_with (fun x d => bool_decide (x < d)) dist distance.

(** The contents of [distance] after [distance[mask] = dist[mask]]. *)
Definition assign_where (distance : list R) (mask : list bool) (dist : list R) : list R :=
  zip_with (fun (db : R * bool) (x : R) => if db.2 then x else db.1)
           (zip distance mask) dist.

(** [np.argmax]: the first index of the largest entry, scanning from [i]
    with the best entry so far [bv] at index [best]. *)
Fixpoint argmax_from (i best : nat) (bv : R) (l : list R) : nat :=
  match l with
  | [] => best
  | x :: l' => if decide (bv < x) then argmax_from (S i) i x l'
               else argmax_from (S i) best bv l'
  end.

Definition np_argmax (l : list R) : option nat :=
  match l with
  | [] => None
  | x :: l' => Some (argmax_from 1 0 x l')
  end.

(** [astype(np.int32)] on a float holding a small non-negative integer. *)
Definition astype_int32 (x : R) : nat := Z.to_nat (Int_part x).

(** The body of the loop of [farthest_point_sample], for the pass [i] with the
    loop variable [farthest]; [xyz = point[:, :3]] is a view, read through to
    the array it shares its memory with. *)
Definition fps_body (point centroids distance : nat) (i farthest : nat) : M nat :=
  let! _ := store_at centroids i (INR farthest) in
  let! a := load2 point in
  let xyz := take 3 <$> a in
  let! centroid := lift_opt (xyz !! farthest) in
  let dist := sq_dists xyz centroid in
  let! d := load1 distance in
  let mask := np_less dist d in
  let! _ := store distance (Float1 (assign_where d mask dist)) in
  let! d := load1 distance in
  lift_opt (np_argmax d).

(** [farthest_point_sample] (lines 83-104).  [point] is the address of the
    caller's [N x D] array; the result is the address of the sampled array. *)
Definition farthest_point_sample (point : nat) (npoint : nat) : M nat :=
  let! a := load2 point in
  let N := length a in
  let! centroids := alloc (Float1 (replicate npoint 0)) in
  let! distance := alloc (Float1 ((fun x => x * 1e10) <$> replicate N 1)) in
  let! farthest := np_random_randint 0 N in
  let! _ := for_in (seq 0 npoint) (fps_body point centroids distance) farthest in
  let! c := load1 centroids in
  let! a := load2 point in
  let! rows := lift_opt (mapM (fun i => a !! astype_int32 i) c) in
  alloc (Float2 rows).

(** One pass of the loop body on the values held by [distance] and
    [farthest], and the indices that [npoint] passes write to [centroids]. *)
Definition fps_step (xyz : list (list R)) (distance : list R) (farthest : nat)
  : option (list R * nat) :=
  centroid ← xyz !! farthest;
  let dist := sq_dists xyz centroid in
  let d' := assign_where distance (np_less dist distance) dist in
  far' ← np_argmax d';
  Some (d', far').

Fixpoint fps_indices (xyz : list (list R)) (n : nat) (distance : list R) (farthest : nat)
  : option (list nat) :=
  match n with
  | O => Some []
  | S n' =>
      df ← fps_step xyz distance farthest;
      rest ← fps_indices xyz n' df.1 df.2;
      Some (farthest :: rest)
  end.

(** Squared distance between points [k] and [s] of the array, over the first
    three coordinates. *)
Definition sqdist3 (a : list (list R)) (k s : nat) : R :=
  np_sum ((fun x => x ^ 2) <$>
          zip_with Rminus (take 3 (default [] (a !! k))) (take 3 (default [] (a !! s)))).

(** Smallest squared distance from point [k] to the selected points [sel]. *)
Definition dist_to_set (a : list (list R)) (sel : list nat) (k : nat) : R :=
  match sel with
  | [] => 0
  | s :: sel' => foldl Rmin (sqdist3 a k s) (sqdist3 a k <$> sel')
  end.

(** [j] is the first index below [N] at which [f] is largest. *)
Definition first_argmax (f : nat -> R) (N j : nat) : Prop :=
  (j < N)%nat /\ forall k, (k < N)%nat -> f k <= f j /\ ((k < j)%nat -> f k < f j).


(** All squared distances stay below the initial value of [distance]. *)
Definition bounded (a : list (list R)) : Prop :=
  forall k s, (k < length a)%nat -> (s < length a)%nat -> sqdist3 a k s < 1e10.

(** What [distance] holds once the points [sel] have been selected. *)
Definition fps_inv (a : list (list R)) (sel : list nat) (d : list R) : Prop :=
  length d = length a /\
  forall k, (k < length a)%nat ->
    d !! k = Some (match sel with [] => 1 * 1e10 | _ => dist_to_set a sel k end).

(** ** Augmentation (lines 107-312)

    A batch is a [B x N x C] array.  The functions that write into their
    argument ([random_point_dropout], [random_scale_point_cloud],
    [shift_point_cloud] and their [_distill] variants) return that same array
    object; the value returned here is its contents after the writes.  An array
    with no row has no recorded width. *)

(** The list really is a [B x N x C] array. *)
Definition is_batch {A} (B N C : nat) (b : list (list (list A))) : Prop :=
  length b = B /\ Forall (fun pc => length pc = N /\ rect C pc) b.

(** Draws from the global stream of [np.random]. *)
Definition np_random_random : M R := fun w =>
  let '(x, g) := random_sample (np_random_global w) in (Some x, set_np_random_global g w).

Definition np_random_randn : M R := fun w =>
  let '(x, g) := standard_normal (np_random_global w) in (Some x, set_np_random_global g w).

Definition np_random_uniform (low high : R) : M R :=
  let! u := np_random_random in ret (low + (high - low) * u).

(** The same draws from the generator [np_random] of [datasets.aug_random]. *)
Definition aug_rand : M R := fun w =>
  let '(x, g) := random_sample (np_random w) in (Some x, set_np_random g w).

Definition aug_randn : M R := fun w =>
  let '(x, g) := standard_normal (np_random w) in (Some x, set_np_random g w).

Definition aug_uniform (low high : R) : M R :=
  let! u := aug_rand in ret (low + (high - low) * u).

(** [n] draws in a row: [random((n))], [uniform(low, high, n)], [randn(n)]. *)
Fixpoint repeatM {A} (n : nat) (m : M A) : M (list A) :=
  match n with
  | O => ret []
  | S n' => let! x := m in let! xs := repeatM n' m in ret (x :: xs)
  end.

(** One draw per entry of an array, in row-major order. *)
Fixpoint mapM_M {A B} (f : A -> M B) (l : list A) : M (list B) :=
  match l with
  | [] => ret []
  | x :: l' => let! y := f x in let! ys := mapM_M f l' in ret (y :: ys)
  end.

(** [np.where(rs <= ratio)[0]]: the indices, from [i] on, of the draws at
    most [ratio]. *)
Fixpoint np_where_le (i : nat) (rs : list R) (ratio : R) : list nat :=
  match rs with
  | [] => []
  | r :: rs' => if decide (r <= ratio) then i :: np_where_le (S i) rs' ratio
                else np_where_le (S i) rs' ratio
  end.

(** [pc[idx, :] = row]. *)
Definition assign_rows {A} (pc : list (list A)) (idx : list nat) (row : list A)
  : list (list A) :=
  foldl (fun pc i => <[i := row]> pc) pc idx.

(** [random_point_dropout] (lines 149-156). *)
Definition random_point_dropout {A} (batch_pc : list (list (list A)))
    (max_dropout_ratio : R) : M (list (list (list A))) :=
  for_in (seq 0 (length batch_pc)) (fun b batch_pc =>
    let! u := np_random_random in
    let dropout_ratio := u * max_dropout_ratio in
    let! pc := lift_opt (batch_pc !! b) in
    let! rs := repeatM (length pc) np_random_random in
    let drop_idx := np_where_le 0 rs dropout_ratio in
    if decide (0 < length drop_idx)%nat then
      let! first := lift_opt (pc !! 0%nat) in
      ret (<[b := assign_rows pc drop_idx first]> batch_pc)
    else ret batch_pc) batch_pc.

(** [random_point_dropout_distill] (lines 159-166). *)
Definition random_point_dropout_distill {A} (batch_pc : list (list (list A)))
    (max_dropout_ratio : R) : M (list (list (list A))) :=
  for_in (seq 0 (length batch_pc)) (fun b batch_pc =>
    let! u := aug_rand in
    let dropout_ratio := u * max_dropout_ratio in
    let! pc := lift_opt (batch_pc !! b) in
    let! rs := repeatM (length pc) aug_rand in
    let drop_idx := np_where_le 0 rs dropout_ratio in
    if decide (0 < length drop_idx)%nat then
      let! first := lift_opt (pc !! 0%nat) in
      ret (<[b := assign_rows pc drop_idx first]> batch_pc)
    else ret batch_pc) batch_pc.

(** [random_scale_point_cloud] (lines 169-180). *)
Definition random_scale_point_cloud `{!Float F} (batch_data : list (list (list F)))
    (scale_low scale_high : R) : M (list (list (list F))) :=
  let B := length batch_data in
  let! scales := repeatM B (np_random_uniform scale_low scale_high) in
  for_in (seq 0 B) (fun batch_index batch_data =>
    let! s := lift_opt (scales !! batch_index) in
    let! pc := lift_opt (batch_data !! batch_index) in
    ret (<[batch_index := (fun r : list F => (fun x => fmult x (of_R s)) <$> r) <$> pc]>
           batch_data))
    batch_data.

(** [random_scale_point_cloud_distill] (lines 183-194). *)
Definition random_scale_point_cloud_distill `{!Float F}
    (batch_data : list (list (list F))) (scale_low scale_high : R)
  : M (list (list (list F))) :=
  let B := length batch_data in
  let! scales := repeatM B (aug_uniform scale_low scale_high) in
  for_in (seq 0 B) (fun batch_index batch_data =>
    let! s := lift_opt (scales !! batch_index) in
    let! pc := lift_opt (batch_data !! batch_index) in
    ret (<[batch_index := (fun r : list F => (fun x => fmult x (of_R s)) <$> r) <$> pc]>
           batch_data))
    batch_data.

(** [pc += shift]: the row vector is broadcast over the rows, which must
    have its width. *)
Definition iadd_row `{!Float F} (pc : list (list F)) (shift : list R)
  : option (list (list F)) :=
  mapM (fun r : list F =>
          if decide (length r = length shift)
          then Some (zip_with (fun x t => fplus x (of_R t)) r shift)
          else None) pc.

(** [shift_point_cloud] (lines 197-208). *)
Definition shift_point_cloud `{!Float F} (batch_data : list (list (list F)))
    (shift_range : R) : M (list (list (list F))) :=
  let B := length batch_data in
  let! shifts := repeatM B (repeatM 3 (np_random_uniform (- shift_range) shift_range)) in
  for_in (seq 0 B) (fun batch_index batch_data =>
    let! sh := lift_opt (shifts !! batch_index) in
    let! pc := lift_opt (batch_data !! batch_index) in
    let! pc' := lift_opt (iadd_row pc sh) in
    ret (<[batch_index := pc']> batch_data)) batch_data.

(** [shift_point_cloud_distill] (lines 211-222). *)
Definition shift_point_cloud_distill `{!Float F} (batch_data : list (list (list F)))
    (shift_range : R) : M (list (list (list F))) :=
  let B := length batch_data in
  let! shifts := repeatM B (repeatM 3 (aug_uniform (- shift_range) shift_range)) in
  for_in (seq 0 B) (fun batch_index batch_data =>
    let! sh := lift_opt (shifts !! batch_index) in
    let! pc := lift_opt (batch_data !! batch_index) in
    let! pc' := lift_opt (iadd_row pc sh) in
    ret (<[batch_index := pc']> batch_data)) batch_data.

(** [np.clip(x, low, high)]. *)
Definition np_clip (x low high : R) : R := Rmin (Rmax x low) high.

(** [jitter_point_cloud] (lines 225-236). *)
Definition jitter_point_cloud (batch_data : list (list (list R))) (sigma clip : R)
  : M (list (list (list R))) :=
  if decide (clip > 0) then
    let! noise := mapM_M (mapM_M (mapM_M (fun _ : R => np_random_randn))) batch_data in
    let jittered_data :=
      (fun pc : list (list R) =>
         (fun r : list R => (fun z => np_clip (sigma * z) (-1 * clip) clip) <$> r) <$> pc)
        <$> noise in
    ret (zip_with (zip_with (zip_with Rplus)) jittered_data batch_data)
  else raise.

(** [arr.reshape((-1, 3))] on a 2-D array: the entries in row-major order,
    three to a row; it raises when their number is not a multiple of 3. *)
Fixpoint chunks3 {A} (l : list A) : list (list A) :=
  match l with
  | x :: y :: z :: l' => [x; y; z] :: chunks3 l'
  | _ => []
  end.

Definition reshape_m1_3 {A} (pc : list (list A)) : option (list (list A)) :=
  let flat := concat pc in
  if decide (length flat mod 3 = 0)%nat then Some (chunks3 flat) else None.

(** A row vector times a matrix of reals: the sum of the rows of the matrix,
    each scaled by its entry of the vector. *)
Definition row_times `{!Float F} (p : list F) (m : list (list R)) : list F :=
  foldr (zip_with fplus) (replicate (ncols m) (of_R 0))
        (zip_with (fun xi mi => (fun y => fmult xi (of_R y)) <$> mi) p m).

(** [np.dot(x, m)] for 2-D arrays: each row of [x] times the matrix [m]. *)
Definition np_dot `{!Float F} (x : list (list F)) (m : list (list R)) : list (list F) :=
  (fun r : list F => row_times r m) <$> x.

(** [target[...] = value] for 2-D arrays, with NumPy's broadcasting: an axis
    of [value] must have the length of the target's axis, or length 1. *)
Definition broadcast_to {A} (n : nat) (d : A) (l : list A) : option (list A) :=
  if decide (length l = n) then Some l
  else if decide (length l = 1)%nat then Some (replicate n (hd d l))
  else None.

Definition assign_broadcast `{!Float F} (target value : list (list F))
  : option (list (list F)) :=
  rows ← broadcast_to (length target) [] value;
  mapM (fun tv : list F * list F => broadcast_to (length tv.1) (of_R 0) tv.2)
       (zip target rows).

(** [np.zeros(batch_data.shape, dtype=np.float32)]. *)
Definition zeros3 `{!Float F} (b : list (list (list F))) : list (list (list F)) :=
  (fun pc : list (list F) => (fun r : list F => (fun _ => of_R 0) <$> r) <$> pc) <$> b.

(** The values that an assignment stores in an array of single precision. *)
Definition astype_float32 `{!Cast32 F} (a : list (list F)) : list (list F) :=
  (fun r : list F => float32 <$> r) <$> a.

(** [rotate_point_cloud] (lines 107-125). *)
Definition rotate_point_cloud `{!Float F} `{!Cast32 F} (batch_data : list (list (list F)))
  : M (list (list (list F))) :=
  let rotated_data := zeros3 batch_data in
  for_in (seq 0 (length batch_data)) (fun k rotated_data =>
    let! u := np_random_uniform 0 1 in
    let rotation_angle := u * 2 * PI in
    let cosval := cos rotation_angle in
    let sinval := sin rotation_angle in
    let rotation_matrix := [[cosval; 0; sinval]; [0; 1; 0]; [- sinval; 0; cosval]] in
    let! shape_pc := lift_opt (batch_data !! k) in
    let! flat := lift_opt (reshape_m1_3 shape_pc) in
    let! target := lift_opt (rotated_data !! k) in
    let! v := lift_opt (assign_broadcast target (np_dot flat rotation_matrix)) in
    ret (<[k := astype_float32 v]> rotated_data)) rotated_data.

(** [rotate_point_cloud_distill] (lines 128-146). *)
Definition rotate_point_cloud_distill `{!Float F} `{!Cast32 F} (batch_data : list (list (list F)))
  : M (list (list (list F))) :=
  let rotated_data := zeros3 batch_data in
  for_in (seq 0 (length batch_data)) (fun k rotated_data =>
    let! u := aug_uniform 0 1 in
    let rotation_angle := u * 2 * PI in
    let cosval := cos rotation_angle in
    let sinval := sin rotation_angle in
    let rotation_matrix := [[cosval; 0; sinval]; [0; 1; 0]; [- sinval; 0; cosval]] in
    let! shape_pc := lift_opt (batch_data !! k) in
    let! flat := lift_opt (reshape_m1_3 shape_pc) in
    let! target := lift_opt (rotated_data !! k) in
    let! v := lift_opt (assign_broadcast target (np_dot flat rotation_matrix)) in
    ret (<[k := astype_float32 v]> rotated_data)) rotated_data.

(** The matrix [Rz . Ry . Rx] of the three clipped angles. *)
Definition perturbation_matrix (angles : list R) : list (list R) :=
  let a0 := default 0 (angles !! 0%nat) in
  let a1 := default 0 (angles !! 1%nat) in
  let a2 := default 0 (angles !! 2%nat) in
  let Rx := [[1; 0; 0]; [0; cos a0; - sin a0]; [0; sin a0; cos a0]] in
  let Ry := [[cos a1; 0; sin a1]; [0; 1; 0]; [- sin a1; 0; cos a1]] in
  let Rz := [[cos a2; - sin a2; 0]; [sin a2; cos a2; 0]; [0; 0; 1]] in
  np_dot Rz (np_dot Ry Rx).

(** [rotate_perturbation_point_cloud] (lines 239-273). *)
Definition rotate_perturbation_point_cloud `{!Float F} `{!Cast32 F}
    (batch_data : list (list (list F))) (angle_sigma angle_clip : R)
  : M (list (list (list F))) :=
  let rotated_data := zeros3 batch_data in
  for_in (seq 0 (length batch_data)) (fun k rotated_data =>
    let! zs := repeatM 3 np_random_randn in
    let angles := (fun z => np_clip (angle_sigma * z) (- angle_clip) angle_clip) <$> zs in
    let R := perturbation_matrix angles in
    let! shape_pc := lift_opt (batch_data !! k) in
    let! flat := lift_opt (reshape_m1_3 shape_pc) in
    let! target := lift_opt (rotated_data !! k) in
    let! v := lift_opt (assign_broadcast target (np_dot flat R)) in
    ret (<[k := astype_float32 v]> rotated_data)) rotated_data.

(** [rotate_perturbation_point_cloud_distill] (lines 276-312). *)
Definition rotate_perturbation_point_cloud_distill `{!Float F} `{!Cast32 F}
    (batch_data : list (list (list F))) (angle_sigma angle_clip : R)
  : M (list (list (list F))) :=
  let rotated_data := zeros3 batch_data in
  for_in (seq 0 (length batch_data)) (fun k rotated_data =>
    let! zs := repeatM 3 aug_randn in
    let angles := (fun z => np_clip (angle_sigma * z) (- angle_clip) angle_clip) <$> zs in
    let R := perturbation_matrix angles in
    let! shape_pc := lift_opt (batch_data !! k) in
    let! flat := lift_opt (reshape_m1_3 shape_pc) in
    let! target := lift_opt (rotated_data !! k) in
    let! v := lift_opt (assign_broadcast target (np_dot flat R)) in
    ret (<[k := astype_float32 v]> rotated_data)) rotated_data.

(** The values of [n] successive uniform draws from [g], and the generator
    left after them. *)
Fixpoint draws (n : nat) (g : G) : list R * G :=
  match n with
  | O => ([], g)
  | S n' => let '(x, g1) := random_sample g in
            let '(xs, g2) := draws n' g1 in (x :: xs, g2)
  end.

(** The draws that [random_point_dropout] makes for the clouds of a
    [B x N x C] batch, in order: for each cloud the draw behind its dropout
    ratio and the [N] draws compared with that ratio. *)
Fixpoint dropout_draws (B N : nat) (g : G) : list (R * list R) * G :=
  match B with
  | O => ([], g)
  | S B' => let '(u, g1) := random_sample g in
            let '(rs, g2) := draws N g1 in
            let '(rest, g3) := dropout_draws B' N g2 in ((u, rs) :: rest, g3)
  end.

(** What the body of the dropout loop leaves in one cloud, given its draws. *)
Definition dropout_cloud {A} (max_dropout_ratio : R) (pc : list (list A)) (u : R)
    (rs : list R) : list (list A) :=
  let drop_idx := np_where_le 0 rs (u * max_dropout_ratio) in
  if decide (0 < length drop_idx)%nat then assign_rows pc drop_idx (default [] (pc !! 0%nat))
  else pc.

(** [m] returns, from every world, a result that satisfies [Q], and leaves
    the store as it was. *)
Definition succeeds {A} (m : M A) (Q : A -> Prop) : Prop :=
  forall w, exists a w', m w = (Some a, w') /\ mem w' = mem w /\ Q a.

(** The world in which the two NumPy generators have changed places. *)
Definition swap_streams (w : world) : world :=
  World (mem w) (np_random w) (np_random_global w) (py_random w).

(** [m] run with the two generators exchanged. *)
Definition on_swapped {A} (m : M A) : M A :=
  fun w => ((m (swap_streams w)).1, swap_streams (m (swap_streams w)).2).

(** [m'] does with [np_random] what [m] does with the global stream. *)
Definition mirrors {A} (m' m : M A) : Prop := forall w, m' w = on_swapped m w.

(** The arrays that exist in [w0] hold in [w] what they hold in [w0]. *)
Definition frame_inv (w0 w : world) : Prop :=
  forall l, l ∈ dom (mem w0) -> mem w !! l = mem w0 !! l.

(** [m] writes to no array of [w0], and its result satisfies [Q]. *)
Definition safe {A} (w0 : world) (m : M A) (Q : A -> Prop) : Prop :=
  forall w, frame_inv w0 w ->
    frame_inv w0 (m w).2 /\ forall a, (m w).1 = Some a -> Q a.


End World.



(** A batch of one cloud of one point with four channels, and a world with
    an empty store and exhausted tapes. *)
Definition four_channels : list (list (list R)) := [[[1; 2; 3; 4]]]%R.

Definition idle_world : world := World ∅ (Tape [] []) (Tape [] []) (Tape [] []).

(** A batch of one cloud of five points, and a world whose global tape
    draws 0.5 for the dropout ratio. *)
Definition five_points : list (list (list R)) :=
  [[[1; 2; 3]; [4; 5; 6]; [7; 8; 9]; [10; 11; 12]; [13; 14; 15]]]%R.

Definition half_world : world :=
  World ∅ (Tape [0.5; 0.9; 0.1; 0.3; 0.7; 0.2]%R []) (Tape [] []) (Tape [] []).

(** A world whose two NumPy generators are in the same state. *)
Definition twin_world : world :=
  World ∅ (Tape [0.5; 0.9; 0.1]%R []) (Tape [0.5; 0.9; 0.1]%R []) (Tape [] []).

(** Three points well inside the range of the running distances, held at
    address 5; the tape draws the starting index 1. *)
Definition near_points : list (list R) :=
  [[0; 0; 0]; [1; 0; 0]; [0; 2; 0]]%R.

Definition near_world : world :=
  World {[ 5%nat := Float2 near_points ]} (Tape [] [1%nat]) (Tape [] []) (Tape [] []).

Arguments world : clear implicits.
Arguments M : clear implicits.

Notation "'let!' x ':=' m 'in' k" := (bind m (fun x => k))
  (at level 10, x pattern, m at level 100, k at level 200).

(** ** Dataset adapters

    The values of the collaborators are kept abstract: a decoded image file
    ([pil]), a transformed image, a tokenised caption, a text feature.  The
    arrays read from files and from the tables of a dataset hold reals; what
    [pc_normalize] and [pc_norm] return may hold NaN (a cloud whose points
    coincide), and the run is followed on such arrays as the source runs
    on. *)

(** A tensor of floats, of one or two dimensions. *)
Inductive tensor : Type :=
  | Tensor1 (v : list npfloat)
  | Tensor2 (a : list (list npfloat)).

(** The values a sample maps its keys to. *)
Inductive value (image caption feature : Type) : Type :=
  | VTensor (t : tensor)
  | VInt (n : nat)
  | VStr (s : string)
  | VCaption (c : caption)
  | VImage (i : image)
  | VFeature (f : feature)
  | VNone.

Arguments VTensor {image caption feature} t.
Arguments VInt {image caption feature} n.
Arguments VStr {image caption feature} s.
Arguments VCaption {image caption feature} c.
Arguments VImage {image caption feature} i.
Arguments VFeature {image caption feature} f.
Arguments VNone {image caption feature}.

(** Modelled from the spec: the class [Sample] of [datasets/Sample.py] is not
    among the sources; the spec describes it as a mapping from string keys to
    heterogeneous values, built from a dictionary. *)
Definition Sample (image caption feature : Type) : Type :=
  gmap string (value image caption feature).

Section AdapterPrimitives.
Context {G : Type} `{!RandomState G}.
Local Open Scope R_scope.

(** The real-valued array behind an array of floats, if all are real. *)
Definition as_reals (pc : list (list npfloat)) : option (list (list R)) :=
  mapM (mapM (fun x => match x with Fin r => Some r | _ => None end)) pc.

(** The array object that holds the floats [a]. *)
Definition of_floats (a : list (list npfloat)) : ndarray :=
  match as_reals a with
  | Some r => Float2 r
  | None => NanFloat2 a
  end.

(** The floats of a 2-D float array object. *)
Definition load_floats (l : nat) : M G (list (list npfloat)) :=
  let! a := load l in
  match a with
  | Float2 v => ret (lift v)
  | NanFloat2 v => ret v
  | _ => raise
  end.

(** [pc_normalize] (lines 66-71) on an array that may hold NaN or
    infinities. *)
Definition pc_normalize_floats (pc : list (list npfloat)) : option (list (list npfloat)) :=
  let centroid :=
    (fun s => nf_div s (Fin (INR (length pc))))
      <$> foldr (zip_with nf_plus) (replicate (ncols pc) (Fin 0)) pc in
  let pc := (fun r => zip_with nf_minus r centroid) <$> pc in
  let norms :=
    (fun r : list npfloat => nf_sqrt (foldr nf_plus (Fin 0) ((fun x => nf_mult x x) <$> r)))
      <$> pc in
  m ← match norms with
      | [] => None
      | x :: l => Some (foldl nf_max x l)
      end;
  Some ((fun r : list npfloat => (fun x => nf_div x m) <$> r) <$> pc).

(** [random.randint(a, b)], both ends included; it raises when [b < a]. *)
Definition py_random_randint (a : nat) (b : Z) : M G nat := fun w =>
  if decide (Z.of_nat a <= b)%Z then
    let '(n, g) := randint a (Z.to_nat b + 1) (py_random w) in (Some n, set_py_random g w)
  else (None, w).

(** [random.choice(seq)]; it raises on an empty sequence. *)
Definition py_random_choice {A} (seq : list A) : M G A :=
  match seq with
  | [] => raise
  | _ => let! i := py_random_randint 0 (Z.of_nat (length seq) - 1) in lift_opt (seq !! i)
  end.

(** [np.random.shuffle(arr)] and [np_random.shuffle(arr)] on an integer
    array object, in place. *)
Definition np_random_shuffle (l : nat) : M G unit := fun w =>
  match mem w !! l with
  | Some (Int1 v) =>
      let '(v', g) := shuffle v (np_random_global w) in
      (Some tt, set_mem (<[l := Int1 v']> (mem w)) (set_np_random_global g w))
  | _ => (None, w)
  end.

Definition aug_shuffle (l : nat) : M G unit := fun w =>
  match mem w !! l with
  | Some (Int1 v) =>
      let '(v', g) := shuffle v (np_random w) in
      (Some tt, set_mem (<[l := Int1 v']> (mem w)) (set_np_random g w))
  | _ => (None, w)
  end.

Definition load_int (l : nat) : M G (list nat) :=
  let! a := load l in match a with Int1 v => ret v | _ => raise end.

(** [arr.min()]; it raises on an empty array. *)
Definition np_min `{!Float F} (l : list F) : option F :=
  match l with
  | [] => None
  | x :: l' => Some (foldl fmin x l')
  end.

(** [np.concatenate((data, data[:, 1:2] - data[:, 1:2].min()), axis=1)]. *)
Definition append_height `{!Float F} (data : list (list F)) : option (list (list F)) :=
  let column := (fun r : list F => take 1 (drop 1 r)) <$> data in
  m ← np_min (concat column);
  Some (zip_with app data ((fun r : list F => (fun x => fminus x m) <$> r) <$> column)).

(** [np.concatenate([data, np.ones(data.shape) * 0.4], axis=-1)], also with
    [np.ones_like]. *)
Definition append_rgb `{!Float F} (data : list (list F)) : list (list F) :=
  zip_with app data ((fun r : list F => (fun _ => of_R (1 * 0.4)) <$> r) <$> data).

(** [data.squeeze()] on the [1 x N x 3] batch of a pipeline: the axes of
    length 1 go, so that one cloud of one point leaves a 1-D array. *)
Definition squeeze (b : list (list (list npfloat))) : option tensor :=
  match b with
  | [[r]] => Some (Tensor1 r)
  | [pc] => Some (Tensor2 pc)
  | _ => None
  end.

(** The two steps that follow the augmentation, on a tensor: the constant
    colour channels, and the height channel, whose slice [data[:, 1:2]] needs
    two dimensions. *)
Definition tensor_append_rgb (t : tensor) : tensor :=
  match t with
  | Tensor1 v => Tensor1 (v ++ ((fun _ => Fin (1 * 0.4)) <$> v))
  | Tensor2 a => Tensor2 (append_rgb a)
  end.

Definition tensor_append_height (t : tensor) : option tensor :=
  match t with
  | Tensor1 _ => None
  | Tensor2 a => Tensor2 <$> append_height a
  end.

(** [torch.from_numpy(data).float()]. *)
Definition tensor_float `{!Cast32 R} (t : tensor) : tensor :=
  match t with
  | Tensor1 v => Tensor1 (float32 <$> v)
  | Tensor2 a => Tensor2 (astype_float32 a)
  end.

(** From a world whose store satisfies [I], [m] returns a result that
    satisfies [Q] and leaves a store that satisfies [I]. *)
Definition keeps (I : gmap nat ndarray -> Prop) {A} (m : M G A) (Q : A -> Prop) : Prop :=
  forall w, I (mem w) -> exists a w', m w = (Some a, w') /\ I (mem w') /\ Q a.

End AdapterPrimitives.

Module ScanObjectNN.
Section ScanObjectNN.
Context {G : Type} `{!RandomState G}.
Context {image caption feature : Type}.
Local Open Scope string_scope.
Local Open Scope list_scope.

Record t : Type := {
  data : list (list (list R));
  label : list nat;
  tokenizer : string -> option caption;
  semantic_classes : list string;
}.

(** [ScanObjectNN.__getitem__] (lines 845-858). *)
Definition getitem (self : t) (item : nat) : M G (Sample image caption feature) :=
  let! pc := lift_opt (data self !! item) in
  let! label := lift_opt (label self !! item) in
  let! name := lift_opt (semantic_classes self !! label) in
  let! caption := lift_opt (tokenizer self name) in
  ret (<["label" := VInt label]>
       (<["caption" := VCaption caption]>
        (<["pc" := VTensor (Tensor2 (lift pc))]> ∅))).

End ScanObjectNN.
End ScanObjectNN.

Module ModelNet.
Section ModelNet.
Context {G : Type} `{!RandomState G} `{!Cast32 R}.
Context {image caption feature : Type}.
Local Open Scope string_scope.
Local Open Scope list_scope.
Local Open Scope R_scope.

Record t : Type := {
  npoints : nat;
  use_normals : bool;
  process_data : bool;
  uniform : bool;
  subset : string;
  use_10k_pc : bool;
  use_colored_pc : bool;
  use_height : bool;
  classes : gmap string nat;
  datapath : list (string * string);
  loadtxt : string -> option (list (list R));
  list_of_points : list nat;          (* addresses of the stored arrays *)
  list_of_labels : list nat;
  shape_names : list string;
  modelnet_10k_rgb_data : list (list (list R));
  cat_name : list string;
  pc_text_features : nat -> nat -> option feature;
}.

(** [self.shape_names.index(cat_name)]; it raises when the name is absent. *)
Fixpoint list_index (x : string) (l : list string) : option nat :=
  match l with
  | [] => None
  | y :: l' => if decide (y = x) then Some O else S <$> list_index x l'
  end.

(** [ModelNet._get_item] (lines 473-512).  The array it normalises in place
    is the stored one unless it was sampled anew; [loadtxt] is [np.loadtxt]
    with the cast of its result to float32.  The arrays of the entries are
    held in single precision (lines 406 and 480), so that the assignment of
    line 490 casts what it writes.  [farthest_point_sample] is followed on
    arrays of reals. *)
Definition _get_item (self : t) (index : nat) : M G (list (list npfloat) * nat) :=
  let! pl :=
    if process_data self then
      let! p := lift_opt (list_of_points self !! index) in
      let! label := lift_opt (list_of_labels self !! index) in
      ret (p, label)
    else
      let! fn := lift_opt (datapath self !! index) in
      let! cls := lift_opt (classes self !! fn.1) in
      let! point_set := lift_opt (loadtxt self fn.2) in
      let! p := alloc (Float2 point_set) in
      let! p := if uniform self then farthest_point_sample p (npoints self)
                else alloc (Float2 (take (npoints self) point_set)) in
      ret (p, cls) in
  let! a := load_floats pl.1 in
  let! p := if decide (npoints self < length a)%nat
            then farthest_point_sample pl.1 (npoints self) else ret pl.1 in
  let! a := load_floats p in
  let! y := lift_opt (pc_normalize_floats (take 3 <$> a)) in
  let a' := zip_with (fun (r ry : list npfloat) => ry ++ drop 3 r) a (astype_float32 y) in
  let! _ := store p (of_floats a') in
  let point_set := if use_normals self then a' else take 3 <$> a' in
  let! point_set := if use_height self then lift_opt (append_height point_set)
                    else ret point_set in
  if use_10k_pc self && use_colored_pc self then
    let! xyz := lift_opt (modelnet_10k_rgb_data self !! index) in
    let point_set := append_rgb (lift xyz) in
    let! cat := lift_opt (cat_name self !! index) in
    let! label := lift_opt (list_index cat (shape_names self)) in
    ret (point_set, label)
  else if use_colored_pc self then ret (append_rgb point_set, pl.2)
  else ret (point_set, pl.2).

(** [ModelNet.__getitem__] (lines 517-540). *)
Definition getitem (self : t) (index : nat) : M G (Sample image caption feature) :=
  let rtn : Sample image caption feature := ∅ in
  let! pl := _get_item self index in
  let points := pl.1 in
  let label := pl.2 in
  let pt_idxs := seq 0 (length points) in
  let! pt_idxs :=
    if bool_decide (subset self = "train") then
      fun w => let '(v, g) := shuffle pt_idxs (np_random_global w) in
               (Some v, set_np_random_global g w)
    else ret pt_idxs in
  let! current_points := lift_opt (mapM (fun i => points !! i) pt_idxs) in
  let current_points := tensor_float (Tensor2 current_points) in
  let! label_name := lift_opt (shape_names self !! label) in
  let rtn := <["pc" := VTensor current_points]> rtn in
  let rtn := <["label" := VInt label]> rtn in
  let rtn := <["class_name" := VStr label_name]> rtn in
  if bool_decide (subset self = "train") then
    let! template_idx := py_random_randint 0 59 in
    let! text_feature := lift_opt (pc_text_features self label template_idx) in
    ret (<["text_feature" := VFeature text_feature]> rtn)
  else ret rtn.

End ModelNet.
End ModelNet.

Module ShapeNet.
Section ShapeNet.
Context {G : Type} `{!RandomState G} `{!Cast32 R}.
Context {pil image caption feature : Type}.
(** The string methods used on the synset names and the templates:
    [s.split(",")], [s.strip()], [template.format(caption)]. *)
Context (str_split_comma : string -> list string) (str_strip : string -> string)
        (str_format : string -> string -> option string).
Local Open Scope string_scope.
Local Open Scope list_scope.
Local Open Scope R_scope.

Record file_entry : Type := {
  taxonomy_id : string;
  model_id : string;
  file_path : string;
}.

Record t : Type := {
  subset : string;
  sample_points_num : nat;
  tokenizer : string -> option caption;
  train_transform : pil -> option image;
  rendered_image_addr : string;
  picked_image_type : list string;
  picked_rotation_degrees : list string;
  templates : list string;
  synset_names : gmap string string;     (* [synset_id_map[id]["name"]] *)
  index_list : gmap string nat;
  file_list : list file_entry;
  permutation : nat;                     (* address of [self.permutation] *)
  uniform : bool;
  augment : bool;
  use_height : bool;
  distill : bool;
  with_color : bool;
  text_embed_dim : nat;
  (** [IO.get] of the point file of an entry, cast to float32. *)
  io_get : string -> option (list (list R));
  (** [np.load] of the text features of a taxonomy id. *)
  np_load : string -> option (list feature);
  pil_loader : string -> option pil;
}.

(** [ShapeNet.pc_norm] (lines 945-951). *)
Definition pc_norm (pc : list (list R)) : option (list (list npfloat)) :=
  let centroid := np_mean0 pc in
  let pc := sub_rows pc centroid in
  m ← np_max (row_norm <$> pc);
  Some ((fun r : list R => (fun x => np_div x m) <$> r) <$> pc).

(** [ShapeNet.random_sample] (lines 953-959). *)
Definition random_sample (self : t) (pc : list (list R)) (num : nat)
  : M G (list (list R)) :=
  let! _ := if distill self then aug_shuffle (permutation self)
            else np_random_shuffle (permutation self) in
  let! perm := load_int (permutation self) in
  lift_opt (mapM (fun i => pc !! i) (take num perm)).

(** [self.permutation] holds a permutation of the indices of [N] points. *)
Definition permutation_ok (self : t) (N : nat) (m : gmap nat ndarray) : Prop :=
  exists p, m !! permutation self = Some (Int1 p) /\ p ≡ₚ seq 0 N.

(** What one pass of the loop of [__getitem__] ends with: the sample it
    built, or the address of the image that could not be loaded. *)
Inductive pass_result : Type :=
  | Built (rtn : Sample image caption feature)
  | Corrupted (picked_image_addr : string).

(** One pass of the [while] loop of [ShapeNet.__getitem__] (lines 967-1068),
    up to and including the [try] statement. *)
Definition getitem_pass (self : t) (idx : nat) : M G pass_result :=
  let! sample := lift_opt (file_list self !! idx) in
  let! data := lift_opt (io_get self (file_path sample)) in
  let! data :=
    if uniform self && bool_decide (sample_points_num self < length data)%nat then
      let! p := alloc (Float2 data) in
      let! q := farthest_point_sample p (sample_points_num self) in
      load2 q
    else random_sample self data (sample_points_num self) in
  let! data := lift_opt (pc_norm data) in
  let! data :=
    if augment self then
      if distill self then
        let! data := random_point_dropout_distill [data] 0.875 in
        let! data := random_scale_point_cloud_distill data 0.8 1.25 in
        let! data := shift_point_cloud_distill data 0.1 in
        let! data := rotate_perturbation_point_cloud_distill data 0.06 0.18 in
        let! data := rotate_point_cloud data in
        lift_opt (squeeze data)
      else
        let! data := random_point_dropout [data] 0.875 in
        let! data := random_scale_point_cloud data 0.8 1.25 in
        let! data := shift_point_cloud data 0.1 in
        let! data := rotate_perturbation_point_cloud data 0.06 0.18 in
        let! data := rotate_point_cloud data in
        lift_opt (squeeze data)
    else ret (Tensor2 data) in
  let data := if with_color self then tensor_append_rgb data else data in
  let! data := if use_height self then lift_opt (tensor_append_height data)
               else ret data in
  let data := tensor_float data in
  let! index := lift_opt (index_list self !! taxonomy_id sample) in
  let label := index in
  let! captions := lift_opt (synset_names self !! taxonomy_id sample) in
  let captions :=
    filter (fun c => c <> "") (str_strip <$> str_split_comma captions) in
  let! caption := py_random_choice captions in
  let! template := py_random_choice (templates self) in
  let! caption := lift_opt (str_format template caption) in
  let! tokenized_caption := lift_opt (tokenizer self caption) in
  let picked_model_rendered_image_addr := rendered_image_addr self +:+ "/" in
  let! degree := py_random_choice (picked_rotation_degrees self) in
  let! type := py_random_choice (picked_image_type self) in
  let picked_image_name :=
    taxonomy_id sample +:+ "-" +:+ model_id sample +:+ "_r_" +:+ degree +:+ type
    +:+ ".png" in
  let picked_image_addr := picked_model_rendered_image_addr +:+ picked_image_name in
  let! text_feature :=
    if bool_decide (subset self = "train") && bool_decide (text_embed_dim self = 1536%nat)
    then
      let! npy_text_features := lift_opt (np_load self (taxonomy_id sample)) in
      let! template_idx :=
        py_random_randint 0 (Z.of_nat (length npy_text_features) - 1) in
      let! f := lift_opt (npy_text_features !! template_idx) in
      ret (VFeature f)
    else ret VNone in
  match pil_loader self picked_image_addr ≫= train_transform self with
  | Some image =>
      ret (Built
        (<["text_feature" := text_feature]>
         (<["target" := VInt label]>
          (<["image" := VImage image]>
           (<["pc" := VTensor data]>
            (<["caption" := VCaption tokenized_caption]>
             (<["model_id" := VStr (model_id sample)]>
              (<["taxonomy_id" := VStr (taxonomy_id sample)]> ∅))))))))
  | None => ret (Corrupted picked_image_addr)
  end.

(** [ShapeNet.__getitem__] (lines 964-1069): the [while rtn is None] loop,
    run for at most [fuel] passes.  The result is [Some rtn] when the loop is
    left with a sample and [None] when the passes are used up. *)
Fixpoint getitem (fuel : nat) (self : t) (idx : nat)
  : M G (option (Sample image caption feature)) :=
  match fuel with
  | O => ret None
  | S fuel' =>
      let! r := getitem_pass self idx in
      match r with
      | Built rtn => ret (Some rtn)
      | Corrupted _ =>
          let! idx := py_random_randint 0 (Z.of_nat (length (file_list self)) - 1) in
          getitem fuel' self idx
      end
  end.

End ShapeNet.
End ShapeNet.

(** ** A one-entry ShapeNet

    One airplane of two points, sampled to two points; the string methods are
    stand-ins ([split] returns the whole string, [strip] is the identity,
    [format] appends the caption to the template).  [toy_shapenet loader] is
    the dataset whose rendered images load as [loader] says. *)

Section ToyShapeNet.
Local Open Scope string_scope.
Local Open Scope list_scope.
Local Open Scope R_scope.

Definition toy_split (s : string) : list string := [s].
Definition toy_strip (s : string) : string := s.
Definition toy_format (template caption : string) : option string :=
  Some (template +:+ caption).

Definition toy_entry : ShapeNet.file_entry :=
  {| ShapeNet.taxonomy_id := "02691156";
     ShapeNet.model_id := "1a04e3eab45ca15dd86060f189eb133";
     ShapeNet.file_path := "02691156-1a04e3eab45ca15dd86060f189eb133.npy" |}.

Definition toy_shapenet (loader : string -> option unit)
  : ShapeNet.t (pil:=unit) (image:=unit) (caption:=string) (feature:=unit) :=
  {| ShapeNet.subset := "train";
     ShapeNet.sample_points_num := 2;
     ShapeNet.tokenizer := Some;
     ShapeNet.train_transform := Some;
     ShapeNet.rendered_image_addr := "rendered_images";
     ShapeNet.picked_image_type := [""; "_depth0001"];
     ShapeNet.picked_rotation_degrees := ["000"; "012"; "024"];
     ShapeNet.templates := ["a point cloud model of "];
     ShapeNet.synset_names := {[ "02691156" := "airplane,aeroplane,plane" ]};
     ShapeNet.index_list := {[ "02691156" := 0%nat ]};
     ShapeNet.file_list := [toy_entry];
     ShapeNet.permutation := 0;
     ShapeNet.uniform := true;
     ShapeNet.augment := true;
     ShapeNet.use_height := false;
     ShapeNet.distill := false;
     ShapeNet.with_color := false;
     ShapeNet.text_embed_dim := 512;
     ShapeNet.io_get := fun _ => Some [[0; 0; 0]; [1; 0; 0]];
     ShapeNet.np_load := fun _ => None;
     ShapeNet.pil_loader := loader |}.

(** A world that holds [self.permutation = np.arange(2)] at address 0. *)
Definition toy_world : world tape :=
  World {[ 0%nat := Int1 [0; 1]%nat ]} (Tape [] []) (Tape [] []) (Tape [] []).

End ToyShapeNet.

(** ** A one-entry ScanObjectNN and a one-entry ModelNet *)

Section ToyAdapters.
Local Open Scope string_scope.
Local Open Scope list_scope.
Local Open Scope R_scope.

Definition toy_scanobjectnn : ScanObjectNN.t (caption:=string) :=
  {| ScanObjectNN.data := [[[0; 0; 0]; [1; 0; 0]]];
     ScanObjectNN.label := [4%nat];
     ScanObjectNN.tokenizer := Some;
     ScanObjectNN.semantic_classes :=
       ["bag"; "bin"; "box"; "cabinet"; "chair"; "desk"; "display"; "door"; "shelf";
        "table"; "bed"; "pillow"; "sink"; "sofa"; "toilet"] |}.

Definition toy_modelnet : ModelNet.t (feature:=unit) :=
  {| ModelNet.npoints := 2;
     ModelNet.use_normals := false;
     ModelNet.process_data := true;
     ModelNet.uniform := true;
     ModelNet.subset := "test";
     ModelNet.use_10k_pc := false;
     ModelNet.use_colored_pc := false;
     ModelNet.use_height := false;
     ModelNet.classes := ∅;
     ModelNet.datapath := [];
     ModelNet.loadtxt := fun _ => None;
     ModelNet.list_of_points := [7%nat];
     ModelNet.list_of_labels := [1%nat];
     ModelNet.shape_names := ["airplane"; "bathtub"];
     ModelNet.modelnet_10k_rgb_data := [];
     ModelNet.cat_name := [];
     ModelNet.pc_text_features := fun _ _ => None |}.

(** A world that holds the stored array of the ModelNet entry at address 7. *)
Definition toy_modelnet_world : world tape :=
  World {[ 7%nat := Float2 [[0; 0; 0; 0; 0; 1]; [2; 0; 0; 0; 0; 1]] ]}
        (Tape [] []) (Tape [] []) (Tape [] []).

(** A world in which the stored array of the entry holds one point twice. *)
Definition toy_modelnet_flat_world : world tape :=
  World {[ 7%nat := Float2 [[1; 2; 3; 0; 0; 1]; [1; 2; 3; 0; 0; 1]] ]}
        (Tape [] []) (Tape [] []) (Tape [] []).

End ToyAdapters.

(** ** Construction of the adapters

    The parts of [ShapeNet.__init__] (lines 863-938) and [ModelNet.__init__]
    (lines 323-468) that turn the lines of the list files and the entries of
    [taxonomy.json] into the tables that [__getitem__] reads.  Strings are
    sequences of bytes; the separators are ASCII characters. *)

Section StringMethods.
Local Open Scope string_scope.
Local Open Scope list_scope.

(** [s.split(c)] for a separator of one character: at least one piece. *)
Fixpoint str_split (c : Ascii.ascii) (s : string) : list string :=
  match s with
  | EmptyString => [""]
  | String a s' =>
      if decide (a = c) then "" :: str_split c s'
      else match str_split c s' with
           | [] => [String a ""]
           | h :: t => String a h :: t
           end
  end.

(** [sep.join(l)]. *)
Fixpoint str_join (sep : string) (l : list string) : string :=
  match l with
  | [] => ""
  | [x] => x
  | x :: l' => x +:+ sep +:+ str_join sep l'
  end.

(** [s[n:]]. *)
Fixpoint str_from (n : nat) (s : string) : string :=
  match n, s with
  | O, _ => s
  | S n', String _ s' => str_from n' s'
  | S _, EmptyString => ""
  end.

End StringMethods.

(** [dict(zip(keys, range(len(keys))))], and the loop
    [for i, d in enumerate(l): table[key(d)] = i]: a later entry with the same
    key overwrites an earlier one. *)
Definition enumerate_keys (keys : list string) : gmap string nat :=
  foldl (fun (m : gmap string nat) (ik : nat * string) => <[ik.2 := ik.1]> m) ∅
        (imap pair keys).

Module ShapeNetInit.
Section ShapeNetInit.
Local Open Scope string_scope.
Local Open Scope list_scope.

(** An entry of [taxonomy.json], with the two fields that are read. *)
Record id_dict : Type := { synsetId : string; name : string }.

(** [self.synset_id_map] (lines 888-893). *)
Definition synset_id_map (id_map : list id_dict) : gmap string id_dict :=
  foldl (fun (m : gmap string id_dict) (d : id_dict) => <[synsetId d := d]> m) ∅ id_map.

(** [self.index_list] (lines 889-893). *)
Definition index_list (id_map : list id_dict) : gmap string nat :=
  enumerate_keys (synsetId <$> id_map).

(** The entry of [self.file_list] for a stripped line of the list file
    (lines 911-917). *)
Definition file_entry_of_line (line : string) : ShapeNet.file_entry :=
  let taxonomy_id := default "" (str_split "-"%char line !! 0%nat) in
  let model_id :=
    default "" (str_split "."%char (str_from (String.length taxonomy_id + 1) line) !! 0%nat) in
  {| ShapeNet.taxonomy_id := taxonomy_id;
     ShapeNet.model_id := model_id;
     ShapeNet.file_path := line |}.

(** [self.file_list] (lines 903-917), for the lines of the list files;
    [str_strip] is [line.strip()]. *)
Definition file_list (str_strip : string -> string) (whole : bool)
    (lines test_lines : list string) : list ShapeNet.file_entry :=
  let lines := if whole then test_lines ++ lines else lines in
  (fun line => file_entry_of_line (str_strip line)) <$> lines.

End ShapeNetInit.
End ShapeNetInit.

Module ModelNetInit.
Section ModelNetInit.
Local Open Scope string_scope.
Local Open Scope list_scope.

(** [self.classes] (line 343). *)
Definition classes (cat : list string) : gmap string nat := enumerate_keys cat.

(** ["_".join(x.split("_")[0:-1])] (line 366): the shape id without its last
    component. *)
Definition shape_name (x : string) : string :=
  str_join "_" (removelast (str_split "_"%char x)).

End ModelNetInit.
End ModelNetInit.

(** ** Configuration files (lines 1141-1166)

    A loaded YAML document is a scalar or sequence (a [Leaf], kept abstract)
    or a mapping with string keys.  A mapping is a Python dict: an
    association list without repeated keys, in insertion order.  An
    [EasyDict] is such a mapping too.  The recursion of [merge_new_config]
    follows the files that "_base_" entries name, so it is run on a budget
    of nested calls. *)

Module Config.
Section Config.
Context {V : Type}.
Local Open Scope string_scope.
Local Open Scope list_scope.

#[warnings="-register-all"]
Inductive yaml : Type :=
  | Leaf (v : V)
  | Dict (kv : list (string * yaml)).

(** How a call ends: with a value, with an exception, or with the budget
    of nested calls used up. *)
Inductive outcome (A : Type) : Type :=
  | Done (a : A)
  | Raised
  | OutOfFuel.
Arguments Done {A} a.
Arguments Raised {A}.
Arguments OutOfFuel {A}.

Definition obind {A B} (m : outcome A) (k : A -> outcome B) : outcome B :=
  match m with
  | Done a => k a
  | Raised => Raised
  | OutOfFuel => OutOfFuel
  end.

(** [d[key]] on the items of a dict. *)
Fixpoint assoc_get (key : string) (kv : list (string * yaml)) : option yaml :=
  match kv with
  | [] => None
  | (k, v) :: kv' => if decide (k = key) then Some v else assoc_get key kv'
  end.

(** [d[key] = value] on the items of a dict: an existing key keeps its
    place, a new one goes last. *)
Fixpoint assoc_set (key : string) (value : yaml) (kv : list (string * yaml))
  : list (string * yaml) :=
  match kv with
  | [] => [(key, value)]
  | (k, v) :: kv' => if decide (k = key) then (k, value) :: kv'
                     else (k, v) :: assoc_set key value kv'
  end.

(** [key in config], [config[key]] and [config[key] = value]; on a value
    that is not a mapping each of them ends in a TypeError (at once, or at
    the item access that follows the test). *)
Definition contains (key : string) (config : yaml) : outcome bool :=
  match config with
  | Dict kv => Done (bool_decide (key ∈ kv.*1))
  | Leaf _ => Raised
  end.

Definition getitem (key : string) (config : yaml) : outcome yaml :=
  match config with
  | Dict kv => match assoc_get key kv with Some v => Done v | None => Raised end
  | Leaf _ => Raised
  end.

Definition setitem (key : string) (value : yaml) (config : yaml) : outcome yaml :=
  match config with
  | Dict kv => Done (Dict (assoc_set key value kv))
  | Leaf _ => Raised
  end.

(** [new_config.items()]; it raises on a value that is not a mapping. *)
Definition items (new_config : yaml) : outcome (list (string * yaml)) :=
  match new_config with
  | Dict kv => Done kv
  | Leaf _ => Raised
  end.

(** [for x in l: s = body(s, x)]. *)
Fixpoint for_items {A St} (l : list A) (body : St -> A -> outcome St) (s : St)
  : outcome St :=
  match l with
  | [] => Done s
  | x :: l' => obind (body s x) (for_items l' body)
  end.

(** The [with] block that opens and loads the file a "_base_" entry names
    (lines 1145-1149), and the load of [cfg_from_yaml_file] (lines
    1163-1164): [None] when it raises. *)
Context (load_base load_cfg : V -> option yaml).

(** One pass of the loop of [merge_new_config] (lines 1142-1157);
    [merge] is the function itself, for the nested calls. *)
Definition merge_pass (merge : yaml -> yaml -> outcome yaml)
    (config : yaml) (item : string * yaml) : outcome yaml :=
  let key := item.1 in
  let val := item.2 in
  match val with
  | Leaf v =>
      if decide (key = "_base_") then
        match load_base v with
        | None => Raised
        | Some val =>
            obind (setitem key (Dict []) config) (fun config =>
            obind (getitem key config) (fun child =>
            obind (merge child val) (fun child =>
            obind (setitem key child config) (fun config =>
            obind (contains key config) (fun present =>
            obind (if present then Done config else setitem key (Dict []) config)
              (fun config =>
            obind (getitem key config) (fun child =>
            obind (merge child val) (fun child =>
            setitem key child config))))))))
        end
      else setitem key val config
  | Dict _ =>
      obind (contains key config) (fun present =>
      obind (if present then Done config else setitem key (Dict []) config)
        (fun config =>
      obind (getitem key config) (fun child =>
      obind (merge child val) (fun child =>
      setitem key child config))))
  end.

(** [merge_new_config] (lines 1141-1158). *)
Fixpoint merge_new_config (fuel : nat) (config new_config : yaml) : outcome yaml :=
  match fuel with
  | O => OutOfFuel
  | S fuel' =>
      obind (items new_config) (fun l =>
      for_items l (merge_pass (merge_new_config fuel')) config)
  end.

(** [cfg_from_yaml_file] (lines 1161-1166). *)
Definition cfg_from_yaml_file (fuel : nat) (cfg_file : V) : outcome yaml :=
  let config := Dict [] in
  match load_cfg cfg_file with
  | None => Raised
  | Some new_config => merge_new_config fuel config new_config
  end.

(** The number of nested mappings of a document. *)
Fixpoint depth (y : yaml) : nat :=
  match y with
  | Leaf _ => 0
  | Dict kv =>
      S ((fix go (l : list (string * yaml)) : nat :=
            match l with
            | [] => 0
            | p :: l' => depth p.2 `max` go l'
            end) kv)
  end.

(** A document whose mappings repeat no key and name no file to include. *)
Fixpoint plain (y : yaml) : Prop :=
  match y with
  | Leaf _ => True
  | Dict kv =>
      NoDup kv.*1 /\
      (fix go (l : list (string * yaml)) : Prop :=
         match l with
         | [] => True
         | p :: l' =>
             (match p.2 with Leaf _ => p.1 <> "_base_" | Dict _ => True end) /\
             plain p.2 /\ go l'
         end) kv
  end.

End Config.

Arguments yaml : clear implicits.
Arguments Done {A} a.
Arguments Raised {A}.
Arguments OutOfFuel {A}.

End Config.

Module Objaverse_Lvis_Colored.
Section Objaverse_Lvis_Colored.
Context {G : Type} `{!RandomState G} `{!Cast32 R}.
Context {rgb image caption feature : Type}.
Local Open Scope string_scope.
Local Open Scope list_scope.
Local Open Scope R_scope.

(** What [self.pc_text_features[label]] holds: the features by template, or
    a dict of such lists; of a dict, the entries under its integer keys and
    the number of its other keys. *)
Inductive text_features : Type :=
  | ByTemplate (l : list feature)
  | ByVariant (d : gmap nat (list feature)) (others : nat).

Record t : Type := {
  tokenizer : string -> option caption;
  train_transform : rgb -> option image;
  npy_file_map : gmap string string;
  file_list : list string;
  value_to_key_mapping : gmap string string;   (* [lvis_metadata[...]] *)
  key_to_id : gmap string nat;
  use_height : bool;
  augment : bool;
  subset : string;
  (** [self.pc_text_features]; the attribute exists only when [__init__]
      has loaded it. *)
  pc_text_features : option (nat -> option text_features);
  (** [np.load(...).item()] of a point file: its entries "xyz" and "rgb". *)
  np_load : string -> option (list (list R) * rgb);
}.

(** [Objaverse_Lvis_Colored.pc_norm] (lines 696-702). *)
Definition pc_norm (pc : list (list R)) : option (list (list npfloat)) :=
  let centroid := np_mean0 pc in
  let pc := sub_rows pc centroid in
  m ← np_max (row_norm <$> pc);
  Some ((fun r : list R => (fun x => np_div x m) <$> r) <$> pc).

(** [Objaverse_Lvis_Colored.__getitem__] (lines 712-776).  [data[None, ...]]
    is a view of [data]: the three functions that write into their argument
    write into [data], which afterwards holds the first cloud of the batch
    they return.  The two rotations return new arrays, assigned to [pc] only;
    [pc.squeeze()] does not raise and its result is not used. *)
Definition getitem (self : t) (idx : nat) : M G (Sample image caption feature) :=
  let! sample := lift_opt (file_list self !! idx) in
  let! pc_addr := lift_opt (npy_file_map self !! sample) in
  let! dict_data := lift_opt (np_load self pc_addr) in
  let xyz_data := dict_data.1 in
  let rgb_data := dict_data.2 in
  let! rgb_data := lift_opt (train_transform self rgb_data) in
  let! data := lift_opt (pc_norm xyz_data) in
  let! data :=
    if augment self then
      let! pc := random_point_dropout [data] 0.875 in
      let! pc := random_scale_point_cloud pc 0.8 1.25 in
      let! pc := shift_point_cloud pc 0.1 in
      let! data := lift_opt (pc !! 0%nat) in
      let! pc := rotate_perturbation_point_cloud pc 0.06 0.18 in
      let! pc := rotate_point_cloud pc in
      ret data
    else ret data in
  let! data := if use_height self then lift_opt (append_height data) else ret data in
  let data := tensor_float (Tensor2 data) in
  let! name := lift_opt (value_to_key_mapping self !! sample) in
  let! label := lift_opt (key_to_id self !! name) in
  let! text_feature :=
    if bool_decide (subset self = "train") then
      let! template_idx := py_random_randint 0 59 in
      let! table := lift_opt (pc_text_features self) in
      let! entry := lift_opt (table label) in
      match entry with
      | ByVariant d others =>
          let! i := py_random_randint 0 (Z.of_nat (size d + others) - 1) in
          let! l := lift_opt (d !! i) in
          let! f := lift_opt (l !! template_idx) in
          ret (VFeature f)
      | ByTemplate l =>
          let! f := lift_opt (l !! template_idx) in
          ret (VFeature f)
      end
    else ret VNone in
  let! tokenized_caption := lift_opt (tokenizer self name) in
  ret (<["text_feature" := text_feature]>
       (<["label" := VInt label]>
        (<["caption" := VCaption tokenized_caption]>
         (<["image" := VImage rgb_data]>
          (<["pc" := VTensor data]> ∅))))).

End Objaverse_Lvis_Colored.
End Objaverse_Lvis_Colored.

(** ** Notions used to state further properties *)

(** The points of the array are pairwise apart, over the first three
    coordinates. *)
Definition separated (a : list (list R)) : Prop :=
  forall k s, (k < length a)%nat -> (s < length a)%nat -> k <> s ->
    (0 < sqdist3 a k s)%R.

(** The matrix that [rotate_point_cloud] builds for the angle [theta]: the
    rotation by [theta] about the second axis. *)
Definition rotation_y (theta : R) : list (list R) :=
  [[cos theta; 0; sin theta]; [0; 1; 0]; [- sin theta; 0; cos theta]]%R.

(** The rows of the second cloud have the norm and the second coordinate of
    the rows of the first. *)
Definition turned_about_y (pc pc' : list (list R)) : Prop :=
  Forall2 (fun p p' : list R => row_norm p' = row_norm p /\ p' !! 1%nat = p !! 1%nat)
          pc pc'.

(** The rows of the two clouds have, pairwise, the same norm. *)
Definition same_norms (pc pc' : list (list R)) : Prop :=
  Forall2 (fun p p' : list R => row_norm p' = row_norm p) pc pc'.

Section WellFormed.
Context {pil image caption feature : Type}.
Context (str_split_comma : string -> list string) (str_strip : string -> string)
        (str_format : string -> string -> option string).
Context (self : ShapeNet.t (pil:=pil) (image:=image) (caption:=caption) (feature:=feature)).
Local Open Scope string_scope.
Local Open Scope list_scope.

(** An entry of [file_list] that a pass of [__getitem__] can process: its
    point file holds at least [sample_points_num] points of three
    coordinates, its taxonomy id has an index and a synset name with a
    non-blank part, and where text features are read (the training split
    with embeddings of dimension 1536) its file of text features holds
    one. *)
Definition entry_ok (sample : ShapeNet.file_entry) : Prop :=
  (exists data,
     ShapeNet.io_get self (ShapeNet.file_path sample) = Some data /\
     rect 3 data /\ (ShapeNet.sample_points_num self <= length data)%nat) /\
  is_Some (ShapeNet.index_list self !! ShapeNet.taxonomy_id sample) /\
  (exists names,
     ShapeNet.synset_names self !! ShapeNet.taxonomy_id sample = Some names /\
     filter (fun c => c <> "") (str_strip <$> str_split_comma names) <> []) /\
  (ShapeNet.subset self = "train" -> ShapeNet.text_embed_dim self = 1536%nat ->
   exists features,
     ShapeNet.np_load self (ShapeNet.taxonomy_id sample) = Some features /\
     features <> []).

(** A dataset all of whose entries can be processed: it samples at least one
    point (two, where the height channel is appended to an augmented cloud),
    and its templates, rotation degrees and image types are not empty. *)
Definition dataset_ok : Prop :=
  (1 <= ShapeNet.sample_points_num self)%nat /\
  (ShapeNet.use_height self = true -> ShapeNet.augment self = true ->
   (2 <= ShapeNet.sample_points_num self)%nat) /\
  ShapeNet.templates self <> [] /\
  ShapeNet.picked_rotation_degrees self <> [] /\
  ShapeNet.picked_image_type self <> [] /\
  (forall t c, is_Some (str_format t c)) /\
  (forall c, is_Some (ShapeNet.tokenizer self c)) /\
  Forall entry_ok (ShapeNet.file_list self).

End WellFormed.

Section Streams.
Context {G : Type} `{!RandomState G}.

(** [m] draws from the global stream of [np.random] only: whether it returns
    or raises, it leaves [np_random] and Python's [random] as they were. *)
Definition draws_global_only {A} (m : M G A) : Prop :=
  forall w, np_random (m w).2 = np_random w /\ py_random (m w).2 = py_random w.

(** [m] draws from [np_random] only. *)
Definition draws_np_random_only {A} (m : M G A) : Prop :=
  forall w, np_random_global (m w).2 = np_random_global w /\
            py_random (m w).2 = py_random w.

End Streams.

(** ** Small instances for the examples *)

Section ToyInstances.
Local Open Scope string_scope.
Local Open Scope list_scope.
Local Open Scope R_scope.

(** A ShapeNet that samples two points of an entry whose file holds one. *)
Definition short_shapenet
  : ShapeNet.t (pil:=unit) (image:=unit) (caption:=string) (feature:=unit) :=
  {| ShapeNet.subset := "train";
     ShapeNet.sample_points_num := 2;
     ShapeNet.tokenizer := Some;
     ShapeNet.train_transform := Some;
     ShapeNet.rendered_image_addr := "rendered_images";
     ShapeNet.picked_image_type := [""; "_depth0001"];
     ShapeNet.picked_rotation_degrees := ["000"; "012"; "024"];
     ShapeNet.templates := ["a point cloud model of "];
     ShapeNet.synset_names := {[ "02691156" := "airplane,aeroplane,plane" ]};
     ShapeNet.index_list := {[ "02691156" := 0%nat ]};
     ShapeNet.file_list := [toy_entry];
     ShapeNet.permutation := 0;
     ShapeNet.uniform := true;
     ShapeNet.augment := true;
     ShapeNet.use_height := false;
     ShapeNet.distill := false;
     ShapeNet.with_color := false;
     ShapeNet.text_embed_dim := 512;
     ShapeNet.io_get := fun _ => Some [[0; 0; 0]];
     ShapeNet.np_load := fun _ => None;
     ShapeNet.pil_loader := fun _ => Some tt |}.

(** Two entries of a taxonomy file. *)
Definition toy_id_map : list ShapeNetInit.id_dict :=
  [ {| ShapeNetInit.synsetId := "02691156"; ShapeNetInit.name := "airplane,aeroplane,plane" |};
    {| ShapeNetInit.synsetId := "02747177"; ShapeNetInit.name := "ashcan,trash can" |} ].

(** A one-entry Objaverse-LVIS, evaluation split. *)
Definition toy_objaverse
  : Objaverse_Lvis_Colored.t (rgb:=unit) (image:=unit) (caption:=string) (feature:=unit) :=
  {| Objaverse_Lvis_Colored.tokenizer := Some;
     Objaverse_Lvis_Colored.train_transform := Some;
     Objaverse_Lvis_Colored.npy_file_map := {[ "0a1b" := "000-000/0a1b.npy" ]};
     Objaverse_Lvis_Colored.file_list := ["0a1b"];
     Objaverse_Lvis_Colored.value_to_key_mapping := {[ "0a1b" := "chair" ]};
     Objaverse_Lvis_Colored.key_to_id := {[ "chair" := 7%nat ]};
     Objaverse_Lvis_Colored.use_height := false;
     Objaverse_Lvis_Colored.augment := true;
     Objaverse_Lvis_Colored.subset := "test";
     Objaverse_Lvis_Colored.pc_text_features := None;
     Objaverse_Lvis_Colored.np_load := fun _ => Some ([[0; 0; 0]; [1; 0; 0]], tt) |}.

(** Two configuration files: [toy_cfg] includes [toy_base]. *)
Definition toy_base : list (string * Config.yaml string) :=
  [("optimizer", Config.Dict [("lr", Config.Leaf "0.001")])].

Definition toy_cfg : list (string * Config.yaml string) :=
  [("NAME", Config.Leaf "ShapeNet"); ("others", Config.Dict [("bs", Config.Leaf "1")])].

Definition toy_load_base (path : string) : option (Config.yaml string) :=
  if decide (path = "base.yaml") then Some (Config.Dict toy_base) else None.

Definition toy_load_cfg (path : string) : option (Config.yaml string) :=
  if decide (path = "ShapeNet-55.yaml") then Some (Config.Dict toy_cfg)
  else if decide (path = "with_base.yaml")
       then Some (Config.Dict (("_base_", Config.Leaf "base.yaml") :: toy_cfg))
       else None.

End ToyInstances.

(** * Properties *)

(** ** Facts on arrays *)

Section ArrayFacts.
Local Open Scope R_scope.

Lemma np_sum_nonneg (l : list R) : Forall (fun x => 0 <= x) l -> 0 <= np_sum l.
Proof. induction 1; csimpl; lra. Qed.

Lemma sq_sum_nonneg (r : list R) : 0 <= np_sum ((fun x => x ^ 2) <$> r).
Proof.
  apply np_sum_nonneg, Forall_fmap, Forall_forall. intros x _. csimpl. nra.
Qed.

Lemma row_norm_nonneg (r : list R) : 0 <= row_norm r.
Proof. apply sqrt_pos. Qed.

Lemma sq_sum_elem (r : list R) (x : R) :
  x ∈ r -> x ^ 2 <= np_sum ((fun x => x ^ 2) <$> r).
Proof.
  induction 1 as [x r|x y r _ IH]; csimpl in *.
  - pose proof (sq_sum_nonneg r). csimpl in *. lra.
  - nra.
Qed.

(** A coordinate is bounded by the norm of its row. *)
Lemma abs_le_row_norm (r : list R) (x : R) : x ∈ r -> Rabs x <= row_norm r.
Proof.
  intros Hx. unfold row_norm. rewrite <- sqrt_Rsqr_abs.
  apply sqrt_le_1_alt. unfold Rsqr. pose proof (sq_sum_elem r x Hx). csimpl in *. lra.
Qed.

Lemma row_norm_zero (r : list R) : row_norm r = 0 -> r = replicate (length r) 0.
Proof.
  intros H. apply sqrt_eq_0 in H; [|apply sq_sum_nonneg].
  induction r as [|x r IH]; [done|]. csimpl in *.
  pose proof (sq_sum_nonneg r). csimpl in *.
  assert (x = 0) by nra. subst x. f_equal. apply IH. nra.
Qed.

Lemma row_norm_replicate_0 (D : nat) : row_norm (replicate D 0) = 0.
Proof.
  unfold row_norm. replace (np_sum _) with 0; [apply sqrt_0|].
  induction D; csimpl in *; lra.
Qed.

Lemma row_norm_scale (r : list R) (m : R) :
  0 < m -> row_norm ((fun x => x / m) <$> r) = row_norm r / m.
Proof.
  intros Hm. unfold row_norm.
  replace (np_sum ((fun x => x ^ 2) <$> ((fun x => x / m) <$> r)))
    with (np_sum ((fun x => x ^ 2) <$> r) / (m * m)).
  - rewrite sqrt_div_alt by nra. rewrite sqrt_square by lra. done.
  - induction r as [|x r IH]; csimpl in *; [field; lra|]. rewrite <- IH. field. lra.
Qed.

Lemma foldl_Rmax_ge (l : list R) (a : R) : a <= foldl Rmax a l.
Proof.
  revert a. induction l as [|x l IH]; intros a; csimpl; [lra|].
  specialize (IH (Rmax a x)). pose proof (Rmax_l a x). lra.
Qed.

Lemma foldl_Rmax_upper (l : list R) (a x : R) : x ∈ l -> x <= foldl Rmax a l.
Proof.
  revert a. induction l as [|y l IH]; intros a Hx; [inversion Hx|].
  csimpl. apply elem_of_cons in Hx as [->|Hx]; [|by apply IH].
  pose proof (foldl_Rmax_ge l (Rmax a y)). pose proof (Rmax_r a y). lra.
Qed.

Lemma foldl_Rmax_elem (l : list R) (a : R) : foldl Rmax a l ∈ a :: l.
Proof.
  revert a. induction l as [|y l IH]; intros a; csimpl; [apply list_elem_of_here|].
  specialize (IH (Rmax a y)). apply elem_of_cons in IH as [IH|IH].
  - rewrite IH. unfold Rmax. destruct (Rle_dec a y).
    + apply list_elem_of_further, list_elem_of_here.
    + apply list_elem_of_here.
  - by do 2 apply list_elem_of_further.
Qed.

(** [np.max] returns an element of the array that bounds all the others. *)
Lemma np_max_spec (l : list R) (m : R) :
  np_max l = Some m -> m ∈ l /\ (forall x, x ∈ l -> x <= m).
Proof.
  destruct l as [|a l]; [done|]. csimpl. intros [= <-]. split.
  - apply foldl_Rmax_elem.
  - intros x [->|Hx]%elem_of_cons; [apply foldl_Rmax_ge|by apply foldl_Rmax_upper].
Qed.

Lemma np_max_is_Some (l : list R) : l <> [] -> is_Some (np_max l).
Proof. destruct l; [done|]. intros _. by eexists. Qed.

Lemma np_max_unique (l : list R) (m : R) :
  m ∈ l -> (forall x, x ∈ l -> x <= m) -> np_max l = Some m.
Proof.
  intros Hm Hub. assert (l <> []) as Hne by (intros ->; inversion Hm).
  destruct (np_max_is_Some l Hne) as [m' Hm']. rewrite Hm'. f_equal.
  apply np_max_spec in Hm' as [Hin Hub']. apply Rle_antisym; auto.
Qed.

Lemma np_max_scale (l : list R) (m M : R) :
  0 < m -> np_max l = Some M -> np_max ((fun x => x / m) <$> l) = Some (M / m).
Proof.
  intros Hm [Hin Hub]%np_max_spec. apply np_max_unique.
  - apply list_elem_of_fmap. eauto.
  - intros x (y & -> & Hy)%list_elem_of_fmap. specialize (Hub y Hy).
    apply Rmult_le_compat_r; [|done]. pose proof (Rinv_0_lt_compat m Hm). lra.
Qed.

Lemma list_eq_lt (D : nat) (l k : list R) :
  length l = D -> length k = D -> (forall j, (j < D)%nat -> l !! j = k !! j) -> l = k.
Proof.
  intros Hl Hk H. apply list_eq. intros i. destruct (decide (i < D)%nat); [auto|].
  rewrite !lookup_ge_None_2 by lia. done.
Qed.

Lemma ncols_rect (D : nat) (pc : list (list R)) : rect D pc -> pc <> [] -> ncols pc = D.
Proof. destruct 1; [done|]. done. Qed.

Lemma col_sum_length (D : nat) (pc : list (list R)) :
  rect D pc -> length (col_sum D pc) = D.
Proof.
  induction 1 as [|r pc Hr _ IH]; csimpl; [apply length_replicate|].
  rewrite length_zip_with. lia.
Qed.

Lemma col_sum_lookup (D : nat) (pc : list (list R)) (j : nat) :
  rect D pc -> (j < D)%nat -> col_sum D pc !! j = Some (np_sum (col j pc)).
Proof.
  intros Hpc Hj. induction Hpc as [|r pc Hr _ IH]; csimpl.
  - by apply lookup_replicate_2.
  - rewrite lookup_zip_with, IH.
    destruct (lookup_lt_is_Some_2 r j) as [x Hx]; [lia|]. rewrite Hx. done.
Qed.

Lemma np_mean0_length (D : nat) (pc : list (list R)) :
  rect D pc -> pc <> [] -> length (np_mean0 pc) = D.
Proof.
  intros Hpc Hne. unfold np_mean0. rewrite length_fmap, (ncols_rect D) by done.
  by apply col_sum_length.
Qed.

Lemma np_mean0_lookup (D : nat) (pc : list (list R)) (j : nat) :
  rect D pc -> pc <> [] -> (j < D)%nat ->
  np_mean0 pc !! j = Some (np_sum (col j pc) / INR (length pc)).
Proof.
  intros Hpc Hne Hj. unfold np_mean0. rewrite list_lookup_fmap, (ncols_rect D) by done.
  by rewrite col_sum_lookup.
Qed.

Lemma rect_sub_rows (D : nat) (pc : list (list R)) (c : list R) :
  rect D pc -> length c = D -> rect D (sub_rows pc c).
Proof.
  intros Hpc Hc. apply Forall_fmap. eapply Forall_impl; [exact Hpc|].
  intros r Hr. simpl in *. rewrite length_zip_with. lia.
Qed.

Lemma rect_scale_rows (D : nat) (m : R) (pc : list (list R)) :
  rect D pc -> rect D (scale_rows m pc).
Proof.
  intros Hpc. apply Forall_fmap. eapply Forall_impl; [exact Hpc|].
  intros r Hr. simpl in *. by rewrite length_fmap.
Qed.

Lemma col_sub_rows (D : nat) (pc : list (list R)) (c : list R) (j : nat) (cj : R) :
  rect D pc -> (j < D)%nat -> c !! j = Some cj ->
  np_sum (col j (sub_rows pc c)) = np_sum (col j pc) - INR (length pc) * cj.
Proof.
  intros Hpc Hj Hc. induction Hpc as [|r pc Hr _ IH].
  - csimpl. lra.
  - unfold col, sub_rows in *. rewrite !fmap_cons, length_cons, S_INR. csimpl.
    rewrite IH, lookup_zip_with, Hc.
    destruct (lookup_lt_is_Some_2 r j) as [x Hx]; [lia|]. rewrite Hx. csimpl. lra.
Qed.

Lemma col_scale_rows (m : R) (pc : list (list R)) (j : nat) :
  np_sum (col j (scale_rows m pc)) = np_sum (col j pc) / m.
Proof.
  induction pc as [|r pc IH].
  - csimpl. unfold Rdiv. lra.
  - unfold col, scale_rows in *. rewrite !fmap_cons. csimpl. rewrite IH.
    rewrite list_lookup_fmap. destruct (r !! j); csimpl; unfold Rdiv; lra.
Qed.

(** Centring moves the centroid to the origin. *)
Lemma mean_centered (D : nat) (pc : list (list R)) :
  rect D pc -> pc <> [] -> np_mean0 (sub_rows pc (np_mean0 pc)) = replicate D 0.
Proof.
  intros Hpc Hne.
  assert (length (np_mean0 pc) = D) as Hlen by by apply np_mean0_length.
  assert (rect D (sub_rows pc (np_mean0 pc))) as Hrect by by apply rect_sub_rows.
  assert (sub_rows pc (np_mean0 pc) <> []) as Hne' by by destruct pc.
  assert (0 < INR (length pc)) as HN.
  { apply lt_0_INR. destruct pc; [done|]. simpl. lia. }
  apply (list_eq_lt D); [by apply np_mean0_length|apply length_replicate|].
  intros j Hj. rewrite lookup_replicate_2 by done.
  rewrite (np_mean0_lookup D) by done. f_equal.
  rewrite (col_sub_rows D _ _ j (np_sum (col j pc) / INR (length pc)))
    by (try done; by apply (np_mean0_lookup D)).
  unfold sub_rows. rewrite length_fmap. field. lra.
Qed.

Lemma mean_scale_rows (D : nat) (m : R) (y : list (list R)) :
  rect D y -> y <> [] -> np_mean0 y = replicate D 0 ->
  np_mean0 (scale_rows m y) = replicate D 0.
Proof.
  intros Hy Hne H0.
  assert (scale_rows m y <> []) as Hne' by by destruct y.
  apply (list_eq_lt D); [apply np_mean0_length; [by apply rect_scale_rows|done]
                        |apply length_replicate|].
  intros j Hj. rewrite lookup_replicate_2 by done.
  rewrite (np_mean0_lookup D) by (try done; by apply rect_scale_rows). f_equal.
  pose proof (np_mean0_lookup D y j Hy Hne Hj) as Hj0.
  rewrite H0, lookup_replicate_2 in Hj0 by done. injection Hj0 as Hj0.
  rewrite col_scale_rows. unfold scale_rows. rewrite length_fmap.
  unfold Rdiv in *. rewrite Rmult_assoc, (Rmult_comm (/ m)), <- Rmult_assoc, <- Hj0. lra.
Qed.

Lemma sub_rows_zero (D : nat) (y : list (list R)) :
  rect D y -> sub_rows y (replicate D 0) = y.
Proof.
  induction 1 as [|r y Hr _ IH]; [done|]. unfold sub_rows in *. rewrite fmap_cons, IH.
  f_equal. clear IH. subst D. induction r as [|x r IHr]; csimpl; [done|].
  rewrite IHr. f_equal. lra.
Qed.

End ArrayFacts.

(** ** Normalisation *)

Section NormalisationFacts.
Local Open Scope R_scope.

Lemma np_div_nonzero (x m : R) : m <> 0 -> np_div x m = Fin (x / m).
Proof. intros Hm. unfold np_div. by rewrite decide_False. Qed.

Lemma np_div_rows_nonzero (m : R) (pc : list (list R)) :
  m <> 0 ->
  (fun r : list R => (fun x => np_div x m) <$> r) <$> pc = lift (scale_rows m pc).
Proof.
  intros Hm. unfold lift, scale_rows. rewrite <- list_fmap_compose.
  apply list_fmap_ext. intros _ r _. simpl. rewrite <- list_fmap_compose.
  apply list_fmap_ext. intros _ x _. simpl. by apply np_div_nonzero.
Qed.

Lemma scale_rows_1 (pc : list (list R)) : scale_rows 1 pc = pc.
Proof.
  unfold scale_rows. rewrite <- (list_fmap_id pc) at 2.
  apply list_fmap_ext. intros _ r _. simpl. rewrite <- (list_fmap_id r) at 2.
  apply list_fmap_ext. intros _ x _. simpl. lra.
Qed.

Lemma zip_minus_zero (r c : list R) :
  length r = length c -> zip_with Rminus r c = replicate (length r) 0 -> r = c.
Proof.
  revert c. induction r as [|x r IH]; intros [|y c] Hlen H; try done.
  simpl in *. injection H as Hxy H. f_equal; [lra|]. apply IH; [lia|done].
Qed.

Lemma max_norm_scale (m M : R) (pc : list (list R)) :
  0 < m -> np_max (row_norm <$> pc) = Some M ->
  np_max (row_norm <$> scale_rows m pc) = Some (M / m).
Proof.
  intros Hm HM. apply (np_max_scale _ m) in HM; [|done]. rewrite <- HM. f_equal.
  unfold scale_rows. rewrite <- !list_fmap_compose. apply list_fmap_ext.
  intros _ r _. simpl. by apply row_norm_scale.
Qed.

(** A cloud with two distinct points has a positive largest centred norm. *)
Lemma max_norm_pos (D : nat) (pc : list (list R)) (m : R) :
  rect D pc -> nondegenerate pc ->
  np_max (row_norm <$> sub_rows pc (np_mean0 pc)) = Some m -> 0 < m.
Proof.
  intros Hpc (r1 & r2 & H1 & H2 & Hne) [Hin Hub]%np_max_spec.
  assert (pc <> []) as Hnil by (intros ->; inversion H1).
  pose proof (np_mean0_length D pc Hpc Hnil) as Hc.
  assert (0 <= m) as Hm0.
  { apply list_elem_of_fmap in Hin as (r & -> & _). apply row_norm_nonneg. }
  destruct (Rle_lt_or_eq_dec 0 m Hm0) as [|Heq]; [done|]. exfalso. subst m.
  assert (forall r, r ∈ pc -> r = np_mean0 pc) as Hall.
  { intros r Hr. pose proof (proj1 (Forall_forall _ _) Hpc r Hr) as Hlen. simpl in Hlen.
    apply zip_minus_zero; [lia|].
    assert (row_norm (zip_with Rminus r (np_mean0 pc)) = 0) as H0.
    { apply Rle_antisym; [|apply row_norm_nonneg]. apply Hub.
      apply list_elem_of_fmap. eexists. split; [done|].
      unfold sub_rows. apply list_elem_of_fmap. eauto. }
    apply row_norm_zero in H0. rewrite H0. f_equal. rewrite length_zip_with. lia. }
  apply Hne. by rewrite (Hall r1), (Hall r2).
Qed.

(** What [pc_normalize] computes on a cloud that is not degenerate. *)
Lemma pc_normalize_nondegenerate (D : nat) (pc : list (list R)) :
  rect D pc -> nondegenerate pc ->
  exists (y : list (list R)) (m : R),
    np_max (row_norm <$> sub_rows pc (np_mean0 pc)) = Some m /\ 0 < m /\
    y = scale_rows m (sub_rows pc (np_mean0 pc)) /\
    pc_normalize pc = Some (lift y) /\
    rect D y /\ y <> [] /\
    np_mean0 y = replicate D 0 /\
    np_max (row_norm <$> y) = Some 1.
Proof.
  intros Hpc Hnd.
  assert (pc <> []) as Hnil by (destruct Hnd as (r1 & _ & H1 & _); intros ->; inversion H1).
  pose proof (np_mean0_length D pc Hpc Hnil) as Hc.
  pose proof (rect_sub_rows D pc _ Hpc Hc) as Hrect.
  assert (sub_rows pc (np_mean0 pc) <> []) as Hnil' by by destruct pc.
  destruct (np_max_is_Some (row_norm <$> sub_rows pc (np_mean0 pc))) as [m Hm].
  { by destruct (sub_rows pc (np_mean0 pc)). }
  pose proof (max_norm_pos D pc m Hpc Hnd Hm) as Hpos.
  exists (scale_rows m (sub_rows pc (np_mean0 pc))), m.
  split_and!; try done.
  - unfold pc_normalize. simpl. rewrite Hm. simpl. f_equal.
    apply np_div_rows_nonzero. lra.
  - by apply rect_scale_rows.
  - by destruct (sub_rows pc (np_mean0 pc)).
  - apply mean_scale_rows; [done..|]. by apply mean_centered.
  - rewrite (max_norm_scale m m) by done. f_equal. field. lra.
Qed.

(** A cloud centred at the origin with largest norm 1 is a fixed point. *)
Lemma pc_normalize_fixed (D : nat) (y : list (list R)) :
  rect D y -> y <> [] -> np_mean0 y = replicate D 0 ->
  np_max (row_norm <$> y) = Some 1 ->
  pc_normalize y = Some (lift y) /\ normalize_pc y = Some (lift y).
Proof.
  intros Hy Hne H0 H1. unfold pc_normalize, normalize_pc. simpl.
  rewrite H0, (sub_rows_zero D) by done. rewrite H1. simpl.
  rewrite bool_decide_eq_false_2 by lra.
  rewrite np_div_rows_nonzero, scale_rows_1 by lra. done.
Qed.

Lemma np_sum_replicate (N : nat) (x : R) : np_sum (replicate N x) = INR N * x.
Proof. induction N as [|N IH]; [simpl; lra|]. rewrite S_INR. csimpl. rewrite IH. lra. Qed.

Lemma mean_replicate (N : nat) (p : list R) :
  (0 < N)%nat -> np_mean0 (replicate N p) = p.
Proof.
  intros HN. assert (rect (length p) (replicate N p)) as Hrect by by apply Forall_replicate.
  assert (replicate N p <> []) as Hne by (destruct N; [lia|done]).
  apply (list_eq_lt (length p)); [by apply np_mean0_length|done|].
  intros j Hj. rewrite (np_mean0_lookup (length p)) by done.
  destruct (lookup_lt_is_Some_2 p j Hj) as [x Hx]. rewrite Hx. f_equal.
  unfold col. rewrite fmap_replicate, np_sum_replicate, length_replicate, Hx. simpl.
  field. apply not_0_INR. lia.
Qed.

Lemma zip_minus_self (p : list R) : zip_with Rminus p p = replicate (length p) 0.
Proof. induction p as [|x p IH]; [done|]. csimpl. rewrite IH. f_equal. lra. Qed.

Lemma np_max_replicate (N : nat) (x : R) : (0 < N)%nat -> np_max (replicate N x) = Some x.
Proof.
  intros HN. apply np_max_unique.
  - destruct N; [lia|]. apply list_elem_of_here.
  - intros y ->%elem_of_replicate_inv. lra.
Qed.

(** The centred form of a cloud whose points all coincide. *)
Lemma centred_coincident (N : nat) (p : list R) :
  (0 < N)%nat ->
  sub_rows (replicate N p) (np_mean0 (replicate N p))
  = replicate N (replicate (length p) 0) /\
  np_max (row_norm <$> replicate N (replicate (length p) 0)) = Some 0.
Proof.
  intros HN. split.
  - rewrite mean_replicate by done. unfold sub_rows.
    by rewrite fmap_replicate, zip_minus_self.
  - rewrite fmap_replicate, row_norm_replicate_0. by apply np_max_replicate.
Qed.

Lemma zeros_like_rect (D : nat) (pc : list (list R)) :
  rect D pc -> zeros_like pc = lift (replicate (length pc) (replicate D 0)).
Proof.
  induction 1 as [|r pc Hr _ IH]; [done|]. unfold zeros_like, lift in *.
  csimpl. rewrite IH. f_equal. subst D. clear. induction r as [|x r IH]; [done|].
  csimpl. by rewrite IH.
Qed.

(** The guard of [normalize_pc]: below the threshold the result is the
    all-zero cloud of the same shape, and nothing is divided. *)
Lemma normalize_pc_guard (D : nat) (pc : list (list R)) (m : R) :
  rect D pc -> pc <> [] ->
  np_max (row_norm <$> sub_rows pc (np_mean0 pc)) = Some m -> m < 1e-6 ->
  normalize_pc pc = Some (lift (replicate (length pc) (replicate D 0))).
Proof.
  intros Hpc Hne Hm Hlt. unfold normalize_pc. simpl. rewrite Hm. simpl.
  rewrite bool_decide_eq_true_2 by done. f_equal.
  rewrite (zeros_like_rect D).
  - unfold sub_rows. by rewrite length_fmap.
  - apply rect_sub_rows; [done|]. by apply np_mean0_length.
Qed.

(** [normalize_pc] never raises on a cloud with at least one point. *)
Lemma normalize_pc_total (pc : list (list R)) : pc <> [] -> is_Some (normalize_pc pc).
Proof.
  intros Hne. unfold normalize_pc. simpl.
  destruct (np_max_is_Some (row_norm <$> sub_rows pc (np_mean0 pc))) as [m Hm].
  { by destruct pc. }
  rewrite Hm. simpl. case_bool_decide; by eexists.
Qed.

(** The all-zero cloud is a fixed point of the guarded variant. *)
Lemma normalize_pc_zero (N D : nat) :
  (0 < N)%nat ->
  normalize_pc (replicate N (replicate D 0))
  = Some (lift (replicate N (replicate D 0))).
Proof.
  intros HN. destruct (centred_coincident N (replicate D 0) HN) as [Hc Hm].
  rewrite length_replicate in Hc, Hm.
  rewrite (normalize_pc_guard D _ 0).
  - by rewrite length_replicate.
  - by apply Forall_replicate, length_replicate.
  - destruct N; [lia|done].
  - by rewrite Hc.
  - lra.
Qed.

(** [pc_normalize] on coincident points: every entry is [0/0]. *)
Lemma pc_normalize_coincident (N : nat) (p : list R) :
  (0 < N)%nat ->
  pc_normalize (replicate N p) = Some (replicate N (replicate (length p) NaN)).
Proof.
  intros HN. destruct (centred_coincident N p HN) as [Hc Hm].
  unfold pc_normalize. simpl. rewrite Hc, Hm. simpl. f_equal.
  rewrite !fmap_replicate. unfold np_div. by rewrite !decide_True.
Qed.

(** [normalize_pc] on coincident points: the all-zero cloud. *)
Lemma normalize_pc_coincident (N : nat) (p : list R) :
  (0 < N)%nat ->
  normalize_pc (replicate N p)
  = Some (lift (replicate N (replicate (length p) 0))).
Proof.
  intros HN. destruct (centred_coincident N p HN) as [Hc Hm].
  rewrite (normalize_pc_guard (length p) _ 0).
  - by rewrite length_replicate.
  - by apply Forall_replicate.
  - destruct N; [lia|done].
  - by rewrite Hc.
  - lra.
Qed.

(** Below the threshold but not coincident: [pc_normalize] still scales the
    cloud to largest norm 1, where [normalize_pc] returns the all-zero cloud. *)
Lemma pc_normalize_below_threshold (D : nat) (pc : list (list R)) (m : R) :
  rect D pc -> nondegenerate pc ->
  np_max (row_norm <$> sub_rows pc (np_mean0 pc)) = Some m -> m < 1e-6 ->
  (exists y, pc_normalize pc = Some (lift y) /\ np_max (row_norm <$> y) = Some 1) /\
  normalize_pc pc = Some (lift (replicate (length pc) (replicate D 0))).
Proof.
  intros Hpc Hnd Hm Hlt.
  destruct (pc_normalize_nondegenerate D pc Hpc Hnd)
    as (y & m' & _ & _ & _ & Hy & _ & _ & _ & Hmax).
  split; [by exists y|].
  apply (normalize_pc_guard D pc m); try done.
  destruct Hnd as (r1 & _ & H1 & _). intros ->. inversion H1.
Qed.

(** C1 (evaluation at the failing input).  On the single-point cloud
    [[1, 2, 3]], whose centred maximum norm is 0, [pc_normalize] divides 0 by 0
    and returns an all-NaN cloud, whereas [normalize_pc] returns the all-zero
    cloud; neither raises. *)
Theorem pc_normalize_single_point_nan :
  np_max (row_norm <$> sub_rows [[1; 2; 3]] (np_mean0 [[1; 2; 3]])) = Some 0 /\
  pc_normalize [[1; 2; 3]] = Some [[NaN; NaN; NaN]] /\
  normalize_pc [[1; 2; 3]] = Some [[Fin 0; Fin 0; Fin 0]].
Proof.
  destruct (centred_coincident 1 [1; 2; 3]) as [Hc Hm]; [lia|].
  split_and!.
  - change [[1; 2; 3]] with (replicate 1 [1; 2; 3]). by rewrite Hc.
  - apply (pc_normalize_coincident 1 [1; 2; 3]). lia.
  - apply (normalize_pc_coincident 1 [1; 2; 3]). lia.
Qed.

(** C4.  Normalisation is idempotent in exact arithmetic: on a cloud whose
    points are not all coincident, [pc_normalize] and [normalize_pc] both
    return a real-valued cloud that they map to itself. *)
Theorem normalize_idempotent (D : nat) (pc : list (list R)) :
  rect D pc -> nondegenerate pc ->
  (exists y, pc_normalize pc = Some (lift y) /\ pc_normalize y = Some (lift y)) /\
  (exists y, normalize_pc pc = Some (lift y) /\ normalize_pc y = Some (lift y)).
Proof.
  intros Hpc Hnd.
  destruct (pc_normalize_nondegenerate D pc Hpc Hnd)
    as (y & m & Hm & Hpos & Hy & Hnorm & Hrect & Hne & Hmean & Hmax).
  destruct (pc_normalize_fixed D y Hrect Hne Hmean Hmax) as [Hfix1 Hfix2].
  split; [by exists y|].
  assert (pc <> []) as Hnil by (destruct Hnd as (r1 & _ & H1 & _); intros ->; inversion H1).
  destruct (decide (m < 1e-6)) as [Hlt|Hge].
  - exists (replicate (length pc) (replicate D 0)). split.
    + by apply (normalize_pc_guard D pc m).
    + apply normalize_pc_zero. destruct pc; [done|]. simpl. lia.
  - exists y. split; [|done]. unfold normalize_pc. simpl. rewrite Hm. simpl.
    rewrite bool_decide_eq_false_2 by done.
    rewrite np_div_rows_nonzero by lra. by rewrite Hy.
Qed.

Lemma normalize_idempotent_witness :
  rect 3 [[0; 0; 0]; [2; 0; 0]] /\ nondegenerate [[0; 0; 0]; [2; 0; 0]] /\
  ((exists y, pc_normalize [[0; 0; 0]; [2; 0; 0]] = Some (lift y)
              /\ pc_normalize y = Some (lift y)) /\
   (exists y, normalize_pc [[0; 0; 0]; [2; 0; 0]] = Some (lift y)
              /\ normalize_pc y = Some (lift y))).
Proof.
  assert (rect 3 [[0; 0; 0]; [2; 0; 0]]) as Hrect by (repeat constructor).
  assert (nondegenerate [[0; 0; 0]; [2; 0; 0]]) as Hnd.
  { exists [0; 0; 0], [2; 0; 0]. split_and!.
    - apply list_elem_of_here.
    - apply list_elem_of_further, list_elem_of_here.
    - intros [= H]. lra. }
  split; [done|]. split; [done|]. exact (normalize_idempotent 3 _ Hrect Hnd).
Defined.

(** C10.  On a cloud whose points are not all coincident, the output of
    [pc_normalize] is real-valued, has centroid zero and largest point norm
    exactly 1, and every coordinate lies in [-1, 1]. *)
Theorem pc_normalize_unit_ball (D : nat) (pc : list (list R)) :
  rect D pc -> nondegenerate pc ->
  exists y, pc_normalize pc = Some (lift y) /\
    np_mean0 y = replicate D 0 /\
    np_max (row_norm <$> y) = Some 1 /\
    (forall r x, r ∈ y -> x ∈ r -> -1 <= x <= 1).
Proof.
  intros Hpc Hnd.
  destruct (pc_normalize_nondegenerate D pc Hpc Hnd)
    as (y & m & Hm & Hpos & Hy & Hnorm & Hrect & Hne & Hmean & Hmax).
  exists y. split_and!; try done.
  apply np_max_spec in Hmax as [_ Hub].
  intros r x Hr Hx. pose proof (abs_le_row_norm r x Hx) as Habs.
  assert (row_norm r <= 1) as Hle by (apply Hub; by apply list_elem_of_fmap_2).
  unfold Rabs in Habs. destruct (Rcase_abs x); lra.
Qed.

Lemma pc_normalize_unit_ball_witness :
  rect 3 [[0; 0; 0]; [2; 0; 0]] /\ nondegenerate [[0; 0; 0]; [2; 0; 0]] /\
  exists y, pc_normalize [[0; 0; 0]; [2; 0; 0]] = Some (lift y) /\
    np_mean0 y = replicate 3 0 /\
    np_max (row_norm <$> y) = Some 1 /\
    (forall r x, r ∈ y -> x ∈ r -> -1 <= x <= 1).
Proof.
  assert (rect 3 [[0; 0; 0]; [2; 0; 0]]) as Hrect by (repeat constructor).
  assert (nondegenerate [[0; 0; 0]; [2; 0; 0]]) as Hnd.
  { exists [0; 0; 0], [2; 0; 0]. split_and!.
    - apply list_elem_of_here.
    - apply list_elem_of_further, list_elem_of_here.
    - intros [= H]. lra. }
  split; [done|]. split; [done|]. exact (pc_normalize_unit_ball 3 _ Hrect Hnd).
Defined.

End NormalisationFacts.

(** ** Farthest-point sampling: the loop on values *)

Section SamplingFacts.
Local Open Scope R_scope.

Lemma argmax_from_spec (l : list R) :
  forall (i best : nat) (bv : R),
    let j := argmax_from i best bv l in
    (j = best /\ forall k x, l !! k = Some x -> x <= bv) \/
    (exists v, (i <= j)%nat /\ l !! (j - i)%nat = Some v /\ bv < v /\
       forall k x, l !! k = Some x -> x <= v /\ ((k < j - i)%nat -> x < v)).
Proof.
  induction l as [|x l IH]; intros i best bv; simpl.
  - left. split; [done|]. intros k y Hk. by rewrite lookup_nil in Hk.
  - destruct (decide (bv < x)) as [Hlt|Hge].
    + right. destruct (IH (S i) i x) as [[Hj Hall]|(v & Hij & Hv & Hxv & Hall)].
      * exists x. rewrite Hj, Nat.sub_diag. split_and!; [lia|done|done|].
        intros [|k] y Hk; simpl in Hk.
        -- injection Hk as <-. split; [lra|lia].
        -- split; [by eapply Hall|lia].
      * exists v. split_and!; [lia| |lra|].
        -- replace (argmax_from (S i) i x l - i)%nat
             with (S (argmax_from (S i) i x l - S i)) by lia. done.
        -- intros [|k] y Hk; simpl in Hk.
           ++ injection Hk as <-. split; [lra|]. intros _. lra.
           ++ destruct (Hall k y Hk) as [H1 H2]. split; [done|]. intros ?. apply H2. lia.
    + destruct (IH (S i) best bv) as [[Hj Hall]|(v & Hij & Hv & Hxv & Hall)].
      * left. split; [done|]. intros [|k] y Hk; simpl in Hk.
        -- injection Hk as <-. lra.
        -- by eapply Hall.
      * right. exists v. split_and!; [lia| |done|].
        -- replace (argmax_from (S i) best bv l - i)%nat
             with (S (argmax_from (S i) best bv l - S i)) by lia. done.
        -- intros [|k] y Hk; simpl in Hk.
           ++ injection Hk as <-. split; [lra|]. intros _. lra.
           ++ destruct (Hall k y Hk) as [H1 H2]. split; [done|]. intros ?. apply H2. lia.
Qed.

(** [np.argmax] returns the first index of the largest entry. *)
Lemma np_argmax_spec (l : list R) (j : nat) :
  np_argmax l = Some j -> first_argmax (fun k => default 0 (l !! k)) (length l) j.
Proof.
  destruct l as [|x l]; [done|]. simpl. intros [= <-].
  destruct (argmax_from_spec l 1 0 x) as [[Hj Hall]|(v & Hij & Hv & Hxv & Hall)].
  - rewrite Hj. split; [simpl; lia|]. intros [|k] Hk; simpl.
    + split; [lra|lia].
    + split; [|lia]. simpl in Hk.
      destruct (lookup_lt_is_Some_2 l k) as [y Hy]; [lia|]. rewrite Hy. simpl. by eapply Hall.
  - remember (argmax_from 1 0 x l) as j eqn:Ej. clear Ej.
    destruct j as [|j]; [lia|]. replace (S j - 1)%nat with j in * by lia.
    split; [apply lookup_lt_Some in Hv; simpl; lia|].
    intros [|k] Hk; simpl; rewrite Hv; simpl.
    + split; [lra|]. intros _. lra.
    + simpl in Hk. destruct (lookup_lt_is_Some_2 l k) as [y Hy]; [lia|]. rewrite Hy. simpl.
      destruct (Hall k y Hy) as [H1 H2]. split; [done|]. intros ?. apply H2. lia.
Qed.

Lemma np_argmax_is_Some (l : list R) : l <> [] -> is_Some (np_argmax l).
Proof. destruct l; [done|]. intros _. by eexists. Qed.

Lemma assign_where_length (distance dist : list R) :
  length dist = length distance ->
  length (assign_where distance (np_less dist distance) dist) = length distance.
Proof.
  intros H. unfold assign_where, np_less.
  rewrite length_zip_with, length_zip, length_zip_with. lia.
Qed.

Lemma assign_where_lookup (distance dist : list R) (k : nat) (d x : R) :
  distance !! k = Some d -> dist !! k = Some x ->
  assign_where distance (np_less dist distance) dist !! k
  = Some (if decide (x < d) then x else d).
Proof.
  intros Hd Hx. unfold assign_where, np_less.
  assert (zip distance (zip_with (fun x d => bool_decide (x < d)) dist distance) !! k
          = Some (d, bool_decide (x < d))) as Hz.
  { apply lookup_zip_Some. split; [done|]. rewrite lookup_zip_with, Hx. simpl. by rewrite Hd. }
  rewrite lookup_zip_with, Hz. simpl. rewrite Hx. simpl.
  by destruct (decide (x < d)); [rewrite bool_decide_eq_true_2|rewrite bool_decide_eq_false_2].
Qed.

Lemma sq_dists_length (xyz : list (list R)) (c : list R) :
  length (sq_dists xyz c) = length xyz.
Proof. unfold sq_dists. by rewrite length_fmap. Qed.

Lemma sq_dists_lookup (a : list (list R)) (k f : nat) (p c : list R) :
  a !! k = Some p -> a !! f = Some c ->
  sq_dists (take 3 <$> a) (take 3 c) !! k = Some (sqdist3 a k f).
Proof.
  intros Hk Hf. unfold sq_dists, sqdist3.
  rewrite !list_lookup_fmap, Hk, Hf. done.
Qed.

Lemma first_argmax_ext (f g : nat -> R) (N j : nat) :
  (forall k, (k < N)%nat -> f k = g k) -> first_argmax f N j -> first_argmax g N j.
Proof.
  intros Hfg [Hj H]. split; [done|]. intros k Hk.
  rewrite <- !Hfg by done. by apply H.
Qed.

Lemma dist_to_set_snoc (a : list (list R)) (sel : list nat) (f k : nat) :
  sel <> [] ->
  dist_to_set a (sel ++ [f]) k = Rmin (dist_to_set a sel k) (sqdist3 a k f).
Proof.
  destruct sel as [|s sel]; [done|]. intros _. simpl.
  by rewrite fmap_app, foldl_app.
Qed.

Lemma fps_step_total (a : list (list R)) (d : list R) (f : nat) :
  length d = length a -> (f < length a)%nat ->
  exists d' far', fps_step (take 3 <$> a) d f = Some (d', far') /\
    length d' = length a /\ (far' < length a)%nat.
Proof.
  intros Hd Hf. unfold fps_step.
  destruct (lookup_lt_is_Some_2 a f Hf) as [c Hc].
  rewrite list_lookup_fmap, Hc. simpl.
  set (d' := assign_where d _ _).
  assert (length d' = length a) as Hlen.
  { unfold d'. rewrite assign_where_length; [done|].
    by rewrite sq_dists_length, length_fmap. }
  destruct (np_argmax_is_Some d') as [far' Hfar].
  { intros E. rewrite E in Hlen. simpl in Hlen. lia. }
  rewrite Hfar. simpl. exists d', far'. split_and!; [done|done|].
  apply np_argmax_spec in Hfar as [Hlt _]. lia.
Qed.

Lemma fps_indices_total (a : list (list R)) (n : nat) :
  forall (d : list R) (f : nat),
    length d = length a -> (f < length a)%nat ->
    exists idxs, fps_indices (take 3 <$> a) n d f = Some idxs /\
      length idxs = n /\ Forall (fun i => (i < length a)%nat) idxs.
Proof.
  induction n as [|n IH]; intros d f Hd Hf; simpl.
  - by exists [].
  - destruct (fps_step_total a d f Hd Hf) as (d' & far' & Hstep & Hd' & Hfar).
    rewrite Hstep. simpl. destruct (IH d' far' Hd' Hfar) as (rest & Hrest & Hlen & Hall).
    rewrite Hrest. simpl. exists (f :: rest). split_and!; [done|by rewrite <- Hlen|].
    by constructor.
Qed.

Lemma fps_indices_head (xyz : list (list R)) (n : nat) (d : list R) (f j : nat)
    (idxs : list nat) :
  fps_indices xyz n d f = Some idxs -> idxs !! 0%nat = Some j -> j = f.
Proof.
  destruct n as [|n]; simpl.
  - intros [= <-]. done.
  - destruct (fps_step xyz d f) as [df|]; [|done]. simpl.
    destruct (fps_indices xyz n df.1 df.2); [|done]. simpl.
    intros [= <-]. simpl. by intros [= <-].
Qed.

(** One pass keeps [distance] equal to the distance to the selected set and
    leaves in [farthest] the first point farthest from that set. *)
Lemma fps_step_inv (a : list (list R)) (sel : list nat) (d : list R) (f : nat) :
  bounded a -> fps_inv a sel d -> (f < length a)%nat ->
  exists d' far', fps_step (take 3 <$> a) d f = Some (d', far') /\
    fps_inv a (sel ++ [f]) d' /\
    first_argmax (dist_to_set a (sel ++ [f])) (length a) far'.
Proof.
  intros Hb [Hd Hinv] Hf.
  destruct (fps_step_total a d f Hd Hf) as (d' & far' & Hstep & Hd' & Hfar).
  exists d', far'. split; [done|].
  unfold fps_step in Hstep.
  destruct (lookup_lt_is_Some_2 a f Hf) as [c Hc].
  rewrite list_lookup_fmap, Hc in Hstep. simpl in Hstep.
  destruct (np_argmax _) as [j|] eqn:Harg; [|done]. simpl in Hstep.
  injection Hstep as Hd'eq Hj. subst j.
  assert (forall k, (k < length a)%nat -> d' !! k = Some (dist_to_set a (sel ++ [f]) k)) as Hnew.
  { intros k Hk. destruct (lookup_lt_is_Some_2 a k Hk) as [p Hp].
    rewrite <- Hd'eq.
    rewrite (assign_where_lookup _ _ k _ (sqdist3 a k f) (Hinv k Hk))
      by (by eapply sq_dists_lookup).
    f_equal. destruct sel as [|s sel].
    - simpl. rewrite decide_True; [done|]. specialize (Hb k f Hk Hf). lra.
    - rewrite dist_to_set_snoc by done. unfold Rmin.
      destruct (decide _), (Rle_dec _ _); lra. }
  split.
  - split; [done|]. intros k Hk. rewrite (Hnew k Hk). by destruct sel.
  - rewrite Hd'eq in Harg. apply np_argmax_spec in Harg. rewrite Hd' in Harg.
    eapply first_argmax_ext; [|exact Harg].
    intros k Hk. simpl. by rewrite (Hnew k Hk).
Qed.

(** The indices written by the loop obey the greedy law relative to the
    points [sel] selected before it was entered. *)
Lemma fps_indices_greedy (a : list (list R)) (n : nat) :
  bounded a ->
  forall (sel : list nat) (d : list R) (f : nat) (idxs : list nat),
    fps_inv a sel d -> (f < length a)%nat ->
    fps_indices (take 3 <$> a) n d f = Some idxs ->
    forall i j, idxs !! S i = Some j ->
      first_argmax (dist_to_set a (sel ++ take (S i) idxs)) (length a) j.
Proof.
  intros Hb. induction n as [|n IH]; intros sel d f idxs Hinv Hf Hrun i j Hij.
  - simpl in Hrun. injection Hrun as <-. done.
  - simpl in Hrun.
    destruct (fps_step_inv a sel d f Hb Hinv Hf) as (d' & far' & Hstep & Hinv' & Hfar).
    rewrite Hstep in Hrun. simpl in Hrun.
    destruct (fps_indices _ n d' far') as [rest|] eqn:Hrest; [|done]. simpl in Hrun.
    injection Hrun as <-. simpl in Hij.
    assert ((far' < length a)%nat) as Hfar' by apply Hfar.
    destruct i as [|i].
    + pose proof (fps_indices_head _ _ _ _ _ _ Hrest Hij) as ->. done.
    + pose proof (IH (sel ++ [f]) d' far' rest Hinv' Hfar' Hrest i j Hij) as H.
      by rewrite <- app_assoc in H.
Qed.

Lemma fps_inv_init (a : list (list R)) :
  fps_inv a [] ((fun x => x * 1e10) <$> replicate (length a) 1).
Proof.
  split; [by rewrite length_fmap, length_replicate|].
  intros k Hk. by rewrite list_lookup_fmap, lookup_replicate_2.
Qed.

End SamplingFacts.

(** ** The store *)

Section StoreFacts.
Context {G : Type} `{!RandomState G}.
Local Open Scope R_scope.

Lemma bind_Some {A B} (m : M G A) (k : A -> M G B) (w w' : world G) (a : A) :
  m w = (Some a, w') -> bind m k w = k a w'.
Proof. intros H. unfold bind. by rewrite H. Qed.

Lemma bind_None {A B} (m : M G A) (k : A -> M G B) (w w' : world G) :
  m w = (None, w') -> bind m k w = (None, w').
Proof. intros H. unfold bind. by rewrite H. Qed.

Lemma load1_Some (w : world G) (l : nat) (v : list R) :
  mem w !! l = Some (Float1 v) -> load1 l w = (Some v, w).
Proof. intros H. unfold load1, bind, load. by rewrite H. Qed.

Lemma load2_Some (w : world G) (l : nat) (a : list (list R)) :
  mem w !! l = Some (Float2 a) -> load2 l w = (Some a, w).
Proof. intros H. unfold load2, bind, load. by rewrite H. Qed.

Lemma store_Some (w : world G) (l : nat) (a b : ndarray) :
  mem w !! l = Some b -> store l a w = (Some tt, set_mem (<[l := a]> (mem w)) w).
Proof. intros H. unfold store. by rewrite H. Qed.

Lemma store_at_Some (w : world G) (l i : nat) (x : R) (v : list R) :
  mem w !! l = Some (Float1 v) -> (i < length v)%nat ->
  store_at l i x w = (Some tt, set_mem (<[l := Float1 (<[i := x]> v)]> (mem w)) w).
Proof.
  intros H Hi. unfold store_at. rewrite (bind_Some _ _ w w v) by by apply load1_Some.
  rewrite decide_True by done. by eapply store_Some.
Qed.

(** The loop of [farthest_point_sample] writes to [centroids] the indices
    computed by [fps_indices] and touches nothing but [centroids] and
    [distance]. *)
Lemma fps_loop_run (a : list (list R)) (point centroids distance : nat) :
  point <> centroids -> point <> distance -> centroids <> distance ->
  forall (n i f : nat) (cs d : list R) (w : world G) (idxs : list nat),
    mem w !! point = Some (Float2 a) ->
    mem w !! centroids = Some (Float1 cs) ->
    mem w !! distance = Some (Float1 d) ->
    (i + n <= length cs)%nat ->
    fps_indices (take 3 <$> a) n d f = Some idxs ->
    exists far' d' w',
      for_in (seq i n) (fps_body point centroids distance) f w = (Some far', w') /\
      mem w' !! centroids
        = Some (Float1 (take i cs ++ (INR <$> idxs) ++ drop (i + n) cs)) /\
      mem w' !! distance = Some (Float1 d') /\
      (forall l, l <> centroids -> l <> distance -> mem w' !! l = mem w !! l) /\
      np_random_global w' = np_random_global w.
Proof.
  intros Hpc Hpd Hcd. induction n as [|n IH]; intros i f cs d w idxs Hp Hc Hd Hlen Hrun.
  - simpl in Hrun. injection Hrun as <-. exists f, d, w. simpl.
    rewrite Nat.add_0_r, take_drop. done.
  - simpl in Hrun.
    destruct (fps_step _ d f) as [[d' far']|] eqn:Hstep; [|done]. simpl in Hrun.
    destruct (fps_indices _ n d' far') as [rest|] eqn:Hrest; [|done]. simpl in Hrun.
    injection Hrun as <-.
    unfold fps_step in Hstep.
    destruct ((take 3 <$> a) !! f) as [c|] eqn:Hcen; [|done]. simpl in Hstep.
    destruct (np_argmax _) as [j|] eqn:Harg; [|done]. simpl in Hstep.
    injection Hstep as Hd' Hj. subst j.
    set (w1 := set_mem (<[centroids := Float1 (<[i := INR f]> cs)]> (mem w)) w).
    set (w2 := set_mem (<[distance := Float1 d']> (mem w1)) w1).
    assert (fps_body point centroids distance i f w = (Some far', w2)) as Hbody.
    { unfold fps_body.
      rewrite (bind_Some _ _ w w1 tt) by (apply store_at_Some; [done|lia]).
      rewrite (bind_Some _ _ w1 w1 a)
        by (apply load2_Some; simpl; by rewrite lookup_insert_ne).
      rewrite (bind_Some _ _ w1 w1 c) by (unfold lift_opt; by rewrite Hcen).
      rewrite (bind_Some _ _ w1 w1 d)
        by (apply load1_Some; simpl; by rewrite lookup_insert_ne).
      rewrite (bind_Some _ _ w1 w2 tt).
      2:{ unfold w2. rewrite <- Hd'. eapply store_Some. simpl.
          rewrite lookup_insert_ne by done. exact Hd. }
      rewrite (bind_Some _ _ w2 w2 d')
        by (apply load1_Some; simpl; by rewrite lookup_insert_eq).
      unfold lift_opt. rewrite <- Hd'. by rewrite Harg. }
    destruct (IH (S i) far' (<[i := INR f]> cs) d' w2 rest)
      as (far'' & d'' & w' & Hfor & Hcs' & Hds' & Hother & Hrng).
    + simpl. rewrite lookup_insert_ne by done. by rewrite lookup_insert_ne.
    + simpl. rewrite lookup_insert_ne by done. by rewrite lookup_insert_eq.
    + simpl. by rewrite lookup_insert_eq.
    + rewrite length_insert. lia.
    + done.
    + exists far'', d'', w'. split_and!.
      * simpl. by rewrite (bind_Some _ _ w w2 far').
      * rewrite Hcs'. do 2 f_equal.
        assert (i < length cs)%nat as Hi by lia.
        rewrite (take_S_r _ _ (INR f)) by (by apply list_lookup_insert_eq).
        rewrite take_insert_ge by lia. rewrite <- app_assoc. simpl. do 3 f_equal.
        rewrite drop_insert_lt by lia. f_equal. lia.
      * done.
      * intros l Hl1 Hl2. rewrite Hother by done. simpl.
        rewrite lookup_insert_ne by done. by rewrite lookup_insert_ne.
      * by rewrite Hrng.
Qed.

Lemma frame_inv_refl (w : world G) : frame_inv w w.
Proof. by intros l _. Qed.

Lemma frame_inv_dom (w0 w : world G) (l : nat) :
  frame_inv w0 w -> l ∈ dom (mem w0) -> l ∈ dom (mem w).
Proof.
  intros Hf Hl. apply elem_of_dom. rewrite (Hf l Hl). by apply elem_of_dom.
Qed.

Lemma frame_inv_fresh (w0 w : world G) :
  frame_inv w0 w -> fresh (dom (mem w)) ∉ dom (mem w0).
Proof.
  intros Hf Hin. apply (is_fresh (dom (mem w))). by eapply frame_inv_dom.
Qed.

Lemma frame_inv_insert (w0 w : world G) (l : nat) (a : ndarray) :
  frame_inv w0 w -> l ∉ dom (mem w0) ->
  frame_inv w0 (set_mem (<[l := a]> (mem w)) w).
Proof.
  intros Hf Hl k Hk. simpl. rewrite lookup_insert_ne; [by apply Hf|]. by intros ->.
Qed.

Section Safe.
Context (w0 : world G).

Lemma safe_weaken {A} (m : M G A) (Q Q' : A -> Prop) :
  (forall a, Q a -> Q' a) -> safe w0 m Q -> safe w0 m Q'.
Proof. intros HQ Hm w Hw. destruct (Hm w Hw) as [H1 H2]. split; [done|]. eauto. Qed.

Lemma safe_ret {A} (a : A) (Q : A -> Prop) : Q a -> safe w0 (ret a) Q.
Proof. intros HQ w Hw. split; [done|]. simpl. by intros _ [= <-]. Qed.

Lemma safe_raise {A} (Q : A -> Prop) : safe w0 raise Q.
Proof. intros w Hw. split; [done|]. simpl. done. Qed.

Lemma safe_lift_opt {A} (o : option A) : safe w0 (lift_opt o) (fun _ => True).
Proof. intros w Hw. split; done. Qed.

Lemma safe_bind {A B} (m : M G A) (k : A -> M G B) (Q : A -> Prop) (Q' : B -> Prop) :
  safe w0 m Q -> (forall a, Q a -> safe w0 (k a) Q') -> safe w0 (bind m k) Q'.
Proof.
  intros Hm Hk w Hw. destruct (Hm w Hw) as [H1 H2]. unfold bind.
  destruct (m w) as [[a|] w1]; simpl in *; [|done].
  by apply Hk; [apply H2|].
Qed.

Lemma safe_load (l : nat) : safe w0 (load l) (fun _ => True).
Proof. intros w Hw. split; done. Qed.

Lemma safe_load1 (l : nat) : safe w0 (load1 l) (fun _ => True).
Proof.
  eapply safe_bind; [apply safe_load|]. intros [v|a|a|v] _; solve [by apply safe_ret|apply safe_raise].
Qed.

Lemma safe_load2 (l : nat) : safe w0 (load2 l) (fun _ => True).
Proof.
  eapply safe_bind; [apply safe_load|]. intros [v|a|a|v] _; solve [by apply safe_ret|apply safe_raise].
Qed.

Lemma safe_alloc (a : ndarray) : safe w0 (alloc a) (fun l => l ∉ dom (mem w0)).
Proof.
  intros w Hw. unfold alloc. simpl. split.
  - apply frame_inv_insert; [done|]. by apply frame_inv_fresh.
  - intros l [= <-]. by apply frame_inv_fresh.
Qed.

Lemma safe_store (l : nat) (a : ndarray) :
  l ∉ dom (mem w0) -> safe w0 (store l a) (fun _ => True).
Proof.
  intros Hl w Hw. unfold store. destruct (mem w !! l); simpl; [|done].
  split; [|done]. by apply frame_inv_insert.
Qed.

Lemma safe_store_at (l i : nat) (x : R) :
  l ∉ dom (mem w0) -> safe w0 (store_at l i x) (fun _ => True).
Proof.
  intros Hl. eapply safe_bind; [apply safe_load1|]. intros v _.
  destruct (decide _); [by apply safe_store|apply safe_raise].
Qed.

Lemma safe_for_in {A St} (l : list A) (body : A -> St -> M G St) (s : St) :
  (forall x s, safe w0 (body x s) (fun _ => True)) ->
  safe w0 (for_in l body s) (fun _ => True).
Proof.
  intros Hbody. revert s. induction l as [|x l IH]; intros s; simpl.
  - by apply safe_ret.
  - eapply safe_bind; [apply Hbody|]. intros s' _. apply IH.
Qed.

Lemma safe_np_random_randint (low high : nat) :
  safe w0 (np_random_randint low high) (fun _ => True).
Proof.
  intros w Hw. unfold np_random_randint. destruct (decide _); [|done].
  destruct (randint _ _ _) as [n g]. done.
Qed.

Lemma safe_fps_body (point centroids distance i f : nat) :
  centroids ∉ dom (mem w0) -> distance ∉ dom (mem w0) ->
  safe w0 (fps_body point centroids distance i f) (fun _ => True).
Proof.
  intros Hc Hd. unfold fps_body.
  eapply safe_bind; [by apply safe_store_at|]. intros _ _.
  eapply safe_bind; [apply safe_load2|]. intros a _.
  eapply safe_bind; [apply safe_lift_opt|]. intros c _.
  eapply safe_bind; [apply safe_load1|]. intros d _.
  eapply safe_bind; [by apply safe_store|]. intros _ _.
  eapply safe_bind; [apply safe_load1|]. intros d' _.
  apply safe_lift_opt.
Qed.

(** [farthest_point_sample] writes to fresh arrays only and returns one. *)
Lemma safe_farthest_point_sample (point npoint : nat) :
  safe w0 (farthest_point_sample point npoint) (fun q => q ∉ dom (mem w0)).
Proof.
  unfold farthest_point_sample.
  eapply safe_bind; [apply safe_load2|]. intros a _.
  eapply safe_bind; [apply safe_alloc|]. intros centroids Hc.
  eapply safe_bind; [apply safe_alloc|]. intros distance Hd.
  eapply safe_bind; [apply safe_np_random_randint|]. intros f _.
  eapply safe_bind; [apply safe_for_in; intros; by apply safe_fps_body|]. intros _ _.
  eapply safe_bind; [apply safe_load1|]. intros c _.
  eapply safe_bind; [apply safe_load2|]. intros a' _.
  eapply safe_bind; [apply safe_lift_opt|]. intros rows _.
  apply safe_alloc.
Qed.

End Safe.

Lemma astype_int32_INR (n : nat) : astype_int32 (INR n) = n.
Proof. unfold astype_int32. rewrite Int_part_INR. apply Nat2Z.id. Qed.

Lemma take_rows (a : list (list R)) (idxs : list nat) :
  Forall (fun i => (i < length a)%nat) idxs ->
  mapM (fun i => a !! astype_int32 i) (INR <$> idxs)
  = Some ((fun i => default [] (a !! i)) <$> idxs).
Proof.
  intros Hall. apply mapM_Some. apply Forall2_fmap. apply Forall2_same_length_lookup_2.
  - done.
  - intros i x y Hx Hy. rewrite Hx in Hy. injection Hy as <-.
    rewrite astype_int32_INR.
    pose proof (proj1 (Forall_lookup _ _) Hall i x Hx) as Hlt. simpl in Hlt.
    destruct (lookup_lt_is_Some_2 a x Hlt) as [r Hr]. by rewrite Hr.
Qed.

(** A run of [farthest_point_sample] on an array with at least one point:
    it returns a fresh array holding the rows selected by [fps_indices]. *)
Lemma fps_run (w : world G) (point npoint : nat) (a : list (list R)) :
  mem w !! point = Some (Float2 a) -> a <> [] ->
  exists idxs q w',
    fps_indices (take 3 <$> a) npoint ((fun x => x * 1e10) <$> replicate (length a) 1)
      (randint 0 (length a) (np_random_global w)).1 = Some idxs /\
    length idxs = npoint /\
    Forall (fun i => (i < length a)%nat) idxs /\
    farthest_point_sample point npoint w = (Some q, w') /\
    mem w' !! q = Some (Float2 ((fun i => default [] (a !! i)) <$> idxs)).
Proof.
  intros Hp Hne.
  assert (0 < length a)%nat as HN by (destruct a; [done|simpl; lia]).
  pose proof (randint_range 0 (length a) (np_random_global w) HN) as Hstart.
  destruct (randint 0 (length a) (np_random_global w)) as [start g] eqn:Hdraw.
  simpl in Hstart.
  destruct (fps_indices_total a npoint ((fun x => x * 1e10) <$> replicate (length a) 1) start)
    as (idxs & Hidx & Hlen & Hall).
  { by rewrite length_fmap, length_replicate. }
  { lia. }
  exists idxs. simpl.
  set (c := fresh (dom (mem w))).
  set (w1 := set_mem (<[c := Float1 (replicate npoint 0)]> (mem w)) w).
  set (dl := fresh (dom (mem w1))).
  set (w2 := set_mem (<[dl := Float1 ((fun x => x * 1e10) <$> replicate (length a) 1)]>
                        (mem w1)) w1).
  set (w3 := set_np_random_global g w2).
  assert (point ∈ dom (mem w)) as Hpdom by (apply elem_of_dom; by eexists).
  assert (point <> c) as Hpc.
  { intros E. apply (is_fresh (dom (mem w))). fold c. by rewrite <- E. }
  assert (c ∈ dom (mem w1)) as Hcdom.
  { apply elem_of_dom. simpl. rewrite lookup_insert_eq. by eexists. }
  assert (point ∈ dom (mem w1)) as Hpdom1.
  { apply elem_of_dom. simpl. rewrite lookup_insert_ne by done. by eexists. }
  assert (c <> dl) as Hcd.
  { intros E. apply (is_fresh (dom (mem w1))). fold dl. by rewrite <- E. }
  assert (point <> dl) as Hpd.
  { intros E. apply (is_fresh (dom (mem w1))). fold dl. by rewrite <- E. }
  destruct (fps_loop_run a point c dl Hpc Hpd Hcd npoint 0 start (replicate npoint 0)
              ((fun x => x * 1e10) <$> replicate (length a) 1) w3 idxs)
    as (far' & d' & w4 & Hfor & Hcs & Hds & Hother & Hrng).
  { simpl. rewrite lookup_insert_ne by done. by rewrite lookup_insert_ne. }
  { simpl. rewrite lookup_insert_ne by done. by rewrite lookup_insert_eq. }
  { simpl. by rewrite lookup_insert_eq. }
  { rewrite length_replicate. lia. }
  { done. }
  rewrite (drop_ge (replicate npoint 0)) in Hcs by (rewrite length_replicate; lia).
  simpl in Hcs. rewrite app_nil_r in Hcs.
  assert (mem w4 !! point = Some (Float2 a)) as Hp4.
  { rewrite Hother by done. simpl. rewrite lookup_insert_ne by done.
    by rewrite lookup_insert_ne. }
  set (rows := (fun i => default [] (a !! i)) <$> idxs).
  exists (fresh (dom (mem w4))), (set_mem (<[fresh (dom (mem w4)) := Float2 rows]> (mem w4)) w4).
  split_and!; [done..| |simpl; by rewrite lookup_insert_eq].
  unfold farthest_point_sample.
  rewrite (bind_Some _ _ w w a) by by apply load2_Some.
  rewrite (bind_Some _ _ w w1 c) by done.
  rewrite (bind_Some _ _ w1 w2 dl) by done.
  rewrite (bind_Some _ _ w2 w3 start).
  2:{ unfold np_random_randint. rewrite decide_True by done. simpl.
      by rewrite Hdraw. }
  rewrite (bind_Some _ _ w3 w4 far') by done.
  rewrite (bind_Some _ _ w4 w4 (INR <$> idxs)) by by apply load1_Some.
  rewrite (bind_Some _ _ w4 w4 a) by by apply load2_Some.
  rewrite (bind_Some _ _ w4 w4 rows) by (unfold lift_opt; by rewrite take_rows).
  done.
Qed.

End StoreFacts.

(** ** Farthest-point sampling: the claims *)

Section SamplingClaims.
Context {G : Type} `{!RandomState G}.
Local Open Scope R_scope.


(** C8.  [farthest_point_sample] never mutates its input: whatever the
    arguments, and whether it returns or raises, every array that existed
    before the call (the caller's point array among them) holds afterwards
    what it held before, and the returned array is a fresh one. *)
Theorem farthest_point_sample_frame (w : world G) (point npoint : nat) :
  (forall l, l ∈ dom (mem w) ->
     mem (farthest_point_sample point npoint w).2 !! l = mem w !! l) /\
  (forall q, (farthest_point_sample point npoint w).1 = Some q -> q ∉ dom (mem w)).
Proof.
  destruct (safe_farthest_point_sample w point npoint w (frame_inv_refl w)) as [H1 H2].
  split; [exact H1|exact H2].
Qed.

End SamplingClaims.

Section SamplingExamples.
Local Open Scope R_scope.







End SamplingExamples.

(** ** Augmentation: shapes *)

Section ShapeFacts.
Context {G : Type} `{!RandomState G}.
Context {F : Type} `{!Float F} `{!Cast32 F}.
Local Open Scope R_scope.

Lemma succeeds_ret {A} (a : A) (Q : A -> Prop) : Q a -> succeeds (G:=G) (ret a) Q.
Proof. intros HQ w. by exists a, w. Qed.

Lemma succeeds_lift_opt {A} (o : option A) (a : A) :
  o = Some a -> succeeds (G:=G) (lift_opt o) (fun y => y = a).
Proof. intros -> w. by exists a, w. Qed.

Lemma succeeds_bind {A B} (m : M G A) (k : A -> M G B) (Q : A -> Prop) (Q' : B -> Prop) :
  succeeds m Q -> (forall a, Q a -> succeeds (k a) Q') -> succeeds (bind m k) Q'.
Proof.
  intros Hm Hk w. destruct (Hm w) as (a & w1 & Hrun & Hmem & Ha).
  destruct (Hk a Ha w1) as (b & w2 & Hrun' & Hmem' & Hb).
  exists b, w2. split_and!; [by rewrite (bind_Some _ _ w w1 a)|congruence|done].
Qed.

Lemma succeeds_weaken {A} (m : M G A) (Q Q' : A -> Prop) :
  (forall a, Q a -> Q' a) -> succeeds m Q -> succeeds m Q'.
Proof. intros HQ Hm w. destruct (Hm w) as (a & w' & ? & ? & ?). exists a, w'. auto. Qed.

Lemma succeeds_for_in {A St} (l : list A) (body : A -> St -> M G St) (I : St -> Prop) :
  (forall x s, x ∈ l -> I s -> succeeds (body x s) I) ->
  forall s, I s -> succeeds (for_in l body s) I.
Proof.
  induction l as [|x l IH]; intros Hbody s Hs; simpl.
  - by apply succeeds_ret.
  - eapply succeeds_bind.
    + apply Hbody; [apply list_elem_of_here|done].
    + intros s' Hs'. apply IH; [|done]. intros y t Hy. apply Hbody.
      by apply list_elem_of_further.
Qed.

Lemma succeeds_np_random_random : succeeds (G:=G) np_random_random (fun _ => True).
Proof.
  intros w. unfold np_random_random. destruct (random_sample _) as [x g]. by eexists _, _.
Qed.

Lemma succeeds_np_random_randn : succeeds (G:=G) np_random_randn (fun _ => True).
Proof.
  intros w. unfold np_random_randn. destruct (standard_normal _) as [x g]. by eexists _, _.
Qed.

Lemma succeeds_np_random_uniform (lo hi : R) :
  succeeds (G:=G) (np_random_uniform lo hi) (fun _ => True).
Proof.
  eapply succeeds_bind; [apply succeeds_np_random_random|]. intros u _. by apply succeeds_ret.
Qed.

Lemma succeeds_repeatM {A} (n : nat) (m : M G A) (Q : A -> Prop) :
  succeeds m Q -> succeeds (repeatM n m) (fun l => length l = n /\ Forall Q l).
Proof.
  intros Hm. induction n as [|n IH]; simpl.
  - by apply succeeds_ret.
  - eapply succeeds_bind; [exact Hm|]. intros x Hx.
    eapply succeeds_bind; [exact IH|]. intros xs [Hlen Hxs].
    apply succeeds_ret. simpl. split; [by rewrite Hlen|by constructor].
Qed.

Lemma succeeds_mapM_M {A B} (f : A -> M G B) (l : list A) (Q : A -> B -> Prop) :
  (forall x, x ∈ l -> succeeds (f x) (Q x)) ->
  succeeds (mapM_M f l) (fun k => Forall2 Q l k).
Proof.
  induction l as [|x l IH]; intros Hf; simpl.
  - by apply succeeds_ret.
  - eapply succeeds_bind; [apply Hf, list_elem_of_here|]. intros y Hy.
    eapply succeeds_bind.
    + apply IH. intros z Hz. by apply Hf, list_elem_of_further.
    + intros ys Hys. apply succeeds_ret. by constructor.
Qed.

Lemma is_batch_lookup (B N C : nat) (b : list (list (list F))) (k : nat) :
  is_batch B N C b -> (k < B)%nat ->
  exists pc, b !! k = Some pc /\ length pc = N /\ rect C pc.
Proof.
  intros [Hlen Hall] Hk. destruct (lookup_lt_is_Some_2 b k) as [pc Hpc]; [lia|].
  exists pc. split; [done|]. exact (proj1 (Forall_lookup _ _) Hall k pc Hpc).
Qed.

Lemma is_batch_insert (B N C : nat) (b : list (list (list F))) (k : nat)
    (pc : list (list F)) :
  is_batch B N C b -> length pc = N -> rect C pc -> is_batch B N C (<[k := pc]> b).
Proof.
  intros [Hlen Hall] HN HC. split; [by rewrite length_insert|].
  by apply Forall_insert.
Qed.

Lemma seq_lt (k B : nat) : k ∈ seq 0 B -> (k < B)%nat.
Proof. intros H%elem_of_seq. lia. Qed.

(** Scaling keeps the shape. *)
Lemma random_scale_point_cloud_shape (B N C : nat) (b : list (list (list F))) (lo hi : R) :
  is_batch B N C b ->
  succeeds (G:=G) (random_scale_point_cloud b lo hi) (is_batch B N C).
Proof.
  intros Hb. unfold random_scale_point_cloud.
  eapply succeeds_bind; [apply succeeds_repeatM, succeeds_np_random_uniform|].
  intros scales [Hlen _]. destruct Hb as [HB Hall]. rewrite HB in *.
  apply succeeds_for_in; [|done].
  intros k s Hk%seq_lt Hs.
  destruct (lookup_lt_is_Some_2 scales k) as [x Hx]; [lia|].
  destruct (is_batch_lookup B N C s k Hs Hk) as (pc & Hpc & HN & HC).
  eapply succeeds_bind; [by apply succeeds_lift_opt|]. intros ? ->.
  eapply succeeds_bind; [by apply succeeds_lift_opt|]. intros ? ->.
  apply succeeds_ret. apply is_batch_insert; [done|by rewrite length_fmap|].
  apply Forall_fmap. eapply Forall_impl; [exact HC|]. intros r Hr. simpl. by rewrite length_fmap.
Qed.


Lemma iadd_row_Some (C : nat) (pc : list (list F)) (sh : list R) :
  rect C pc -> length sh = C ->
  iadd_row pc sh = Some ((fun r => zip_with (fun x t => fplus x (of_R t)) r sh) <$> pc).
Proof.
  intros Hpc Hsh. unfold iadd_row. apply mapM_Some. apply Forall2_fmap_r.
  apply Forall_Forall2_diag. eapply Forall_impl; [exact Hpc|].
  intros r Hr. simpl in *. rewrite decide_True by lia. done.
Qed.

(** Shifting keeps the shape of a batch of 3-channel clouds. *)
Lemma shift_point_cloud_shape (B N : nat) (b : list (list (list F))) (range : R) :
  is_batch B N 3 b ->
  succeeds (G:=G) (shift_point_cloud b range) (is_batch B N 3).
Proof.
  intros Hb. unfold shift_point_cloud.
  eapply succeeds_bind.
  { apply succeeds_repeatM, succeeds_repeatM, succeeds_np_random_uniform. }
  intros shifts [Hlen Hsh]. destruct Hb as [HB Hall]. rewrite HB in *.
  apply succeeds_for_in; [|done].
  intros k s Hk%seq_lt Hs.
  destruct (lookup_lt_is_Some_2 shifts k) as [sh Hk']; [lia|].
  destruct (proj1 (Forall_lookup _ _) Hsh k sh Hk') as [Hsh3 _].
  destruct (is_batch_lookup B N 3 s k Hs Hk) as (pc & Hpc & HN & HC).
  eapply succeeds_bind; [by apply succeeds_lift_opt|]. intros ? ->.
  eapply succeeds_bind; [by apply succeeds_lift_opt|]. intros ? ->.
  eapply succeeds_bind; [apply succeeds_lift_opt; by apply (iadd_row_Some 3)|]. intros ? ->.
  apply succeeds_ret. apply is_batch_insert; [done|by rewrite length_fmap|].
  apply Forall_fmap. eapply Forall_impl; [exact HC|]. intros r Hr. simpl in *.
  rewrite length_zip_with. lia.
Qed.

(** Jitter keeps the shape. *)
Lemma jitter_point_cloud_shape (B N C : nat) (b : list (list (list R))) (sigma clip : R) :
  is_batch B N C b -> clip > 0 ->
  succeeds (G:=G) (jitter_point_cloud b sigma clip) (is_batch B N C).
Proof.
  intros Hb Hclip. unfold jitter_point_cloud. rewrite decide_True by done.
  eapply succeeds_bind.
  { apply (succeeds_mapM_M _ _
      (fun pc npc => Forall2 (fun r nr : list R => length nr = length r) pc npc)).
    intros pc _.
    apply (succeeds_mapM_M _ _ (fun r nr : list R => length nr = length r)).
    intros r _.
    eapply succeeds_weaken; [|apply (succeeds_mapM_M _ _ (fun _ _ => True))].
    - intros nr Hnr. by apply Forall2_length in Hnr.
    - intros x _. apply succeeds_np_random_randn. }
  intros noise Hnoise. apply succeeds_ret.
  destruct Hb as [HB Hall]. split.
  - rewrite length_zip_with, length_fmap.
    apply Forall2_length in Hnoise. lia.
  - clear HB. induction Hnoise as [|pc npc b noise Hpc _ IH]; [constructor|].
    apply Forall_cons in Hall as [[HN HC] Hall].
    csimpl. constructor; [|by apply IH]. split.
    + rewrite length_zip_with, length_fmap. apply Forall2_length in Hpc. lia.
    + clear HN. induction Hpc as [|r nr pc npc Hr _ IH']; [constructor|].
      apply Forall_cons in HC as [Hr' HC].
      csimpl. constructor; [|by apply IH'].
      rewrite length_zip_with, length_fmap. lia.
Qed.

Lemma chunks3_concat (pc : list (list F)) :
  rect 3 pc -> chunks3 (concat pc) = pc /\ length (concat pc) = (3 * length pc)%nat.
Proof.
  induction 1 as [|r pc Hr _ [IH1 IH2]]; [done|].
  destruct r as [|x [|y [|z [|? ?]]]]; try done. simpl. rewrite IH1, IH2. split; [done|lia].
Qed.

Lemma reshape_rect3 (pc : list (list F)) : rect 3 pc -> reshape_m1_3 pc = Some pc.
Proof.
  intros Hpc. destruct (chunks3_concat pc Hpc) as [H1 H2]. unfold reshape_m1_3.
  rewrite H1, H2. rewrite decide_True; [done|].
  rewrite Nat.mul_comm. apply Nat.Div0.mod_mul.
Qed.

Lemma row_times_length (r : list F) (m : list (list R)) :
  rect (ncols m) m -> length (row_times r m) = ncols m.
Proof.
  intros Hm. unfold row_times.
  assert (Forall (fun row : list F => length row = ncols m)
            (zip_with (fun xi mi => (fun y => fmult xi (of_R y)) <$> mi) r m)) as Hrows.
  { apply Forall_forall. intros row Hrow.
    apply list_elem_of_lookup in Hrow as [i Hi].
    apply lookup_zip_with_Some in Hi as (xi & mi & -> & _ & Hmi).
    rewrite length_fmap. exact (proj1 (Forall_lookup _ _) Hm i mi Hmi). }
  induction Hrows as [|row rows Hrow _ IH]; simpl; [by rewrite length_replicate|].
  rewrite length_zip_with, IH, Hrow. lia.
Qed.

Lemma np_dot_shape (x : list (list F)) (m : list (list R)) :
  rect (ncols m) m -> length (np_dot x m) = length x /\ rect (ncols m) (np_dot x m).
Proof.
  intros Hm. unfold np_dot. split; [by rewrite length_fmap|].
  apply Forall_fmap, Forall_forall. intros r _. simpl.
  by apply row_times_length.
Qed.

Lemma broadcast_to_same {A} (n : nat) (d : A) (l : list A) :
  length l = n -> broadcast_to n d l = Some l.
Proof. intros H. unfold broadcast_to. by rewrite decide_True. Qed.

Lemma assign_broadcast_same (C : nat) (target value : list (list F)) :
  length value = length target -> rect C target -> rect C value ->
  assign_broadcast target value = Some value.
Proof.
  intros Hlen Ht Hv. unfold assign_broadcast.
  rewrite broadcast_to_same by done. simpl. apply mapM_Some.
  revert value Hlen Hv. induction Ht as [|t target Htl _ IH]; intros [|v value] Hlen Hv;
    try done; try constructor.
  all: apply Forall_cons in Hv as [Hvl Hv].
  - simpl. apply broadcast_to_same. lia.
  - apply IH; [simpl in Hlen; lia|done].
Qed.

Lemma is_batch_zeros3 (B N C : nat) (b : list (list (list F))) :
  is_batch B N C b -> is_batch B N C (zeros3 b).
Proof.
  intros [HB Hall]. split; [unfold zeros3; by rewrite length_fmap|].
  apply Forall_fmap. eapply Forall_impl; [exact Hall|].
  intros pc [HN HC]. simpl. split; [by rewrite length_fmap|].
  apply Forall_fmap. eapply Forall_impl; [exact HC|]. intros r Hr. simpl.
  by rewrite length_fmap.
Qed.

Lemma astype_float32_shape (N C : nat) (a : list (list F)) :
  length a = N -> rect C a ->
  length (astype_float32 a) = N /\ rect C (astype_float32 a).
Proof.
  intros HN HC. unfold astype_float32. split; [by rewrite length_fmap|].
  apply Forall_fmap. eapply Forall_impl; [exact HC|]. intros r Hr. simpl.
  by rewrite length_fmap.
Qed.

(** One pass of the rotation loops, for any 3 x 3 matrix. *)
Lemma rotate_pass_shape (B N : nat) (b rotated : list (list (list F))) (k : nat)
    (m : list (list R)) :
  is_batch B N 3 b -> is_batch B N 3 rotated -> (k < B)%nat ->
  ncols m = 3%nat -> rect 3 m ->
  succeeds (G:=G)
    (let! shape_pc := lift_opt (b !! k) in
     let! flat := lift_opt (reshape_m1_3 shape_pc) in
     let! target := lift_opt (rotated !! k) in
     let! v := lift_opt (assign_broadcast target (np_dot flat m)) in
     ret (<[k := astype_float32 v]> rotated))
    (is_batch B N 3).
Proof.
  intros Hb Hr Hk Hm3 Hm.
  destruct (is_batch_lookup B N 3 b k Hb Hk) as (pc & Hpc & HN & HC).
  destruct (is_batch_lookup B N 3 rotated k Hr Hk) as (t & Ht & HtN & HtC).
  destruct (np_dot_shape pc m) as [Hlen Hrect]; [by rewrite Hm3|]. rewrite Hm3 in Hrect.
  eapply succeeds_bind; [by apply succeeds_lift_opt|]. intros ? ->.
  eapply succeeds_bind; [apply succeeds_lift_opt; by apply reshape_rect3|]. intros ? ->.
  eapply succeeds_bind; [by apply succeeds_lift_opt|]. intros ? ->.
  eapply succeeds_bind.
  { apply succeeds_lift_opt. apply (assign_broadcast_same 3); [lia|done|done]. }
  intros ? ->. apply succeeds_ret.
  destruct (astype_float32_shape (length pc) 3 (np_dot pc m)) as [? ?]; [done..|].
  apply is_batch_insert; [done|lia|done].
Qed.

(** Rotation about the up axis keeps the shape of 3-channel clouds. *)
Lemma rotate_point_cloud_shape (B N : nat) (b : list (list (list F))) :
  is_batch B N 3 b -> succeeds (G:=G) (rotate_point_cloud b) (is_batch B N 3).
Proof.
  intros Hb. unfold rotate_point_cloud.
  replace (length b) with B by (by destruct Hb).
  apply succeeds_for_in; [|by apply is_batch_zeros3].
  intros k s Hk%seq_lt Hs.
  eapply succeeds_bind; [apply succeeds_np_random_uniform|]. intros u _.
  apply rotate_pass_shape; [done..|]. by repeat constructor.
Qed.

End ShapeFacts.

Section PerturbationShape.
Context {G : Type} `{!RandomState G}.
Local Open Scope R_scope.

Lemma perturbation_matrix_shape (angles : list R) :
  ncols (perturbation_matrix angles) = 3%nat /\ rect 3 (perturbation_matrix angles).
Proof.
  unfold perturbation_matrix.
  set (Rx := [[1; 0; 0]; _; _]). set (Ry := [[cos _; 0; sin _]; _; _]).
  set (Rz := [[cos _; - sin _; 0]; _; _]).
  assert (rect 3 Rx) as HRx by (by repeat constructor).
  destruct (np_dot_shape Ry Rx HRx) as [H1 H2]. change (ncols Rx) with 3%nat in H2.
  assert (ncols (np_dot Ry Rx) = 3%nat) as Hn.
  { unfold ncols. destruct (np_dot Ry Rx) as [|r ?] eqn:E; [done|].
    by apply Forall_cons in H2 as [? _]. }
  destruct (np_dot_shape Rz (np_dot Ry Rx)) as [H3 H4]; [by rewrite Hn|].
  rewrite Hn in H4. split; [|done].
  unfold ncols. destruct (np_dot Rz _) as [|r ?] eqn:E; [done|].
  by apply Forall_cons in H4 as [? _].
Qed.

(** The small random rotation keeps the shape of 3-channel clouds. *)
Lemma rotate_perturbation_point_cloud_shape `{!Float F} `{!Cast32 F} (B N : nat)
    (b : list (list (list F)))
    (sigma clip : R) :
  is_batch B N 3 b ->
  succeeds (G:=G) (rotate_perturbation_point_cloud b sigma clip) (is_batch B N 3).
Proof.
  intros Hb. unfold rotate_perturbation_point_cloud.
  replace (length b) with B by (by destruct Hb).
  apply succeeds_for_in; [|by apply is_batch_zeros3].
  intros k s Hk%seq_lt Hs.
  eapply succeeds_bind; [apply succeeds_repeatM, succeeds_np_random_randn|]. intros zs _.
  destruct (perturbation_matrix_shape
              ((fun z => np_clip (sigma * z) (- clip) clip) <$> zs)) as [H1 H2].
  by apply rotate_pass_shape.
Qed.

End PerturbationShape.

(** ** Augmentation: point dropout *)

Section DropoutFacts.
Context {G : Type} `{!RandomState G} {A : Type}.
Local Open Scope R_scope.

Lemma np_random_random_run (w : world G) :
  np_random_random w
  = (Some (random_sample (np_random_global w)).1,
     set_np_random_global (random_sample (np_random_global w)).2 w).
Proof. unfold np_random_random. by destruct (random_sample _). Qed.

Lemma repeatM_draws (n : nat) (w : world G) :
  repeatM n np_random_random w
  = (Some (draws n (np_random_global w)).1,
     set_np_random_global (draws n (np_random_global w)).2 w).
Proof.
  revert w. induction n as [|n IH]; intros w; simpl.
  - by destruct w.
  - rewrite (bind_Some _ _ _ _ _ (np_random_random_run w)).
    rewrite (bind_Some _ _ _ _ _ (IH _)). simpl.
    destruct (random_sample (np_random_global w)) as [x g1]. simpl.
    by destruct (draws n g1) as [xs g2].
Qed.

Lemma draws_length (n : nat) (g : G) : length (draws n g).1 = n.
Proof.
  revert g. induction n as [|n IH]; intros g; simpl; [done|].
  destruct (random_sample g) as [x g1]. specialize (IH g1).
  destruct (draws n g1) as [xs g2]. simpl in *. by rewrite IH.
Qed.

Lemma draws_range (n : nat) (g : G) : Forall (fun r => 0 <= r < 1) (draws n g).1.
Proof.
  revert g. induction n as [|n IH]; intros g; simpl; [constructor|].
  pose proof (random_sample_range g) as Hr.
  destruct (random_sample g) as [x g1]. specialize (IH g1).
  destruct (draws n g1) as [xs g2]. simpl in *. by constructor.
Qed.

Lemma np_where_le_spec (rs : list R) (ratio : R) :
  forall i0 j, j ∈ np_where_le i0 rs ratio <->
    (i0 <= j)%nat /\ exists r, rs !! (j - i0)%nat = Some r /\ r <= ratio.
Proof.
  induction rs as [|r rs IH]; intros i0 j; simpl.
  - split; [by intros ?%elem_of_nil|]. by intros (_ & r & ? & _).
  - destruct (decide (r <= ratio)) as [Hle|Hgt].
    + rewrite elem_of_cons, IH. split.
      * intros [->|(Hj & r' & Hr' & Hle')].
        -- split; [lia|]. exists r. by rewrite Nat.sub_diag.
        -- split; [lia|]. exists r'. split; [|done].
           replace (j - i0)%nat with (S (j - S i0)) by lia. done.
      * intros (Hj & r' & Hr' & Hle'). destruct (decide (j = i0)) as [->|Hne]; [by left|].
        right. split; [lia|]. exists r'. split; [|done].
        replace (j - i0)%nat with (S (j - S i0)) in Hr' by lia. done.
    + rewrite IH. split.
      * intros (Hj & r' & Hr' & Hle'). split; [lia|]. exists r'. split; [|done].
        replace (j - i0)%nat with (S (j - S i0)) by lia. done.
      * intros (Hj & r' & Hr' & Hle'). destruct (decide (j = i0)) as [->|Hne].
        -- rewrite Nat.sub_diag in Hr'. simpl in Hr'. injection Hr' as <-. lra.
        -- split; [lia|]. exists r'. split; [|done].
           replace (j - i0)%nat with (S (j - S i0)) in Hr' by lia. done.
Qed.

Lemma assign_rows_length (pc : list (list A)) (idx : list nat) (row : list A) :
  length (assign_rows pc idx row) = length pc.
Proof.
  unfold assign_rows. revert pc. induction idx as [|i idx IH]; intros pc; simpl; [done|].
  by rewrite IH, length_insert.
Qed.

Lemma assign_rows_lookup (pc : list (list A)) (idx : list nat) (row : list A) (i : nat) :
  (i < length pc)%nat ->
  assign_rows pc idx row !! i = if decide (i ∈ idx) then Some row else pc !! i.
Proof.
  unfold assign_rows. revert pc. induction idx as [|j idx IH]; intros pc Hi; cbn [foldl].
  - rewrite decide_False; [done|]. apply not_elem_of_nil.
  - rewrite IH by (by rewrite length_insert).
    destruct (decide (i ∈ idx)) as [Hin|Hnin].
    + rewrite decide_True; [done|]. by apply list_elem_of_further.
    + destruct (decide (i = j)) as [->|Hne].
      * rewrite decide_True by apply list_elem_of_here. by apply list_lookup_insert_eq.
      * rewrite decide_False by (intros [?|?]%elem_of_cons; done).
        by apply list_lookup_insert_ne.
Qed.

(** The law of one cloud: a point whose draw is at most the ratio takes the
    coordinates of the first point; the others are left as they are. *)
Lemma dropout_cloud_lookup (mr : R) (pc : list (list A)) (u : R) (rs : list R)
    (i : nat) (r : R) :
  length rs = length pc -> rs !! i = Some r ->
  dropout_cloud mr pc u rs !! i
  = if decide (r <= u * mr) then pc !! 0%nat else pc !! i.
Proof.
  intros Hlen Hr. pose proof (lookup_lt_Some _ _ _ Hr) as Hi.
  unfold dropout_cloud.
  set (idx := np_where_le 0 rs (u * mr)).
  assert (i ∈ idx <-> r <= u * mr) as Hin.
  { unfold idx. rewrite np_where_le_spec, Nat.sub_0_r, Hr. split.
    - by intros (_ & r' & [= <-] & ?).
    - intros ?. split; [lia|]. by exists r. }
  destruct (lookup_lt_is_Some_2 pc 0%nat) as [first Hfirst]; [lia|].
  destruct (decide (0 < length idx)%nat) as [Hne|He].
  - rewrite assign_rows_lookup by lia. rewrite Hfirst. simpl.
    destruct (decide (r <= u * mr)) as [Hle|Hgt].
    + rewrite decide_True; [done|]. by apply Hin.
    + rewrite decide_False; [done|]. by rewrite Hin.
  - rewrite decide_False; [done|]. intros Hle. apply Hin in Hle.
    destruct idx; [by apply elem_of_nil in Hle|]. simpl in He. lia.
Qed.

Lemma assign_rows_rect (C : nat) (pc : list (list A)) (idx : list nat) (row : list A) :
  rect C pc -> pc = [] \/ length row = C -> rect C (assign_rows pc idx row).
Proof.
  unfold assign_rows. revert pc. induction idx as [|i idx IH]; intros pc HC Hrow;
    cbn [foldl]; [done|].
  apply IH.
  - destruct Hrow as [->|Hrow]; [done|]. by apply Forall_insert.
  - destruct Hrow as [->|Hrow]; [by left|by right].
Qed.

Lemma dropout_cloud_shape (mr : R) (N C : nat) (pc : list (list A)) (u : R) (rs : list R) :
  length pc = N -> rect C pc ->
  length (dropout_cloud mr pc u rs) = N /\ rect C (dropout_cloud mr pc u rs).
Proof.
  intros HN HC. unfold dropout_cloud.
  destruct (decide _); [|done]. split; [by rewrite assign_rows_length|].
  apply assign_rows_rect; [done|].
  destruct pc as [|r pc]; [by left|]. right. simpl. by apply Forall_cons in HC as [? _].
Qed.

Lemma np_where_le_length (rs : list R) (ratio : R) (i0 : nat) :
  (length (np_where_le i0 rs ratio) <= length rs)%nat.
Proof.
  revert i0. induction rs as [|r rs IH]; intros i0; simpl; [lia|].
  specialize (IH (S i0)). destruct (decide _); simpl; lia.
Qed.

Local Abbreviation dropout_body mr :=
  (fun (b : nat) (batch_pc : list (list (list A))) =>
     let! u := np_random_random in
     let dropout_ratio := u * mr in
     let! pc := lift_opt (batch_pc !! b) in
     let! rs := repeatM (length pc) np_random_random in
     let drop_idx := np_where_le 0 rs dropout_ratio in
     if decide (0 < length drop_idx)%nat then
       let! first := lift_opt (pc !! 0%nat) in
       ret (<[b := assign_rows pc drop_idx first]> batch_pc)
     else ret batch_pc).

(** One pass of the dropout loop. *)
Lemma dropout_body_run (mr : R) (b : nat) (batch : list (list (list A)))
    (pc : list (list A)) (w : world G) :
  batch !! b = Some pc ->
  let u := (random_sample (np_random_global w)).1 in
  let g1 := (random_sample (np_random_global w)).2 in
  let rs := (draws (length pc) g1).1 in
  dropout_body mr b batch w
  = (Some (<[b := dropout_cloud mr pc u rs]> batch),
     set_np_random_global (draws (length pc) g1).2 w).
Proof.
  intros Hpc u g1 rs. cbv beta.
  rewrite (bind_Some _ _ _ _ _ (np_random_random_run w)). fold u g1.
  set (w1 := set_np_random_global g1 w).
  rewrite (bind_Some _ _ w1 w1 pc) by (unfold lift_opt; by rewrite Hpc).
  rewrite (bind_Some _ _ _ _ _ (repeatM_draws (length pc) w1)).
  change (np_random_global w1) with g1. fold rs.
  assert (set_np_random_global (draws (length pc) g1).2 w1
          = set_np_random_global (draws (length pc) g1).2 w) as -> by done.
  assert (length rs = length pc) as Hrs by apply draws_length.
  unfold dropout_cloud.
  destruct (decide (0 < length (np_where_le 0 rs (u * mr)))%nat) as [Hne|He].
  - pose proof (np_where_le_length rs (u * mr) 0) as Hle.
    destruct (lookup_lt_is_Some_2 pc 0%nat) as [first Hfirst]; [lia|].
    rewrite (bind_Some _ _ _ _ first) by (unfold lift_opt; by rewrite Hfirst).
    rewrite Hfirst. done.
  - unfold ret. by rewrite list_insert_id.
Qed.

(** The dropout loop, from the cloud after [done] on: it leaves in every
    remaining cloud what [dropout_cloud] makes of it with the draws
    [dropout_draws] takes from the generator. *)
Lemma dropout_loop (mr : R) (N : nat) (rest : list (list (list A))) :
  forall (done : list (list (list A))) (w : world G),
    Forall (fun pc => length pc = N) rest ->
    for_in (seq (length done) (length rest)) (dropout_body mr) (done ++ rest) w
    = (Some (done ++ zip_with (fun pc d => dropout_cloud mr pc d.1 d.2) rest
                       (dropout_draws (length rest) N (np_random_global w)).1),
       set_np_random_global (dropout_draws (length rest) N (np_random_global w)).2 w).
Proof.
  induction rest as [|pc rest IH]; intros done w Hall.
  - simpl. rewrite app_nil_r. by destruct w.
  - apply Forall_cons in Hall as [HN Hall].
    cbn [length seq for_in].
    rewrite (bind_Some _ _ _ _ _
               (dropout_body_run mr (length done) (done ++ pc :: rest) pc w
                  (list_lookup_middle _ _ _ _ eq_refl))).
    rewrite (insert_app_r_alt done (pc :: rest) (length done)) by lia.
    rewrite Nat.sub_diag. cbn [insert list_insert].
    set (u := (random_sample (np_random_global w)).1).
    set (g1 := (random_sample (np_random_global w)).2).
    set (rs := (draws (length pc) g1).1).
    set (w2 := set_np_random_global (draws (length pc) g1).2 w).
    replace (done ++ dropout_cloud mr pc u rs :: rest)
      with ((done ++ [dropout_cloud mr pc u rs]) ++ rest) by (by rewrite <- app_assoc).
    replace (S (length done)) with (length (done ++ [dropout_cloud mr pc u rs]))
      by (rewrite length_app; simpl; lia).
    rewrite (IH _ w2 Hall). rewrite <- app_assoc.
    assert (dropout_draws (S (length rest)) N (np_random_global w)
            = ((u, rs) :: (dropout_draws (length rest) N (np_random_global w2)).1,
               (dropout_draws (length rest) N (np_random_global w2)).2)) as Hdraws.
    { simpl. unfold u, rs, w2, g1. rewrite HN. simpl.
      destruct (random_sample (np_random_global w)) as [u0 g1']. simpl.
      destruct (draws N g1') as [rs0 g2]. simpl.
      by destruct (dropout_draws (length rest) N g2). }
    rewrite Hdraws. simpl. by destruct w.
Qed.

(** [random_point_dropout] on a [B x N x C] batch. *)
Lemma random_point_dropout_run (B N C : nat) (b : list (list (list A))) (mr : R)
    (w : world G) :
  is_batch B N C b ->
  random_point_dropout b mr w
  = (Some (zip_with (fun pc d => dropout_cloud mr pc d.1 d.2) b
             (dropout_draws B N (np_random_global w)).1),
     set_np_random_global (dropout_draws B N (np_random_global w)).2 w).
Proof.
  intros [HB Hall]. unfold random_point_dropout.
  rewrite <- HB. apply (dropout_loop mr N b [] w).
  eapply Forall_impl; [exact Hall|]. by intros pc [? _].
Qed.

Lemma dropout_draws_length (B N : nat) (g : G) :
  length (dropout_draws B N g).1 = B.
Proof.
  revert g. induction B as [|B IH]; intros g; simpl; [done|].
  destruct (random_sample g) as [u g1]. destruct (draws N g1) as [rs g2].
  specialize (IH g2). destruct (dropout_draws B N g2). simpl in *. by rewrite IH.
Qed.

Lemma dropout_draws_range (B N : nat) (g : G) :
  Forall (fun d : R * list R =>
            length d.2 = N /\ Forall (fun r => 0 <= r < 1) d.2) (dropout_draws B N g).1.
Proof.
  revert g. induction B as [|B IH]; intros g; simpl; [constructor|].
  destruct (random_sample g) as [u g1].
  pose proof (draws_length N g1) as Hlen. pose proof (draws_range N g1) as Hrange.
  destruct (draws N g1) as [rs g2].
  specialize (IH g2). destruct (dropout_draws B N g2). simpl in *. by constructor.
Qed.

(** Point dropout keeps the shape. *)
Lemma random_point_dropout_shape (B N C : nat) (b : list (list (list A))) (mr : R) :
  is_batch B N C b -> succeeds (G:=G) (random_point_dropout b mr) (is_batch B N C).
Proof.
  intros Hb w. eexists _, _. split; [by apply (random_point_dropout_run B N C)|].
  split; [done|]. destruct Hb as [HB Hall]. split.
  - rewrite length_zip_with, dropout_draws_length. lia.
  - apply Forall_forall. intros pc' Hpc'.
    apply list_elem_of_lookup in Hpc' as [k Hk].
    apply lookup_zip_with_Some in Hk as (pc & d & -> & Hpc & _).
    destruct (proj1 (Forall_lookup _ _) Hall k pc Hpc) as [HN HC].
    by apply dropout_cloud_shape.
Qed.

End DropoutFacts.

(** ** Augmentation: the claims *)

Section AugmentationClaims.
Context {G : Type} `{!RandomState G} `{!Cast32 R}.
Local Open Scope R_scope.

(** C6.  [random_point_dropout] returns a batch of the same shape in which,
    for every cloud and every point whose draw is at most the cloud's dropout
    ratio (a dropped point), the coordinates are exactly those of the cloud's
    first point, the other points being unchanged; when the ratio is 1 every
    point of the cloud equals the original first point. *)
Theorem random_point_dropout_law (B N C : nat) (b : list (list (list R))) (mr : R)
    (w : world G) :
  is_batch B N C b ->
  exists b' w',
    random_point_dropout b mr w = (Some b', w') /\
    is_batch B N C b' /\
    forall k u rs pc,
      (dropout_draws B N (np_random_global w)).1 !! k = Some (u, rs) ->
      b !! k = Some pc ->
      exists pc', b' !! k = Some pc' /\ length pc' = length pc /\
        (forall i r, rs !! i = Some r -> r <= u * mr -> pc' !! i = pc !! 0%nat) /\
        (forall i r, rs !! i = Some r -> ~ r <= u * mr -> pc' !! i = pc !! i) /\
        (u * mr = 1 -> forall i, (i < N)%nat -> pc' !! i = pc !! 0%nat).
Proof.
  intros Hb.
  destruct (random_point_dropout_shape B N C b mr Hb w) as (b' & w' & Hrun & _ & Hb').
  exists b', w'. split; [done|]. split; [done|].
  rewrite (random_point_dropout_run B N C) in Hrun by done. injection Hrun as <- _.
  intros k u rs pc Hd Hpc.
  destruct (is_batch_lookup B N C b k Hb) as (pc0 & Hpc0 & HN & HC).
  { destruct Hb as [<- _]. by eapply lookup_lt_Some. }
  rewrite Hpc in Hpc0. injection Hpc0 as <-.
  destruct (proj1 (Forall_lookup _ _) (dropout_draws_range B N (np_random_global w))
              k (u, rs) Hd) as [Hlen Hrange]. simpl in Hlen, Hrange.
  exists (dropout_cloud mr pc u rs). split_and!.
  - rewrite lookup_zip_with, Hpc. simpl. by rewrite Hd.
  - destruct (dropout_cloud_shape mr N C pc u rs HN HC) as [-> _]. done.
  - intros i r Hr Hle. rewrite (dropout_cloud_lookup mr pc u rs i r) by (done || lia).
    by rewrite decide_True.
  - intros i r Hr Hgt. rewrite (dropout_cloud_lookup mr pc u rs i r) by (done || lia).
    by rewrite decide_False.
  - intros Hone i Hi. destruct (lookup_lt_is_Some_2 rs i) as [r Hr]; [lia|].
    rewrite (dropout_cloud_lookup mr pc u rs i r) by (done || lia).
    pose proof (proj1 (Forall_lookup _ _) Hrange i r Hr) as Hr01. simpl in Hr01.
    rewrite decide_True; [done|lra].
Qed.

(** C5 (amended).  On a batch of shape [B x N x C], [random_point_dropout],
    [random_scale_point_cloud] and [jitter_point_cloud] return a batch of the
    same shape for every C; [shift_point_cloud], [rotate_point_cloud] and
    [rotate_perturbation_point_cloud] do so when C = 3. *)
Theorem augmentation_shape (B N C : nat) (b : list (list (list R)))
    (max_dropout_ratio scale_low scale_high shift_range sigma clip
     angle_sigma angle_clip : R) :
  is_batch B N C b -> clip > 0 ->
  succeeds (G:=G) (random_point_dropout b max_dropout_ratio) (is_batch B N C) /\
  succeeds (G:=G) (random_scale_point_cloud b scale_low scale_high) (is_batch B N C) /\
  succeeds (G:=G) (jitter_point_cloud b sigma clip) (is_batch B N C) /\
  (C = 3%nat ->
   succeeds (G:=G) (shift_point_cloud b shift_range) (is_batch B N C) /\
   succeeds (G:=G) (rotate_point_cloud b) (is_batch B N C) /\
   succeeds (G:=G) (rotate_perturbation_point_cloud b angle_sigma angle_clip)
     (is_batch B N C)).
Proof.
  intros Hb Hclip. split_and!.
  - by apply random_point_dropout_shape.
  - by apply random_scale_point_cloud_shape.
  - by apply jitter_point_cloud_shape.
  - intros ->. split_and!.
    + by apply shift_point_cloud_shape.
    + by apply rotate_point_cloud_shape.
    + by apply rotate_perturbation_point_cloud_shape.
Qed.

End AugmentationClaims.

Section BindInversion.
Context {G : Type} `{!RandomState G}.

Lemma bind_inv {A B} (m : M G A) (k : A -> M G B) (w w' : world G) (b : B) :
  bind m k w = (Some b, w') ->
  exists a w1, m w = (Some a, w1) /\ k a w1 = (Some b, w').
Proof.
  unfold bind. destruct (m w) as [[a|] w1]; [|done]. intros H. by exists a, w1.
Qed.

Lemma lift_opt_inv {A} (o : option A) (w w' : world G) (a : A) :
  lift_opt o w = (Some a, w') -> o = Some a /\ w' = w.
Proof. unfold lift_opt. by intros [= -> ->]. Qed.

End BindInversion.

Section AugmentationExamples.
Local Existing Instance exact_cast.
Local Open Scope R_scope.

Lemma is_batch_four_channels : is_batch 1 1 4 four_channels.
Proof. split; [done|]. repeat constructor. Qed.

(** C5 (counterexample).  On a batch of one point with four channels,
    [rotate_point_cloud] raises: four entries cannot be reshaped to rows
    of three. *)
Lemma rotate_four_channels_counterexample :
  is_batch 1 1 4 four_channels /\ (4 >= 3)%nat /\
  ~ succeeds (G:=tape) (rotate_point_cloud four_channels) (is_batch 1 1 4).
Proof.
  split; [apply is_batch_four_channels|]. split; [lia|].
  intros H. destruct (H idle_world) as (b' & w' & Hrun & _).
  unfold rotate_point_cloud, four_channels in Hrun. cbn [length seq for_in] in Hrun.
  apply bind_inv in Hrun as (s' & w1 & Hbody & _).
  apply bind_inv in Hbody as (u & w2 & _ & Hbody).
  apply bind_inv in Hbody as (pc & w3 & [Hpc ->]%lift_opt_inv & Hbody).
  apply bind_inv in Hbody as (flat & w4 & [Hflat _]%lift_opt_inv & _).
  simpl in Hpc. injection Hpc as <-. by vm_compute in Hflat.
Qed.

End AugmentationExamples.


(** ** Augmentation: the two random sources *)

Section DistillFacts.
Context {G : Type} `{!RandomState G}.
Local Open Scope R_scope.

Lemma swap_streams_involutive (w : world G) : swap_streams (swap_streams w) = w.
Proof. by destruct w. Qed.

Lemma mirrors_ret {A} (a : A) : mirrors (G:=G) (ret a) (ret a).
Proof. intros w. unfold on_swapped, ret. simpl. by rewrite swap_streams_involutive. Qed.

Lemma mirrors_raise {A} : mirrors (G:=G) (@raise G A) raise.
Proof. intros w. unfold on_swapped, raise. simpl. by rewrite swap_streams_involutive. Qed.

Lemma mirrors_lift_opt {A} (o : option A) : mirrors (G:=G) (lift_opt o) (lift_opt o).
Proof. intros w. unfold on_swapped, lift_opt. simpl. by rewrite swap_streams_involutive. Qed.

Lemma mirrors_bind {A B} (m' m : M G A) (k' k : A -> M G B) :
  mirrors m' m -> (forall a, mirrors (k' a) (k a)) -> mirrors (bind m' k') (bind m k).
Proof.
  intros Hm Hk w. unfold bind. rewrite (Hm w). unfold on_swapped.
  destruct (m (swap_streams w)) as [[a|] w1]; simpl.
  - rewrite (Hk a). unfold on_swapped. by rewrite swap_streams_involutive.
  - done.
Qed.

Lemma mirrors_for_in {A St} (l : list A) (body' body : A -> St -> M G St) :
  (forall x s, mirrors (body' x s) (body x s)) ->
  forall s, mirrors (for_in l body' s) (for_in l body s).
Proof.
  intros Hbody. induction l as [|x l IH]; intros s; simpl.
  - apply mirrors_ret.
  - apply mirrors_bind; [apply Hbody|apply IH].
Qed.

Lemma mirrors_repeatM {A} (n : nat) (m' m : M G A) :
  mirrors m' m -> mirrors (repeatM n m') (repeatM n m).
Proof.
  intros Hm. induction n as [|n IH]; simpl.
  - apply mirrors_ret.
  - apply mirrors_bind; [done|]. intros x.
    apply mirrors_bind; [done|]. intros xs. apply mirrors_ret.
Qed.

Lemma mirrors_aug_rand : mirrors (G:=G) aug_rand np_random_random.
Proof.
  intros w. unfold on_swapped, aug_rand, np_random_random. simpl.
  destruct (random_sample (np_random w)) as [x g]. by destruct w.
Qed.

Lemma mirrors_aug_randn : mirrors (G:=G) aug_randn np_random_randn.
Proof.
  intros w. unfold on_swapped, aug_randn, np_random_randn. simpl.
  destruct (standard_normal (np_random w)) as [x g]. by destruct w.
Qed.

Lemma mirrors_aug_uniform (lo hi : R) :
  mirrors (G:=G) (aug_uniform lo hi) (np_random_uniform lo hi).
Proof. apply mirrors_bind; [apply mirrors_aug_rand|]. intros u. apply mirrors_ret. Qed.

(** When the two generators are in the same state, mirrored computations
    return the same result. *)
Lemma mirrors_same_result {A} (m' m : M G A) (w : world G) :
  mirrors m' m -> np_random w = np_random_global w -> (m' w).1 = (m w).1.
Proof.
  intros Hm Hw. rewrite (Hm w). unfold on_swapped. simpl.
  replace (swap_streams w) with w; [done|]. destruct w. simpl in *. by subst.
Qed.

End DistillFacts.

Section DistillMirrors.
Context {G : Type} `{!RandomState G}.
Context {F : Type} `{!Float F} `{!Cast32 F}.
Local Open Scope R_scope.

Lemma mirrors_random_point_dropout (b : list (list (list F))) (mr : R) :
  mirrors (G:=G) (random_point_dropout_distill b mr) (random_point_dropout b mr).
Proof.
  apply mirrors_for_in. intros k s.
  apply mirrors_bind; [apply mirrors_aug_rand|]. intros u.
  apply mirrors_bind; [apply mirrors_lift_opt|]. intros pc.
  apply mirrors_bind; [apply mirrors_repeatM, mirrors_aug_rand|]. intros rs.
  cbv beta zeta. destruct (decide (0 < _)%nat); [|apply mirrors_ret].
  apply mirrors_bind; [apply mirrors_lift_opt|]. intros first. apply mirrors_ret.
Qed.

Lemma mirrors_random_scale_point_cloud (b : list (list (list F))) (lo hi : R) :
  mirrors (G:=G) (random_scale_point_cloud_distill b lo hi)
    (random_scale_point_cloud b lo hi).
Proof.
  apply mirrors_bind; [apply mirrors_repeatM, mirrors_aug_uniform|]. intros scales.
  apply mirrors_for_in. intros k s.
  apply mirrors_bind; [apply mirrors_lift_opt|]. intros x.
  apply mirrors_bind; [apply mirrors_lift_opt|]. intros pc. apply mirrors_ret.
Qed.

Lemma mirrors_shift_point_cloud (b : list (list (list F))) (range : R) :
  mirrors (G:=G) (shift_point_cloud_distill b range) (shift_point_cloud b range).
Proof.
  apply mirrors_bind; [apply mirrors_repeatM, mirrors_repeatM, mirrors_aug_uniform|].
  intros shifts. apply mirrors_for_in. intros k s.
  apply mirrors_bind; [apply mirrors_lift_opt|]. intros sh.
  apply mirrors_bind; [apply mirrors_lift_opt|]. intros pc.
  apply mirrors_bind; [apply mirrors_lift_opt|]. intros pc'. apply mirrors_ret.
Qed.

Lemma mirrors_rotate_perturbation_point_cloud (b : list (list (list F))) (sigma clip : R) :
  mirrors (G:=G) (rotate_perturbation_point_cloud_distill b sigma clip)
    (rotate_perturbation_point_cloud b sigma clip).
Proof.
  apply mirrors_for_in. intros k s.
  apply mirrors_bind; [apply mirrors_repeatM, mirrors_aug_randn|]. intros zs.
  apply mirrors_bind; [apply mirrors_lift_opt|]. intros pc.
  apply mirrors_bind; [apply mirrors_lift_opt|]. intros flat.
  apply mirrors_bind; [apply mirrors_lift_opt|]. intros target.
  apply mirrors_bind; [apply mirrors_lift_opt|]. intros v. apply mirrors_ret.
Qed.

Lemma mirrors_rotate_point_cloud (b : list (list (list F))) :
  mirrors (G:=G) (rotate_point_cloud_distill b) (rotate_point_cloud b).
Proof.
  apply mirrors_for_in. intros k s.
  apply mirrors_bind; [apply mirrors_aug_uniform|]. intros u.
  apply mirrors_bind; [apply mirrors_lift_opt|]. intros pc.
  apply mirrors_bind; [apply mirrors_lift_opt|]. intros flat.
  apply mirrors_bind; [apply mirrors_lift_opt|]. intros target.
  apply mirrors_bind; [apply mirrors_lift_opt|]. intros v. apply mirrors_ret.
Qed.

End DistillMirrors.

Section DistillClaim.
Context {G : Type} `{!RandomState G} `{!Cast32 R}.
Local Open Scope R_scope.

(** C9.  Each [_distill] variant computes what its counterpart computes, with
    [np_random] in the place of the global stream: from a world in which the
    two generators are in the same state (so that they yield the same
    values), the two return the same batch, or both raise. *)
Theorem distill_variants_agree (b : list (list (list R)))
    (max_dropout_ratio scale_low scale_high shift_range angle_sigma angle_clip : R)
    (w : world G) :
  np_random w = np_random_global w ->
  (random_point_dropout_distill b max_dropout_ratio w).1
    = (random_point_dropout b max_dropout_ratio w).1 /\
  (random_scale_point_cloud_distill b scale_low scale_high w).1
    = (random_scale_point_cloud b scale_low scale_high w).1 /\
  (shift_point_cloud_distill b shift_range w).1
    = (shift_point_cloud b shift_range w).1 /\
  (rotate_perturbation_point_cloud_distill b angle_sigma angle_clip w).1
    = (rotate_perturbation_point_cloud b angle_sigma angle_clip w).1.
Proof.
  intros Hw. split_and!; apply mirrors_same_result; try done.
  - apply mirrors_random_point_dropout.
  - apply mirrors_random_scale_point_cloud.
  - apply mirrors_shift_point_cloud.
  - apply mirrors_rotate_perturbation_point_cloud.
Qed.

End DistillClaim.

Section AugmentationWitnesses.
Local Existing Instance exact_cast.
Local Open Scope R_scope.

Lemma is_batch_five_points : is_batch 1 5 3 five_points.
Proof. split; [done|]. repeat constructor. Qed.

Lemma random_point_dropout_law_witness :
  is_batch 1 5 3 five_points /\
  exists b' w',
    random_point_dropout five_points 2 half_world = (Some b', w') /\
    is_batch 1 5 3 b' /\
    forall k u rs pc,
      (dropout_draws 1 5 (np_random_global half_world)).1 !! k = Some (u, rs) ->
      five_points !! k = Some pc ->
      exists pc', b' !! k = Some pc' /\ length pc' = length pc /\
        (forall i r, rs !! i = Some r -> r <= u * 2 -> pc' !! i = pc !! 0%nat) /\
        (forall i r, rs !! i = Some r -> ~ r <= u * 2 -> pc' !! i = pc !! i) /\
        (u * 2 = 1 -> forall i, (i < 5)%nat -> pc' !! i = pc !! 0%nat).
Proof.
  split; [apply is_batch_five_points|].
  exact (random_point_dropout_law 1 5 3 five_points 2 half_world is_batch_five_points).
Defined.

Lemma augmentation_shape_witness :
  is_batch 1 5 3 five_points /\ 0.05 > 0 /\
  (succeeds (G:=tape) (random_point_dropout five_points 0.875) (is_batch 1 5 3) /\
   succeeds (G:=tape) (random_scale_point_cloud five_points 0.8 1.25) (is_batch 1 5 3) /\
   succeeds (G:=tape) (jitter_point_cloud five_points 0.01 0.05) (is_batch 1 5 3) /\
   (3%nat = 3%nat ->
    succeeds (G:=tape) (shift_point_cloud five_points 0.1) (is_batch 1 5 3) /\
    succeeds (G:=tape) (rotate_point_cloud five_points) (is_batch 1 5 3) /\
    succeeds (G:=tape) (rotate_perturbation_point_cloud five_points 0.06 0.18)
      (is_batch 1 5 3))).
Proof.
  assert (0.05 > 0) as Hclip by lra.
  split; [apply is_batch_five_points|]. split; [exact Hclip|].
  exact (augmentation_shape 1 5 3 five_points 0.875 0.8 1.25 0.1 0.01 0.05 0.06 0.18
           is_batch_five_points Hclip).
Defined.

Lemma distill_variants_agree_witness :
  np_random twin_world = np_random_global twin_world /\
  ((random_point_dropout_distill five_points 0.875 twin_world).1
     = (random_point_dropout five_points 0.875 twin_world).1 /\
   (random_scale_point_cloud_distill five_points 0.8 1.25 twin_world).1
     = (random_scale_point_cloud five_points 0.8 1.25 twin_world).1 /\
   (shift_point_cloud_distill five_points 0.1 twin_world).1
     = (shift_point_cloud five_points 0.1 twin_world).1 /\
   (rotate_perturbation_point_cloud_distill five_points 0.06 0.18 twin_world).1
     = (rotate_perturbation_point_cloud five_points 0.06 0.18 twin_world).1).
Proof.
  split; [reflexivity|].
  exact (distill_variants_agree five_points 0.875 0.8 1.25 0.1 0.06 0.18 twin_world eq_refl).
Defined.

Lemma tape_unit_range (x : R) : 0 <= tape_unit x < 1.
Proof. unfold tape_unit. destruct (decide _); lra. Qed.

Lemma dropout_cloud_forced (mr : R) (pc : list (list R)) (u : R) (rs : list R) :
  length rs = length pc -> Forall (fun r => 0 <= r < 1) rs -> u * mr = 1 ->
  dropout_cloud mr pc u rs = replicate (length pc) (default [] (pc !! 0%nat)).
Proof.
  intros Hlen Hrange Hone. apply list_eq. intros i.
  destruct (decide (i < length pc)%nat) as [Hi|Hi].
  - destruct (lookup_lt_is_Some_2 rs i) as [r Hr]; [lia|].
    rewrite (dropout_cloud_lookup mr pc u rs i r) by done.
    pose proof (proj1 (Forall_lookup _ _) Hrange i r Hr) as Hr01. simpl in Hr01.
    rewrite decide_True by lra. rewrite lookup_replicate_2 by done.
    destruct (lookup_lt_is_Some_2 pc 0%nat) as [first Hfirst]; [lia|]. by rewrite Hfirst.
  - rewrite !lookup_ge_None_2; [done|rewrite length_replicate; lia|].
    unfold dropout_cloud. destruct (decide _); [rewrite assign_rows_length|]; lia.
Qed.

(** The scenario of the forced ratio: with the ratio draw 0.5 and the maximum
    ratio 2 the dropout ratio is 1, and all five points of the cloud become
    the original first point. *)
Lemma dropout_forced_five_points :
  (random_point_dropout five_points 2 half_world).1
  = Some [replicate 5 [1; 2; 3]].
Proof.
  rewrite (random_point_dropout_run 1 5 3) by apply is_batch_five_points.
  simpl. do 2 f_equal.
  rewrite dropout_cloud_forced.
  - done.
  - done.
  - repeat (apply Forall_cons; split; [apply tape_unit_range|]). constructor.
  - unfold tape_unit. rewrite decide_True by lra. lra.
Qed.

End AugmentationWitnesses.

(** ** Dataset adapters: arrays of floats *)

Section FloatFacts.
Local Open Scope R_scope.

Lemma lift_length (pc : list (list R)) : length (lift pc) = length pc.
Proof. unfold lift. by rewrite length_fmap. Qed.

Lemma lift_ncols (pc : list (list R)) : ncols (lift pc) = ncols pc.
Proof. destruct pc as [|r pc]; [done|]. unfold ncols. simpl. by rewrite length_fmap. Qed.

Lemma lift_take (n : nat) (a : list (list R)) : take n <$> lift a = lift (take n <$> a).
Proof.
  unfold lift. rewrite <- !list_fmap_compose. apply list_fmap_ext.
  intros i r _. simpl. by rewrite fmap_take.
Qed.

Lemma lift_rect (D : nat) (pc : list (list R)) : rect D pc -> rect D (lift pc).
Proof.
  intros Hpc. apply Forall_fmap. eapply Forall_impl; [exact Hpc|]. intros r Hr. simpl.
  by rewrite length_fmap.
Qed.

Lemma lift_inj (a b : list (list R)) : lift a = lift b -> a = b.
Proof.
  intros Heq. apply (f_equal as_reals) in Heq.
  assert (forall y : list (list R), as_reals (lift y) = Some y) as Hreals.
  { intros y. unfold as_reals, lift. apply mapM_Some. apply Forall2_fmap_l, Forall_Forall2_diag.
    apply Forall_forall. intros r _. simpl. apply mapM_Some.
    apply Forall2_fmap_l, Forall_Forall2_diag. by apply Forall_forall. }
  rewrite !Hreals in Heq. by injection Heq.
Qed.

Lemma nf_col_sum_lift (D : nat) (pc : list (list R)) :
  foldr (zip_with nf_plus) (replicate D (Fin 0)) (lift pc) = Fin <$> col_sum D pc.
Proof.
  unfold col_sum. induction pc as [|r pc IH]; csimpl.
  - by rewrite fmap_replicate.
  - rewrite IH. clear IH. generalize (foldr (zip_with Rplus) (replicate D 0) pc).
    induction r as [|x r IH]; intros [|y l]; csimpl; [done..|]. by rewrite IH.
Qed.

Lemma nf_sub_rows_lift (pc : list (list R)) (c : list R) :
  (fun r => zip_with nf_minus r (Fin <$> c)) <$> lift pc = lift (sub_rows pc c).
Proof.
  unfold lift, sub_rows. rewrite <- !list_fmap_compose. apply list_fmap_ext.
  intros i r _. simpl. revert c. induction r as [|x r IH]; intros [|y c]; csimpl; [done..|].
  by rewrite IH.
Qed.

Lemma nf_row_norm_lift (r : list R) :
  nf_sqrt (foldr nf_plus (Fin 0) ((fun x => nf_mult x x) <$> (Fin <$> r)))
  = Fin (row_norm r).
Proof.
  assert (foldr nf_plus (Fin 0) ((fun x => nf_mult x x) <$> (Fin <$> r))
          = Fin (np_sum ((fun x => x ^ 2) <$> r))) as ->.
  { unfold np_sum. induction r as [|x r IH]; csimpl; [done|]. rewrite IH. simpl.
    f_equal. ring. }
  unfold nf_sqrt, row_norm. rewrite decide_False; [done|].
  pose proof (sq_sum_nonneg r). lra.
Qed.

Lemma nf_max_lift (x : R) (l : list R) :
  foldl nf_max (Fin x) (Fin <$> l) = Fin (foldl Rmax x l).
Proof. revert x. induction l as [|y l IH]; intros x; csimpl; [done|]. by rewrite IH. Qed.

(** On an array of reals, [pc_normalize_floats] is [pc_normalize]. *)
Lemma pc_normalize_floats_lift (pc : list (list R)) :
  pc_normalize_floats (lift pc) = pc_normalize pc.
Proof.
  destruct (decide (pc = [])) as [->|Hne]; [done|].
  unfold pc_normalize_floats, pc_normalize.
  rewrite lift_length, lift_ncols, nf_col_sum_lift.
  assert ((fun s => nf_div s (Fin (INR (length pc)))) <$> (Fin <$> col_sum (ncols pc) pc)
          = Fin <$> np_mean0 pc) as ->.
  { unfold np_mean0. rewrite <- !list_fmap_compose. apply list_fmap_ext.
    intros i s _. simpl. apply np_div_nonzero. apply not_0_INR.
    destruct pc; [done|]. simpl. lia. }
  rewrite nf_sub_rows_lift.
  set (c := sub_rows pc (np_mean0 pc)).
  assert ((fun r : list npfloat =>
             nf_sqrt (foldr nf_plus (Fin 0) ((fun x => nf_mult x x) <$> r))) <$> lift c
          = Fin <$> (row_norm <$> c)) as ->.
  { unfold lift. rewrite <- !list_fmap_compose. apply list_fmap_ext.
    intros i r _. simpl. apply nf_row_norm_lift. }
  destruct (row_norm <$> c) as [|x l] eqn:Hnorms; [done|].
  csimpl. rewrite nf_max_lift. f_equal.
  unfold lift. rewrite <- !list_fmap_compose. apply list_fmap_ext.
  intros i r _. simpl. rewrite <- list_fmap_compose. by apply list_fmap_ext.
Qed.

Lemma astype_float32_lift `{!Cast32 R} (y : list (list R)) :
  astype_float32 (lift y) = lift (astype_float32 y).
Proof.
  unfold astype_float32, lift. rewrite <- !list_fmap_compose. apply list_fmap_ext.
  intros i r _. simpl. rewrite <- !list_fmap_compose. by apply list_fmap_ext.
Qed.

(** A cast that changes no value changes no array. *)
Lemma astype_float32_exact `{!Cast32 R} (y : list (list R)) :
  (forall x : R, float32 x = x) -> astype_float32 y = y.
Proof.
  intros Hexact. unfold astype_float32. rewrite <- (list_fmap_id y) at 2.
  apply list_fmap_ext. intros i r _. simpl. rewrite <- (list_fmap_id r) at 2.
  apply list_fmap_ext. intros j x _. apply Hexact.
Qed.

End FloatFacts.

(** ** Dataset adapters: the keys of a sample *)

Section SampleKeys.
Context {G : Type} `{!RandomState G} `{!Cast32 R}.
Context {pil image caption feature : Type}.
Local Open Scope string_scope.
Local Open Scope list_scope.

Lemma ret_inv {A} (a b : A) (w w' : world G) : ret a w = (Some b, w') -> b = a /\ w' = w.
Proof. unfold ret. by intros [= -> ->]. Qed.

(** Peel the binds of a run that returned, down to its last step. *)
Ltac last_step H :=
  repeat (apply bind_inv in H as (? & ? & _ & H); cbv beta zeta in H).

(** The sample of [ScanObjectNN.__getitem__] holds the cloud and the label
    of the entry. *)
Lemma ScanObjectNN_sample (self : ScanObjectNN.t (caption:=caption)) (item : nat)
    (w w' : world G) (s : Sample image caption feature) :
  ScanObjectNN.getitem self item w = (Some s, w') ->
  exists pc label,
    ScanObjectNN.data self !! item = Some pc /\
    ScanObjectNN.label self !! item = Some label /\
    s !! "pc" = Some (VTensor (Tensor2 (lift pc))) /\
    s !! "label" = Some (VInt label).
Proof.
  intros H. unfold ScanObjectNN.getitem in H.
  apply bind_inv in H as (pc & w1 & [Hpc ->]%lift_opt_inv & H).
  apply bind_inv in H as (label & w2 & [Hlabel ->]%lift_opt_inv & H).
  last_step H. apply ret_inv in H as [-> _]. by exists pc, label.
Qed.

(** The sample of [ModelNet.__getitem__] holds a tensor of the points and
    the label that [_get_item] returns. *)
Lemma ModelNet_sample (self : ModelNet.t (feature:=feature)) (index : nat)
    (w w' : world G) (s : Sample image caption feature) :
  ModelNet.getitem self index w = (Some s, w') ->
  exists points label w1 pc,
    ModelNet._get_item self index w = (Some (points, label), w1) /\
    s !! "pc" = Some (VTensor (Tensor2 pc)) /\ length pc = length points /\
    s !! "label" = Some (VInt label).
Proof.
  intros H. unfold ModelNet.getitem in H. cbv zeta in H.
  apply bind_inv in H as ([points label] & w1 & Hitem & H). cbv beta zeta in H.
  simpl fst in H. simpl snd in H.
  apply bind_inv in H as (idxs & w2 & Hidxs & H).
  apply bind_inv in H as (rows & w3 & [Hrows ->]%lift_opt_inv & H). cbv beta zeta in H.
  assert (length idxs = length points) as Hlen.
  { destruct (bool_decide _).
    - pose proof (shuffle_perm (seq 0 (length points)) (np_random_global w1)) as Hp.
      destruct (shuffle _ _) as [v g]. injection Hidxs as <- _. simpl in Hp.
      apply Permutation_length in Hp. by rewrite Hp, length_seq.
    - apply ret_inv in Hidxs as [-> _]. apply length_seq. }
  apply mapM_Some_1, Forall2_length in Hrows.
  exists points, label, w1, (astype_float32 rows). split; [done|].
  apply bind_inv in H as (name & w4 & _ & H). cbv beta zeta in H.
  destruct (bool_decide _).
  - last_step H. apply ret_inv in H as [-> _].
    split_and!; [done|unfold astype_float32; rewrite length_fmap; lia|done].
  - apply ret_inv in H as [-> _].
    split_and!; [done|unfold astype_float32; rewrite length_fmap; lia|done].
Qed.

Section ShapeNetKeys.
Context (str_split_comma : string -> list string) (str_strip : string -> string)
        (str_format : string -> string -> option string).

(** The sample that a pass of [ShapeNet.__getitem__] builds holds a tensor
    under "pc" and, under "target", the index of the taxonomy id of the
    entry; it has no key "label". *)
Lemma ShapeNet_pass_sample (self : ShapeNet.t (pil:=pil) (image:=image) (caption:=caption)
                                    (feature:=feature))
    (idx : nat) (w w' : world G) (rtn : Sample image caption feature) :
  ShapeNet.getitem_pass str_split_comma str_strip str_format self idx w
    = (Some (ShapeNet.Built rtn), w') ->
  exists sample index t,
    ShapeNet.file_list self !! idx = Some sample /\
    ShapeNet.index_list self !! ShapeNet.taxonomy_id sample = Some index /\
    rtn !! "taxonomy_id" = Some (VStr (ShapeNet.taxonomy_id sample)) /\
    rtn !! "pc" = Some (VTensor t) /\
    rtn !! "target" = Some (VInt index) /\
    rtn !! "label" = None.
Proof.
  intros H. unfold ShapeNet.getitem_pass in H.
  apply bind_inv in H as (sample & w1 & [Hsample ->]%lift_opt_inv & H).
  do 5 (apply bind_inv in H as (? & ? & _ & H); cbv beta zeta in H).
  apply bind_inv in H as (index & w2 & [Hindex _]%lift_opt_inv & H). cbv beta zeta in H.
  last_step H.
  destruct (_ ≫= _) as [im|]; apply ret_inv in H as [H _]; [|done].
  injection H as ->. exists sample, index. eexists. split_and!; done.
Qed.

(** So does the sample that the loop returns, for the entry of its last
    pass. *)
Lemma ShapeNet_sample (fuel : nat) (self : ShapeNet.t (pil:=pil) (image:=image)
                                   (caption:=caption) (feature:=feature)) :
  forall (idx : nat) (w w' : world G) (rtn : Sample image caption feature),
    ShapeNet.getitem str_split_comma str_strip str_format fuel self idx w
      = (Some (Some rtn), w') ->
    exists sample index t,
      sample ∈ ShapeNet.file_list self /\
      ShapeNet.index_list self !! ShapeNet.taxonomy_id sample = Some index /\
      rtn !! "taxonomy_id" = Some (VStr (ShapeNet.taxonomy_id sample)) /\
      rtn !! "pc" = Some (VTensor t) /\
      rtn !! "target" = Some (VInt index) /\
      rtn !! "label" = None.
Proof.
  induction fuel as [|fuel IH]; intros idx w w' rtn H; simpl in H.
  - by apply ret_inv in H as [? _].
  - apply bind_inv in H as (r & w1 & Hpass & H). destruct r as [rtn'|addr].
    + apply ret_inv in H as [[= ->] _].
      destruct (ShapeNet_pass_sample _ _ _ _ _ Hpass) as (sample & index & t & Hs & Hrest).
      exists sample, index, t. split; [by eapply list_elem_of_lookup_2|done].
    + apply bind_inv in H as (idx' & w2 & _ & H). by eapply IH.
Qed.

End ShapeNetKeys.
End SampleKeys.

(** ** Dataset adapters: a pass of the ShapeNet loop *)

Section PassFacts.
Context {G : Type} `{!RandomState G}.
Local Open Scope R_scope.

Lemma keeps_ret (I : gmap nat ndarray -> Prop) {A} (a : A) (Q : A -> Prop) :
  Q a -> keeps (G:=G) I (ret a) Q.
Proof. intros HQ w Hw. by exists a, w. Qed.

Lemma keeps_lift_opt (I : gmap nat ndarray -> Prop) {A} (o : option A) (a : A) :
  o = Some a -> keeps (G:=G) I (lift_opt o) (fun y => y = a).
Proof. intros -> w Hw. by exists a, w. Qed.

Lemma keeps_bind (I : gmap nat ndarray -> Prop) {A B} (m : M G A) (k : A -> M G B)
    (Q : A -> Prop) (Q' : B -> Prop) :
  keeps I m Q -> (forall a, Q a -> keeps I (k a) Q') -> keeps I (bind m k) Q'.
Proof.
  intros Hm Hk w Hw. destruct (Hm w Hw) as (a & w1 & Hrun & Hw1 & Ha).
  destruct (Hk a Ha w1 Hw1) as (b & w2 & Hrun' & Hw2 & Hb).
  exists b, w2. split_and!; [by rewrite (bind_Some _ _ w w1 a)|done|done].
Qed.

Lemma keeps_weaken (I : gmap nat ndarray -> Prop) {A} (m : M G A) (Q Q' : A -> Prop) :
  (forall a, Q a -> Q' a) -> keeps I m Q -> keeps I m Q'.
Proof.
  intros HQ Hm w Hw. destruct (Hm w Hw) as (a & w1 & Hrun & Hw1 & Ha).
  exists a, w1. auto.
Qed.

Lemma keeps_succeeds (I : gmap nat ndarray -> Prop) {A} (m : M G A) (Q : A -> Prop) :
  succeeds m Q -> keeps I m Q.
Proof.
  intros Hm w Hw. destruct (Hm w) as (a & w' & Hrun & Hmem & Ha).
  exists a, w'. by rewrite Hmem.
Qed.

Lemma succeeds_mirrors {A} (m' m : M G A) (Q : A -> Prop) :
  mirrors m' m -> succeeds m Q -> succeeds m' Q.
Proof.
  intros Hmir Hm w. destruct (Hm (swap_streams w)) as (a & w' & Hrun & Hmem & Ha).
  exists a, (swap_streams w'). rewrite (Hmir w). unfold on_swapped. rewrite Hrun. simpl.
  split_and!; [done| |done]. simpl in Hmem. done.
Qed.

Lemma succeeds_py_random_randint (a : nat) (b : Z) :
  (Z.of_nat a <= b)%Z ->
  succeeds (G:=G) (py_random_randint a b) (fun n => (a <= n <= Z.to_nat b)%nat).
Proof.
  intros Hab w. unfold py_random_randint. rewrite decide_True by done.
  pose proof (randint_range a (Z.to_nat b + 1) (py_random w)) as Hr.
  destruct (randint _ _ _) as [n g]. simpl in Hr.
  exists n, (set_py_random g w). split; [done|]. split; [done|lia].
Qed.

Lemma succeeds_py_random_choice {A} (seq : list A) :
  seq <> [] -> succeeds (G:=G) (py_random_choice seq) (fun x => x ∈ seq).
Proof.
  intros Hne. destruct seq as [|x0 seq]; [done|]. unfold py_random_choice.
  eapply succeeds_bind; [apply succeeds_py_random_randint; simpl length; lia|].
  intros i Hi. destruct (lookup_lt_is_Some_2 (x0 :: seq) i) as [x Hx];
    [cbv beta in Hi; simpl length in *; lia|].
  eapply succeeds_weaken; [|by apply succeeds_lift_opt].
  intros ? ->. by eapply list_elem_of_lookup_2.
Qed.

Lemma as_reals_lift (y : list (list R)) : as_reals (lift y) = Some y.
Proof.
  unfold as_reals, lift. apply mapM_Some. apply Forall2_fmap_l, Forall_Forall2_diag.
  apply Forall_forall. intros r _. simpl. apply mapM_Some.
  apply Forall2_fmap_l, Forall_Forall2_diag. by apply Forall_forall.
Qed.

Lemma of_floats_lift (y : list (list R)) : of_floats (lift y) = Float2 y.
Proof. unfold of_floats. by rewrite as_reals_lift. Qed.

Lemma load_floats_Some (w : world G) (l : nat) (a : list (list R)) :
  mem w !! l = Some (Float2 a) -> load_floats l w = (Some (lift a), w).
Proof. intros H. unfold load_floats, bind, load. by rewrite H. Qed.

(** The rows at a permutation of the indices of an array. *)
Lemma rows_at_permutation {X} (data : list (list X)) (p : list nat) :
  p ≡ₚ seq 0 (length data) ->
  exists rows, mapM (fun i => data !! i) p = Some rows /\
    length rows = length data /\ (forall r, r ∈ rows <-> r ∈ data).
Proof.
  intros Hp.
  assert (forall i, i ∈ p <-> (i < length data)%nat) as Hin.
  { intros i. rewrite Hp, elem_of_seq. lia. }
  exists ((fun i => default [] (data !! i)) <$> p). split_and!.
  - apply mapM_Some, Forall2_fmap_r, Forall_Forall2_diag, Forall_forall.
    intros i Hi%Hin. destruct (lookup_lt_is_Some_2 data i Hi) as [r Hr]. simpl.
    by rewrite Hr.
  - rewrite length_fmap. apply Permutation_length in Hp. by rewrite Hp, length_seq.
  - intros r. rewrite list_elem_of_fmap. split.
    + intros (i & -> & Hi%Hin). destruct (lookup_lt_is_Some_2 data i Hi) as [r Hr].
      rewrite Hr. simpl. by eapply list_elem_of_lookup_2.
    + intros [i Hi]%list_elem_of_lookup. exists i. rewrite Hi. split; [done|].
      apply Hin. by eapply lookup_lt_Some.
Qed.

(** The rows at indices of an array that are all in range. *)
Lemma rows_at_indices {X} (data : list (list X)) (l : list nat) :
  Forall (fun i => (i < length data)%nat) l ->
  exists rows, mapM (fun i => data !! i) l = Some rows /\
    length rows = length l /\ Forall (fun r => r ∈ data) rows.
Proof.
  intros Hl. exists ((fun i => default [] (data !! i)) <$> l). split_and!.
  - apply mapM_Some, Forall2_fmap_r, Forall_Forall2_diag.
    eapply Forall_impl; [exact Hl|]. intros i Hi. simpl in *.
    destruct (lookup_lt_is_Some_2 data i Hi) as [r Hr]. by rewrite Hr.
  - by rewrite length_fmap.
  - apply Forall_fmap. eapply Forall_impl; [exact Hl|]. intros i Hi. simpl in *.
    destruct (lookup_lt_is_Some_2 data i Hi) as [r Hr]. rewrite Hr. simpl.
    by eapply list_elem_of_lookup_2.
Qed.

Lemma mapM_lookup_seq {A} (l : list A) :
  mapM (fun i => l !! i) (seq 0 (length l)) = Some l.
Proof.
  apply mapM_Some. apply Forall2_same_length_lookup_2; [by rewrite length_seq|].
  intros i j x Hj Hx. apply lookup_seq in Hj as [-> _]. done.
Qed.

Lemma nondegenerate_length (pc : list (list R)) : nondegenerate pc -> (2 <= length pc)%nat.
Proof.
  intros (r1 & r2 & H1 & H2 & Hne).
  destruct pc as [|a [|b pc]]; simpl; [by apply elem_of_nil in H1| |lia].
  apply list_elem_of_singleton in H1, H2. congruence.
Qed.

(** [pc_normalize] returns an array of the shape of its argument, whatever
    its floats are. *)
Lemma pc_normalize_shape (D : nat) (pc : list (list R)) :
  rect D pc -> pc <> [] ->
  exists y, pc_normalize pc = Some y /\ length y = length pc /\ rect D y.
Proof.
  intros Hpc Hne. unfold pc_normalize.
  destruct (np_max_is_Some (row_norm <$> sub_rows pc (np_mean0 pc))) as [m Hm].
  { unfold sub_rows. by destruct pc. }
  rewrite Hm. simpl. eexists. split; [done|]. split.
  - unfold sub_rows. by rewrite !length_fmap.
  - apply Forall_fmap.
    eapply Forall_impl; [apply (rect_sub_rows D); [done|by apply np_mean0_length]|].
    intros r Hr. simpl in *. by rewrite length_fmap.
Qed.

(** [squeeze] on a batch of one cloud: a 2-D array unless the cloud has one
    point. *)
Lemma squeeze_batch (N : nat) (b : list (list (list npfloat))) :
  is_batch 1 N 3 b ->
  exists t, squeeze b = Some t /\
    ((2 <= N)%nat -> exists pc, t = Tensor2 pc /\ length pc = N /\ rect 3 pc).
Proof.
  intros [Hlen Hall]. destruct b as [|pc [|? ?]]; try done.
  apply Forall_cons in Hall as [[HpcN HpcC] _].
  destruct pc as [|r [|r' pc]].
  - eexists. split; [done|]. intros _. by eexists.
  - eexists. split; [done|]. simpl in HpcN. lia.
  - eexists. split; [done|]. intros _. by eexists.
Qed.

Lemma append_height_total `{!Float F} (N C : nat) (data : list (list F)) :
  length data = N -> rect C data -> (1 <= N)%nat -> (2 <= C)%nat ->
  is_Some (append_height data).
Proof.
  intros HN HC HN1 HC2. unfold append_height.
  destruct data as [|r data]; [simpl in HN; lia|].
  apply Forall_cons in HC as [Hr _].
  destruct r as [|x [|y r]]; simpl in Hr; try lia.
  simpl. by eexists.
Qed.

Lemma append_rgb_shape `{!Float F} (N C : nat) (data : list (list F)) :
  length data = N -> rect C data ->
  length (append_rgb data) = N /\ rect (C + C) (append_rgb data).
Proof.
  intros HN HC. unfold append_rgb. split.
  - rewrite length_zip_with, length_fmap. lia.
  - clear HN. induction HC as [|r data Hr _ IH]; [constructor|].
    csimpl. constructor; [|exact IH]. rewrite length_app, length_fmap. lia.
Qed.

(** The augmentations of a pass, on a normalised cloud, whatever its
    floats. *)
Lemma augment_pass `{!Cast32 R} (N : nat) (y : list (list npfloat)) :
  length y = N -> rect 3 y ->
  succeeds (G:=G)
    (let! data := random_point_dropout [y] 0.875 in
     let! data := random_scale_point_cloud data 0.8 1.25 in
     let! data := shift_point_cloud data 0.1 in
     let! data := rotate_perturbation_point_cloud data 0.06 0.18 in
     let! data := rotate_point_cloud data in
     lift_opt (squeeze data))
    (fun t => (2 <= N)%nat -> exists pc, t = Tensor2 pc /\ length pc = N /\ rect 3 pc) /\
  succeeds (G:=G)
    (let! data := random_point_dropout_distill [y] 0.875 in
     let! data := random_scale_point_cloud_distill data 0.8 1.25 in
     let! data := shift_point_cloud_distill data 0.1 in
     let! data := rotate_perturbation_point_cloud_distill data 0.06 0.18 in
     let! data := rotate_point_cloud data in
     lift_opt (squeeze data))
    (fun t => (2 <= N)%nat -> exists pc, t = Tensor2 pc /\ length pc = N /\ rect 3 pc).
Proof.
  intros HN HC.
  assert (is_batch 1 N 3 [y]) as Hb by (split; [done|by repeat constructor]).
  assert (forall b : list (list (list npfloat)), is_batch 1 N 3 b ->
            succeeds (G:=G) (lift_opt (squeeze b))
              (fun t => (2 <= N)%nat ->
                        exists pc, t = Tensor2 pc /\ length pc = N /\ rect 3 pc))
    as Hsq.
  { intros b Hb'. destruct (squeeze_batch N b Hb') as (t & Ht & HtN).
    eapply succeeds_weaken; [|by apply succeeds_lift_opt]. by intros ? ->. }
  split.
  - eapply succeeds_bind; [by apply random_point_dropout_shape|]. intros b1 Hb1.
    eapply succeeds_bind; [by apply random_scale_point_cloud_shape|]. intros b2 Hb2.
    eapply succeeds_bind; [by apply shift_point_cloud_shape|]. intros b3 Hb3.
    eapply succeeds_bind; [by apply rotate_perturbation_point_cloud_shape|]. intros b4 Hb4.
    eapply succeeds_bind; [by apply rotate_point_cloud_shape|]. intros b5 Hb5.
    by apply Hsq.
  - eapply succeeds_bind.
    { eapply succeeds_mirrors; [apply mirrors_random_point_dropout|].
      by apply random_point_dropout_shape. }
    intros b1 Hb1. eapply succeeds_bind.
    { eapply succeeds_mirrors; [apply mirrors_random_scale_point_cloud|].
      by apply random_scale_point_cloud_shape. }
    intros b2 Hb2. eapply succeeds_bind.
    { eapply succeeds_mirrors; [apply mirrors_shift_point_cloud|].
      by apply shift_point_cloud_shape. }
    intros b3 Hb3. eapply succeeds_bind.
    { eapply succeeds_mirrors; [apply mirrors_rotate_perturbation_point_cloud|].
      by apply rotate_perturbation_point_cloud_shape. }
    intros b4 Hb4.
    eapply succeeds_bind; [by apply rotate_point_cloud_shape|]. intros b5 Hb5.
    by apply Hsq.
Qed.

End PassFacts.

Section RandomSample.
Context {G : Type} `{!RandomState G} `{!Cast32 R}.
Context {pil image caption feature : Type}.
Context (self : ShapeNet.t (pil:=pil) (image:=image) (caption:=caption) (feature:=feature)).
Local Open Scope list_scope.

Lemma rows_at_default {X} (data : list (list X)) (l : list nat) (rows : list (list X)) :
  mapM (fun i => data !! i) l = Some rows ->
  rows = (fun i => default [] (data !! i)) <$> l.
Proof.
  intros Hrows%mapM_Some_1. induction Hrows as [|i r l rows Hi _ IH]; [done|].
  csimpl. by rewrite Hi, IH.
Qed.

(** The rows at a prefix of a permutation of the indices: a selection of
    rows in which no index occurs twice. *)
Lemma rows_at_prefix {X} (data : list (list X)) (p : list nat) (num : nat) :
  p ≡ₚ seq 0 (length data) ->
  exists rows, mapM (fun i => data !! i) (take num p) = Some rows /\
    length rows = (num `min` length data)%nat /\ rows ⊆+ data.
Proof.
  intros Hp.
  assert (forall i, i ∈ p -> (i < length data)%nat) as Hin.
  { intros i. rewrite Hp, elem_of_seq. lia. }
  destruct (mapM (fun i => data !! i) (take num p)) as [rows|] eqn:Hrows.
  - exists rows. split; [done|].
    pose proof (rows_at_default _ _ _ Hrows) as ->.
    pose proof (rows_at_default _ _ _ (mapM_lookup_seq data)) as Hdata.
    split.
    + rewrite length_fmap, length_take. apply Permutation_length in Hp.
      rewrite Hp, length_seq. done.
    + assert ((fun i => default [] (data !! i)) <$> take num p
              ⊆+ (fun i => default [] (data !! i)) <$> seq 0 (length data)) as Hsub.
      { apply fmap_submseteq. rewrite <- Hp. apply submseteq_take. }
      by rewrite <- Hdata in Hsub.
  - apply mapM_None_1, Exists_exists in Hrows as (i & Hi & Hnone).
    apply lookup_ge_None in Hnone.
    assert (i ∈ p) as Hi' by (eapply elem_of_submseteq; [exact Hi|apply submseteq_take]).
    apply Hin in Hi'. lia.
Qed.

Lemma random_sample_shuffles (w : world G) (p : list nat) :
  mem w !! ShapeNet.permutation self = Some (Int1 p) ->
  exists p' w1,
    p' ≡ₚ p /\ mem w1 = <[ShapeNet.permutation self := Int1 p']> (mem w) /\
    (forall data num,
       ShapeNet.random_sample self data num w
       = (mapM (fun i => data !! i) (take num p'), w1)).
Proof.
  intros Hp.
  set (shuffled := if ShapeNet.distill self then shuffle p (np_random w)
                   else shuffle p (np_random_global w)).
  set (w1 := if ShapeNet.distill self
             then set_mem (<[ShapeNet.permutation self := Int1 shuffled.1]> (mem w))
                    (set_np_random shuffled.2 w)
             else set_mem (<[ShapeNet.permutation self := Int1 shuffled.1]> (mem w))
                    (set_np_random_global shuffled.2 w)).
  assert (mem w1 = <[ShapeNet.permutation self := Int1 shuffled.1]> (mem w)) as Hmem1.
  { unfold w1. by destruct (ShapeNet.distill self). }
  exists shuffled.1, w1. split_and!; [|done|].
  { unfold shuffled. destruct (ShapeNet.distill self); by rewrite shuffle_perm. }
  intros data num. unfold ShapeNet.random_sample.
  rewrite (bind_Some _ _ w w1 tt).
  2:{ unfold w1, shuffled. destruct (ShapeNet.distill self);
        unfold aug_shuffle, np_random_shuffle; rewrite Hp; by destruct (shuffle _ _). }
  rewrite (bind_Some _ _ w1 w1 shuffled.1).
  2:{ unfold load_int. rewrite (bind_Some _ _ w1 w1 (Int1 shuffled.1)); [done|].
      unfold load. by rewrite Hmem1, lookup_insert_eq. }
  done.
Qed.

(** X13.  [ShapeNet.random_sample] selects without repetition: when
    [self.permutation] holds a permutation of the indices of the cloud, the
    result has [num] rows, no row of the cloud is taken more often than it
    occurs, and with [num] the size of the cloud the result is the cloud in
    another order.  [self.permutation] is left a permutation. *)
Theorem random_sample_without_replacement (data : list (list R)) (num : nat) (w : world G) :
  ShapeNet.permutation_ok self (length data) (mem w) ->
  (num <= length data)%nat ->
  exists rows w',
    ShapeNet.random_sample self data num w = (Some rows, w') /\
    length rows = num /\ rows ⊆+ data /\
    (num = length data -> rows ≡ₚ data) /\
    ShapeNet.permutation_ok self (length data) (mem w').
Proof.
  intros (p & Hp & Hperm) Hnum.
  destruct (random_sample_shuffles w p Hp) as (p' & w1 & Hp' & Hmem1 & Hrun).
  assert (p' ≡ₚ seq 0 (length data)) as Hperm' by by rewrite Hp'.
  destruct (rows_at_prefix data p' num Hperm') as (rows & Hrows & Hlen & Hsub).
  exists rows, w1. rewrite Hrun, Hrows. split_and!; [done|lia|done| |].
  - intros ->. apply submseteq_length_Permutation; [done|lia].
  - exists p'. by rewrite Hmem1, lookup_insert_eq.
Qed.

Lemma random_sample_undersized (data : list (list R)) (num : nat) (w : world G) :
  ShapeNet.permutation_ok self num (mem w) ->
  (length data < num)%nat ->
  exists w', ShapeNet.random_sample self data num w = (None, w').
Proof.
  intros (p & Hp & Hperm) Hnum.
  destruct (random_sample_shuffles w p Hp) as (p' & w1 & Hp' & Hmem1 & Hrun).
  exists w1. rewrite Hrun. f_equal. apply mapM_None_2, Exists_exists.
  assert (length p' = num) as Hlen.
  { apply Permutation_length in Hp', Hperm. rewrite Hp', Hperm. apply length_seq. }
  exists (length data). split.
  - rewrite take_ge by lia. rewrite Hp', Hperm. apply elem_of_seq. lia.
  - by apply lookup_ge_None.
Qed.

Section Undersized.
Context (str_split_comma : string -> list string) (str_strip : string -> string)
        (str_format : string -> string -> option string).

(** X14.  A cloud with fewer points than [sample_points_num] makes
    [ShapeNet.__getitem__] raise: [random_sample] indexes the cloud beyond its
    end, outside the [try] statement, so the retry loop does not catch it. *)
Theorem getitem_undersized_raises (idx : nat) (sample : ShapeNet.file_entry)
    (data : list (list R)) (fuel : nat) (w : world G) :
  ShapeNet.file_list self !! idx = Some sample ->
  ShapeNet.io_get self (ShapeNet.file_path sample) = Some data ->
  (length data < ShapeNet.sample_points_num self)%nat ->
  ShapeNet.permutation_ok self (ShapeNet.sample_points_num self) (mem w) ->
  (ShapeNet.getitem str_split_comma str_strip str_format (S fuel) self idx w).1 = None.
Proof.
  intros Hfile Hio Hlt Hperm.
  destruct (random_sample_undersized data _ w Hperm Hlt) as [w1 Hrun].
  assert (ShapeNet.getitem_pass str_split_comma str_strip str_format self idx w = (None, w1))
    as Hpass.
  { unfold ShapeNet.getitem_pass.
    rewrite (bind_Some _ _ w w sample) by (unfold lift_opt; by rewrite Hfile).
    rewrite (bind_Some _ _ w w data) by (unfold lift_opt; by rewrite Hio).
    rewrite (bool_decide_eq_false_2 (_ < _)%nat) by lia. rewrite andb_false_r.
    by rewrite (bind_None _ _ w w1). }
  simpl. by rewrite (bind_None _ _ w w1).
Qed.

End Undersized.

End RandomSample.

Section PassTotal.
Context {G : Type} `{!RandomState G} `{!Cast32 R}.
Context {pil image caption feature : Type}.
Context (str_split_comma : string -> list string) (str_strip : string -> string)
        (str_format : string -> string -> option string).
Context (self : ShapeNet.t (pil:=pil) (image:=image) (caption:=caption) (feature:=feature)).
Local Open Scope string_scope.
Local Open Scope list_scope.

Local Abbreviation num := (ShapeNet.sample_points_num self).
Local Abbreviation permutation_ok := (ShapeNet.permutation_ok self num).

(** Either way of sampling returns [sample_points_num] rows of a cloud that
    has as many, and leaves [self.permutation] a permutation. *)
Lemma sampling_keeps (data : list (list R)) :
  rect 3 data -> (num <= length data)%nat ->
  keeps permutation_ok
    (if ShapeNet.uniform self && bool_decide (num < length data)%nat then
       let! p := alloc (Float2 data) in
       let! q := farthest_point_sample p num in
       load2 q
     else ShapeNet.random_sample self data num)
    (fun rows => length rows = num /\ rect 3 rows).
Proof.
  intros Hrect Hnum w (perm & Hperm & Hp).
  assert (forall rows : list (list R), Forall (fun r => r ∈ data) rows -> rect 3 rows)
    as Hrows.
  { intros rows Hall. eapply Forall_impl; [exact Hall|].
    intros r Hr. exact (proj1 (Forall_forall _ _) Hrect r Hr). }
  destruct (ShapeNet.uniform self && bool_decide (num < length data)%nat) eqn:Hbranch.
  - apply andb_true_iff in Hbranch as [_ Hlt%bool_decide_eq_true].
    set (p := fresh (dom (mem w))).
    set (w1 := set_mem (<[p := Float2 data]> (mem w)) w).
    assert (mem w1 !! p = Some (Float2 data)) as Hmem1 by apply lookup_insert_eq.
    destruct (fps_run w1 p num data Hmem1) as (idxs & q & w2 & _ & Hlen & Hall & Hrun & Hq).
    { intros ->. simpl in Hlt. lia. }
    destruct (safe_farthest_point_sample w1 p num w1 (frame_inv_refl w1)) as [Hframe _].
    rewrite Hrun in Hframe. simpl in Hframe.
    eexists _, w2. split_and!.
    + rewrite (bind_Some _ _ w w1 p) by done.
      rewrite (bind_Some _ _ w1 w2 q) by done. by apply load2_Some.
    + exists perm. split; [|done].
      assert (ShapeNet.permutation self ∈ dom (mem w)) as Hdom by (apply elem_of_dom; by eexists).
      assert (ShapeNet.permutation self <> p) as Hne.
      { intros Heq. apply (is_fresh (dom (mem w))). fold p. by rewrite <- Heq. }
      rewrite Hframe.
      * simpl. by rewrite lookup_insert_ne.
      * simpl. apply elem_of_dom. rewrite lookup_insert_ne by done. by eexists.
    + by rewrite length_fmap.
    + apply Hrows, Forall_fmap. eapply Forall_impl; [exact Hall|].
      intros i Hi. simpl in *. destruct (lookup_lt_is_Some_2 data i Hi) as [r Hr].
      rewrite Hr. simpl. by eapply list_elem_of_lookup_2.
  - destruct (random_sample_shuffles self w perm Hperm) as (p' & w1 & Hp' & Hmem1 & Hrun).
    assert (p' ≡ₚ seq 0 num) as Hperm' by by rewrite Hp'.
    assert (take num p' = p') as Htake.
    { apply take_ge. apply Permutation_length in Hperm'. rewrite Hperm', length_seq. lia. }
    destruct (rows_at_indices data p') as (rows & Hrun' & Hlen & Hall).
    { apply Forall_forall. intros i Hi. rewrite Hperm' in Hi. apply elem_of_seq in Hi. lia. }
    exists rows, w1. rewrite Hrun, Htake, Hrun'. split_and!; [done| | |by apply Hrows].
    + exists p'. by rewrite Hmem1, lookup_insert_eq.
    + apply Permutation_length in Hperm'. rewrite Hlen, Hperm'. apply length_seq.
Qed.

(** What follows the augmentation, on a tensor of the shape it leaves. *)
Lemma finish_tensor (t : tensor) :
  (1 <= num)%nat ->
  (ShapeNet.use_height self = true ->
   exists pc, t = Tensor2 pc /\ length pc = num /\ rect 3 pc) ->
  is_Some (if ShapeNet.use_height self
           then tensor_append_height
                  (if ShapeNet.with_color self then tensor_append_rgb t else t)
           else Some (if ShapeNet.with_color self then tensor_append_rgb t else t)).
Proof.
  intros Hnum Ht. destruct (ShapeNet.use_height self); [|by eexists].
  destruct Ht as (pc & -> & Hlen & Hrect); [done|].
  destruct (ShapeNet.with_color self); simpl.
  - destruct (append_rgb_shape num 3 pc Hlen Hrect) as [Hlen' Hrect'].
    destruct (append_height_total num (3 + 3) (append_rgb pc)) as [h Hh];
      [done|done|done|lia|]. rewrite Hh. by eexists.
  - destruct (append_height_total num 3 pc) as [h Hh]; [done|done|done|lia|].
    rewrite Hh. by eexists.
Qed.

(** On a dataset whose entries can all be processed, a pass at a valid index
    reaches the [try] statement and ends as the image load decides. *)
Lemma getitem_pass_total (idx : nat) :
  dataset_ok str_split_comma str_strip str_format self ->
  (idx < length (ShapeNet.file_list self))%nat ->
  keeps permutation_ok
    (ShapeNet.getitem_pass str_split_comma str_strip str_format self idx)
    (fun r => match r with
              | ShapeNet.Built rtn =>
                  exists addr, is_Some (ShapeNet.pil_loader self addr
                                        ≫= ShapeNet.train_transform self)
              | ShapeNet.Corrupted addr =>
                  ShapeNet.pil_loader self addr ≫= ShapeNet.train_transform self = None
              end).
Proof.
  intros (Hnum & Hheight & Htemplates & Hdegrees & Htypes & Hformat & Htokenizer & Hentries)
         Hidx.
  destruct (lookup_lt_is_Some_2 _ _ Hidx) as [sample Hsample].
  destruct (proj1 (Forall_lookup _ _) Hentries idx sample Hsample)
    as ((data & Hio & Hrect & Hlen) & [index Hindex] & (names & Hnames & Hcaptions) & Hfeatures).
  unfold ShapeNet.getitem_pass.
  eapply keeps_bind; [by apply keeps_lift_opt|]. intros ? ->.
  eapply keeps_bind; [by apply keeps_lift_opt|]. intros ? ->.
  eapply keeps_bind; [by apply sampling_keeps|]. intros rows [Hrlen Hrrect].
  destruct (pc_normalize_shape 3 rows Hrrect) as (y & Hy & Hylen & Hyrect).
  { intros ->. simpl in Hrlen. lia. }
  change (ShapeNet.pc_norm rows) with (pc_normalize rows). rewrite Hy.
  eapply keeps_bind; [by apply keeps_lift_opt|]. intros ? ->.
  rewrite Hrlen in Hylen.
  destruct (augment_pass num y Hylen Hyrect) as [Hplain Hdistill].
  eapply (keeps_bind _ _ _
            (fun t => ShapeNet.use_height self = true ->
                      exists pc, t = Tensor2 pc /\ length pc = num /\ rect 3 pc)).
  { destruct (ShapeNet.augment self) eqn:Haug.
    - destruct (ShapeNet.distill self);
        (eapply keeps_weaken; [|by apply keeps_succeeds]);
        intros t Ht Hh; apply Ht; by apply Hheight.
    - apply keeps_ret. intros _. by exists y. }
  intros t Ht. cbv zeta.
  destruct (finish_tensor t Hnum Ht) as [final Hfinal].
  eapply (keeps_bind _ _ _ (fun _ => True)).
  { destruct (ShapeNet.use_height self); [|by apply keeps_ret].
    eapply keeps_succeeds, succeeds_weaken; [|by apply succeeds_lift_opt]. done. }
  intros ? _.
  eapply keeps_bind; [by apply keeps_lift_opt|]. intros ? ->.
  eapply keeps_bind; [by apply keeps_lift_opt|]. intros ? ->.
  eapply keeps_bind; [by apply keeps_succeeds, succeeds_py_random_choice|]. intros cap _.
  eapply keeps_bind; [by apply keeps_succeeds, succeeds_py_random_choice|]. intros tpl _.
  destruct (Hformat tpl cap) as [formatted Hformatted].
  eapply keeps_bind; [by apply keeps_lift_opt|]. intros ? ->.
  destruct (Htokenizer formatted) as [tokens Htokens].
  eapply keeps_bind; [by apply keeps_lift_opt|]. intros ? ->.
  eapply keeps_bind; [by apply keeps_succeeds, succeeds_py_random_choice|]. intros deg _.
  eapply keeps_bind; [by apply keeps_succeeds, succeeds_py_random_choice|]. intros ty _.
  eapply (keeps_bind _ _ _ (fun _ => True)).
  { destruct (bool_decide (ShapeNet.subset self = "train")
              && bool_decide (ShapeNet.text_embed_dim self = 1536%nat)) eqn:Hbranch;
      [|by apply keeps_ret].
    apply andb_true_iff in Hbranch as [Htrain%bool_decide_eq_true Hdim%bool_decide_eq_true].
    destruct (Hfeatures Htrain Hdim) as (features & Hload & Hne).
    eapply keeps_bind; [by apply keeps_lift_opt|]. intros ? ->.
    eapply keeps_bind.
    { apply keeps_succeeds, succeeds_py_random_randint.
      destruct features; [done|]. simpl length. lia. }
    intros i Hi. cbv beta in Hi.
    destruct (lookup_lt_is_Some_2 features i) as [f Hf].
    { destruct features; [done|]. simpl length in *. lia. }
    eapply keeps_bind; [by apply keeps_lift_opt|]. intros ? ->. by apply keeps_ret. }
  intros tf _.
  destruct (_ ≫= _) as [im|] eqn:Himage; apply keeps_ret.
  - eexists. by rewrite Himage.
  - done.
Qed.

End PassTotal.

(** ** Dataset adapters: the claims *)

Section AdapterClaims.
Context {G : Type} `{!RandomState G} `{!Cast32 R}.
Context {pil image caption feature : Type}.
Context (str_split_comma : string -> list string) (str_strip : string -> string)
        (str_format : string -> string -> option string).
Local Open Scope string_scope.
Local Open Scope list_scope.

Local Abbreviation pass := (ShapeNet.getitem_pass str_split_comma str_strip str_format).
Local Abbreviation getitem := (ShapeNet.getitem str_split_comma str_strip str_format).
Local Abbreviation well_formed := (dataset_ok str_split_comma str_strip str_format).



Section Retry.
Context (self : ShapeNet.t (pil:=pil) (image:=image) (caption:=caption) (feature:=feature)).
Hypothesis Hok : well_formed self.

Local Abbreviation permutation_ok :=
  (ShapeNet.permutation_ok self (ShapeNet.sample_points_num self)).
Local Abbreviation redraw :=
  (py_random_randint (G:=G) 0 (Z.of_nat (length (ShapeNet.file_list self)) - 1)).

(** The index drawn after a failed pass is a valid one. *)
Lemma redraw_valid (idx : nat) (w : world G) :
  (idx < length (ShapeNet.file_list self))%nat ->
  exists idx' w', redraw w = (Some idx', w') /\ mem w' = mem w /\
    (idx' < length (ShapeNet.file_list self))%nat.
Proof.
  intros Hidx.
  destruct (succeeds_py_random_randint (G:=G) 0
              (Z.of_nat (length (ShapeNet.file_list self)) - 1)) with (w := w)
    as (idx' & w' & Hdraw & Hmem & Hrange); [lia|].
  exists idx', w'. split_and!; [done|done|lia].
Qed.


(** A pass at a valid index does not raise.  When its image loads, the call
    returns the sample of that pass; when it does not, the call goes on as a
    call at a valid index drawn afresh, from the world that the failed pass
    and the draw have left. *)
Lemma getitem_step (idx : nat) (w : world G) :
  (idx < length (ShapeNet.file_list self))%nat -> permutation_ok (mem w) ->
  exists r w1,
    pass self idx w = (Some r, w1) /\ permutation_ok (mem w1) /\
    match r with
    | ShapeNet.Built rtn =>
        forall fuel, getitem (S fuel) self idx w = (Some (Some rtn), w1)
    | ShapeNet.Corrupted addr =>
        ShapeNet.pil_loader self addr ≫= ShapeNet.train_transform self = None /\
        exists idx' w2,
          redraw w1 = (Some idx', w2) /\
          (idx' < length (ShapeNet.file_list self))%nat /\ permutation_ok (mem w2) /\
          forall fuel, getitem (S fuel) self idx w = getitem fuel self idx' w2
    end.
Proof.
  intros Hidx Hw.
  destruct (getitem_pass_total str_split_comma str_strip str_format self idx Hok Hidx w Hw)
    as (r & w1 & Hpass & Hw1 & Hr).
  exists r, w1. split; [done|]. split; [done|]. destruct r as [rtn|addr].
  - intros fuel. simpl. by rewrite (bind_Some _ _ _ _ _ Hpass).
  - split; [done|].
    destruct (redraw_valid idx w1 Hidx) as (idx' & w2 & Hdraw & Hmem & Hidx').
    exists idx', w2. split_and!; [done|done|by rewrite Hmem|].
    intros fuel. simpl. rewrite (bind_Some _ _ _ _ _ Hpass).
    by rewrite (bind_Some _ _ _ _ _ Hdraw).
Qed.


End Retry.



(** C2 (amended).  The sample returned by [ModelNet.__getitem__] holds, under
    "pc", a tensor of the points that [_get_item] returns and, under "label",
    the label that it returns; the sample returned by
    [ScanObjectNN.__getitem__] holds the cloud and the label of the entry
    under "pc" and "label"; the sample returned by [ShapeNet.__getitem__]
    holds a tensor under "pc" and carries the class index of its entry, the
    index of its taxonomy id, under "target": it has no key "label". *)
Theorem labeled_sample_keys :
  (forall (self : ModelNet.t (feature:=feature)) index (w w' : world G)
          (s : Sample image caption feature),
     ModelNet.getitem self index w = (Some s, w') ->
     exists points label w1 pc,
       ModelNet._get_item self index w = (Some (points, label), w1) /\
       s !! "pc" = Some (VTensor (Tensor2 pc)) /\ length pc = length points /\
       s !! "label" = Some (VInt label)) /\
  (forall (self : ScanObjectNN.t (caption:=caption)) item (w w' : world G)
          (s : Sample image caption feature),
     ScanObjectNN.getitem self item w = (Some s, w') ->
     exists pc label,
       ScanObjectNN.data self !! item = Some pc /\
       ScanObjectNN.label self !! item = Some label /\
       s !! "pc" = Some (VTensor (Tensor2 (lift pc))) /\
       s !! "label" = Some (VInt label)) /\
  (forall (self : ShapeNet.t (pil:=pil) (image:=image) (caption:=caption)
                    (feature:=feature)) fuel idx (w w' : world G)
          (s : Sample image caption feature),
     getitem fuel self idx w = (Some (Some s), w') ->
     exists sample index t,
       sample ∈ ShapeNet.file_list self /\
       ShapeNet.index_list self !! ShapeNet.taxonomy_id sample = Some index /\
       s !! "taxonomy_id" = Some (VStr (ShapeNet.taxonomy_id sample)) /\
       s !! "pc" = Some (VTensor t) /\
       s !! "target" = Some (VInt index) /\
       s !! "label" = None).
Proof.
  split_and!.
  - intros. by eapply ModelNet_sample.
  - intros. by eapply ScanObjectNN_sample.
  - intros. by eapply ShapeNet_sample.
Qed.

End AdapterClaims.

Section AdapterExamples.
Local Existing Instance exact_cast.
Local Open Scope string_scope.
Local Open Scope list_scope.
Local Open Scope R_scope.

Lemma toy_data_nondegenerate : nondegenerate [[0; 0; 0]; [1; 0; 0]].
Proof.
  exists [0; 0; 0], [1; 0; 0]. split_and!.
  - apply list_elem_of_here.
  - apply list_elem_of_further, list_elem_of_here.
  - intros [= H]. lra.
Qed.

Lemma toy_data_rect : rect 3 [[0; 0; 0]; [1; 0; 0]].
Proof. by repeat constructor. Qed.

(** The one-entry ShapeNet can process its entry, whatever its loader. *)
Lemma toy_shapenet_ok (loader : string -> option unit) :
  dataset_ok toy_split toy_strip toy_format (toy_shapenet loader).
Proof.
  split_and!; try done.
  - simpl. lia.
  - constructor; [|constructor]. split_and!.
    + exists [[0; 0; 0]; [1; 0; 0]]. split_and!; [done|apply toy_data_rect|simpl; lia].
    + eexists. apply lookup_singleton_eq.
    + eexists. split; [apply lookup_singleton_eq|]. by vm_compute.
    + intros _ Hdim. simpl in Hdim. lia.
Qed.

Lemma toy_world_permutation_ok (loader : string -> option unit) :
  ShapeNet.permutation_ok (toy_shapenet loader) 2 (mem toy_world).
Proof. exists [0; 1]%nat. split; [apply lookup_singleton_eq|done]. Qed.


Lemma shapenet_toy_run :
  exists s w',
    ShapeNet.getitem toy_split toy_strip toy_format 1
      (toy_shapenet (fun _ => Some tt)) 0 toy_world = (Some (Some s), w').
Proof.
  destruct (getitem_step toy_split toy_strip toy_format
              (toy_shapenet (fun _ => Some tt)) (toy_shapenet_ok _) 0%nat toy_world)
    as (r & w1 & Hpass & _ & Hr).
  { simpl. lia. }
  { apply (toy_world_permutation_ok (fun _ => Some tt)). }
  destruct r as [rtn|addr].
  - exists rtn, w1. apply Hr.
  - by destruct Hr as [Hr _].
Qed.

(** C2 (counterexample).  On the one-entry dataset whose image loads,
    [ShapeNet.__getitem__] returns a sample that has no key "label". *)
Lemma shapenet_label_counterexample :
  exists s w',
    ShapeNet.getitem toy_split toy_strip toy_format 1
      (toy_shapenet (fun _ => Some tt)) 0 toy_world = (Some (Some s), w') /\
    s !! "label" = None.
Proof.
  destruct shapenet_toy_run as (s & w' & Hrun).
  exists s, w'. split; [done|].
  by destruct (ShapeNet_sample toy_split toy_strip toy_format 1 _ _ _ _ _ Hrun)
    as (? & ? & ? & _ & _ & _ & _ & _ & ?).
Qed.

Lemma scanobjectnn_toy_run :
  exists s, ScanObjectNN.getitem (image:=unit) (feature:=unit) toy_scanobjectnn 0 toy_world
            = (Some s, toy_world).
Proof. eexists. reflexivity. Qed.

(** On the entry whose stored array holds one point twice,
    [ModelNet.__getitem__] returns a sample: its cloud is NaN throughout, and
    so are the coordinates that the stored array holds afterwards. *)
Lemma modelnet_degenerate_run :
  exists w',
    ModelNet.getitem (image:=unit) (caption:=string) toy_modelnet 0 toy_modelnet_flat_world
    = (Some (<["class_name" := VStr "bathtub"]>
             (<["label" := VInt 1]>
              (<["pc" := VTensor (Tensor2 [[NaN; NaN; NaN]; [NaN; NaN; NaN]])]> ∅))), w') /\
    mem w' !! 7%nat
    = Some (NanFloat2 [[NaN; NaN; NaN; Fin 0; Fin 0; Fin 1];
                       [NaN; NaN; NaN; Fin 0; Fin 0; Fin 1]]).
Proof.
  set (a := [[1; 2; 3; 0; 0; 1]; [1; 2; 3; 0; 0; 1]]).
  set (a' := [[NaN; NaN; NaN; Fin 0; Fin 0; Fin 1]; [NaN; NaN; NaN; Fin 0; Fin 0; Fin 1]]).
  set (w0 := toy_modelnet_flat_world).
  assert (mem w0 !! 7%nat = Some (Float2 a)) as Hmem by apply lookup_singleton_eq.
  set (w1 := set_mem (<[7%nat := NanFloat2 a']> (mem w0)) w0).
  assert (ModelNet._get_item toy_modelnet 0 w0 = (Some (take 3 <$> a', 1%nat), w1)) as Hitem.
  { unfold ModelNet._get_item.
    rewrite (bind_Some _ _ w0 w0 (7%nat, 1%nat)) by done.
    rewrite (bind_Some _ _ w0 w0 (lift a)) by by apply load_floats_Some.
    rewrite decide_False by (simpl; lia).
    rewrite (bind_Some _ _ w0 w0 7%nat) by done.
    rewrite (bind_Some _ _ w0 w0 (lift a)) by by apply load_floats_Some.
    rewrite (bind_Some _ _ w0 w0 (replicate 2 (replicate 3 NaN))).
    2:{ unfold lift_opt. rewrite lift_take, pc_normalize_floats_lift.
        f_equal. apply (pc_normalize_coincident 2 [1; 2; 3]). lia. }
    rewrite (bind_Some _ _ w0 w1 tt) by by eapply store_Some.
    done. }
  exists w1. split; [|apply lookup_insert_eq].
  unfold ModelNet.getitem. cbv zeta.
  rewrite (bind_Some _ _ _ _ _ Hitem). simpl fst. simpl snd.
  rewrite (bool_decide_eq_false_2 (ModelNet.subset toy_modelnet = "train")) by done.
  rewrite (bind_Some _ _ w1 w1 (seq 0 (length (take 3 <$> a')))) by done.
  rewrite (bind_Some _ _ w1 w1 (take 3 <$> a'))
    by (unfold lift_opt; by rewrite mapM_lookup_seq).
  by rewrite (bind_Some _ _ w1 w1 "bathtub") by done.
Qed.

End AdapterExamples.

Section AdapterWitnesses.
Local Existing Instance exact_cast.
Local Open Scope string_scope.
Local Open Scope list_scope.

Lemma labeled_sample_keys_witness :
  (exists s w',
     ModelNet.getitem (image:=unit) (caption:=string) toy_modelnet 0
       toy_modelnet_flat_world = (Some s, w') /\
     exists points label w1 pc,
       ModelNet._get_item toy_modelnet 0 toy_modelnet_flat_world
       = (Some (points, label), w1) /\
       s !! "pc" = Some (VTensor (Tensor2 pc)) /\ length pc = length points /\
       s !! "label" = Some (VInt label)) /\
  (exists s,
     ScanObjectNN.getitem (image:=unit) (feature:=unit) toy_scanobjectnn 0 toy_world
     = (Some s, toy_world) /\
     exists pc label,
       ScanObjectNN.data toy_scanobjectnn !! 0%nat = Some pc /\
       ScanObjectNN.label toy_scanobjectnn !! 0%nat = Some label /\
       s !! "pc" = Some (VTensor (Tensor2 (lift pc))) /\
       s !! "label" = Some (VInt label)) /\
  (exists s w',
     ShapeNet.getitem toy_split toy_strip toy_format 1
       (toy_shapenet (fun _ => Some tt)) 0 toy_world = (Some (Some s), w') /\
     exists sample index t,
       sample ∈ ShapeNet.file_list (toy_shapenet (fun _ => Some tt)) /\
       ShapeNet.index_list (toy_shapenet (fun _ => Some tt))
         !! ShapeNet.taxonomy_id sample = Some index /\
       s !! "taxonomy_id" = Some (VStr (ShapeNet.taxonomy_id sample)) /\
       s !! "pc" = Some (VTensor t) /\
       s !! "target" = Some (VInt index) /\
       s !! "label" = None).
Proof.
  destruct (labeled_sample_keys (G:=tape) (pil:=unit) (image:=unit) (caption:=string)
              (feature:=unit) toy_split toy_strip toy_format) as (HM & HS & HN).
  split; [|split].
  - destruct modelnet_degenerate_run as (w' & Hrun & _). eexists _, w'.
    split; [exact Hrun|]. exact (HM _ _ _ _ _ Hrun).
  - destruct scanobjectnn_toy_run as (s & Hrun). exists s.
    split; [exact Hrun|]. exact (HS _ _ _ _ _ Hrun).
  - destruct shapenet_toy_run as (s & w' & Hrun). exists s, w'.
    split; [exact Hrun|]. exact (HN _ _ _ _ _ _ Hrun).
Defined.


End AdapterWitnesses.

(** ** Laws of the normalisations *)

Section NormalisationLaws.
Local Open Scope R_scope.

Lemma np_max_norm_le (pc : list (list R)) (m : R) (r : list R) :
  np_max (row_norm <$> pc) = Some m -> r ∈ pc -> row_norm r <= m.
Proof.
  intros Hm Hr. apply np_max_spec in Hm as [_ Hub]. apply Hub.
  by apply list_elem_of_fmap_2.
Qed.

Lemma elem_of_scale_rows (m : R) (pc : list (list R)) (r : list R) :
  r ∈ scale_rows m pc -> exists r0, r0 ∈ pc /\ r = (fun x => x / m) <$> r0.
Proof.
  unfold scale_rows. intros (r0 & -> & Hr0)%list_elem_of_fmap. by exists r0.
Qed.

Lemma coords_le_norm (r : list R) (x : R) : x ∈ r -> row_norm r <= 1 -> -1 <= x <= 1.
Proof.
  intros Hx Hle. pose proof (abs_le_row_norm r x Hx) as Habs.
  unfold Rabs in Habs. destruct (Rcase_abs x); lra.
Qed.

(** X1.  In exact arithmetic, [normalize_pc] stays within the unit ball: on a
    cloud with at least one point it returns a real-valued cloud of the same
    shape whose points all have norm at most 1, so that every coordinate
    lies in [-1, 1]; where the largest norm is below 1e-6 the guard returns
    the zero cloud instead of a division.  On a cloud without points both
    normalisations raise ([np.max] of an empty array). *)
Theorem normalize_pc_unit_ball (D : nat) (pc : list (list R)) :
  rect D pc ->
  (pc = [] -> normalize_pc pc = None /\ pc_normalize pc = None) /\
  (pc <> [] ->
   exists y, normalize_pc pc = Some (lift y) /\
     length y = length pc /\ rect D y /\
     (forall r, r ∈ y -> row_norm r <= 1) /\
     (forall r x, r ∈ y -> x ∈ r -> -1 <= x <= 1)).
Proof.
  intros Hpc. split; [by intros ->|]. intros Hne.
  pose proof (np_mean0_length D pc Hpc Hne) as Hc.
  pose proof (rect_sub_rows D pc _ Hpc Hc) as Hrect.
  destruct (np_max_is_Some (row_norm <$> sub_rows pc (np_mean0 pc))) as [m Hm].
  { by destruct pc. }
  assert (forall y : list (list R), (forall r, r ∈ y -> row_norm r <= 1) ->
            forall r x, r ∈ y -> x ∈ r -> -1 <= x <= 1) as Hcoord.
  { intros y Hy r x Hr Hx. apply (coords_le_norm r); auto. }
  destruct (decide (m < 1e-6)) as [Hlt|Hge].
  - exists (replicate (length pc) (replicate D 0)).
    assert (forall r, r ∈ replicate (length pc) (replicate D 0) -> row_norm r <= 1) as Hn.
    { intros r [-> _]%elem_of_replicate. rewrite row_norm_replicate_0. lra. }
    split; [|split; [|split; [|split; [done|by apply Hcoord]]]].
    + by apply (normalize_pc_guard D pc m).
    + by rewrite length_replicate.
    + by apply Forall_replicate, length_replicate.
  - exists (scale_rows m (sub_rows pc (np_mean0 pc))).
    assert (0 < m) as Hpos by lra.
    assert (forall r, r ∈ scale_rows m (sub_rows pc (np_mean0 pc)) -> row_norm r <= 1) as Hn.
    { intros r (r0 & Hr0 & ->)%elem_of_scale_rows.
      rewrite row_norm_scale by done.
      pose proof (np_max_norm_le _ m r0 Hm Hr0) as Hle.
      apply (Rmult_le_reg_r m); [done|]. unfold Rdiv.
      rewrite Rmult_assoc, Rinv_l by lra. lra. }
    split; [|split; [|split; [|split; [done|by apply Hcoord]]]].
    + unfold normalize_pc. simpl. rewrite Hm. simpl.
      rewrite bool_decide_eq_false_2 by done.
      by rewrite np_div_rows_nonzero by lra.
    + unfold scale_rows, sub_rows. by rewrite !length_fmap.
    + by apply rect_scale_rows.
Qed.

End NormalisationLaws.

Section NormalisationInvariance.
Local Open Scope R_scope.

Lemma iadd_row_inv (pc pc' : list (list R)) (t : list R) :
  iadd_row pc t = Some pc' ->
  rect (length t) pc /\ pc' = (fun r => zip_with Rplus r t) <$> pc.
Proof.
  unfold iadd_row. revert pc'. induction pc as [|r pc IH]; intros pc' H.
  - injection H as <-. split; [constructor|done].
  - rewrite mapM_cons in H || idtac. simpl in H.
    destruct (decide (length r = length t)) as [Hr|]; [|done]. simpl in H.
    destruct (mapM _ pc) as [k|] eqn:Hk; [|done]. injection H as <-.
    destruct (IH k eq_refl) as [Hrect ->]. split; [by constructor|done].
Qed.

Lemma add_rows_sub_rows (pc : list (list R)) (t : list R) :
  (fun r => zip_with Rplus r t) <$> pc = sub_rows pc (Ropp <$> t).
Proof.
  unfold sub_rows. apply list_fmap_ext. intros _ r _.
  revert t. induction r as [|x r IH]; intros [|y t]; csimpl; [done..|].
  f_equal; [lra|apply IH].
Qed.

Lemma sub_rows_length (pc : list (list R)) (c : list R) :
  length (sub_rows pc c) = length pc.
Proof. unfold sub_rows. by rewrite length_fmap. Qed.

Lemma sub_rows_nil (pc : list (list R)) (c : list R) : pc <> [] -> sub_rows pc c <> [].
Proof. by destruct pc. Qed.

(** Centring forgets a translation of the cloud. *)
Lemma centred_sub_rows (D : nat) (pc : list (list R)) (c : list R) :
  rect D pc -> pc <> [] -> length c = D ->
  sub_rows (sub_rows pc c) (np_mean0 (sub_rows pc c)) = sub_rows pc (np_mean0 pc).
Proof.
  intros Hpc Hne Hc.
  pose proof (rect_sub_rows D pc c Hpc Hc) as Hrect.
  pose proof (np_mean0_length D pc Hpc Hne) as Hm.
  pose proof (np_mean0_length D _ Hrect (sub_rows_nil pc c Hne)) as Hm'.
  unfold sub_rows at 1 2 4. rewrite <- list_fmap_compose.
  apply Forall_fmap_ext_1. eapply Forall_impl; [exact Hpc|].
  intros r Hr. simpl in Hr. simpl.
  apply (list_eq_lt D).
  - rewrite !length_zip_with. lia.
  - rewrite length_zip_with. lia.
  - intros j Hj.
    destruct (lookup_lt_is_Some_2 r j) as [x Hx]; [lia|].
    destruct (lookup_lt_is_Some_2 c j) as [cj Hcj]; [lia|].
    rewrite !lookup_zip_with, Hx, Hcj. simpl.
    rewrite (np_mean0_lookup D) by (done || by apply sub_rows_nil).
    rewrite (np_mean0_lookup D) by done. simpl. f_equal.
    rewrite (col_sub_rows D pc c j cj) by done.
    rewrite sub_rows_length.
    assert (INR (length pc) <> 0) as Hn.
    { apply not_0_INR. by destruct pc. }
    field. done.
Qed.

(** X2.  Both normalisations forget a translation: a cloud to which a row
    vector was added ([pc += shift]) is normalised to what the cloud itself is
    normalised to. *)
Theorem normalize_shift_invariant (pc pc' : list (list R)) (t : list R) :
  iadd_row pc t = Some pc' ->
  pc_normalize pc' = pc_normalize pc /\ normalize_pc pc' = normalize_pc pc.
Proof.
  intros [Hpc ->]%iadd_row_inv. rewrite add_rows_sub_rows.
  destruct (decide (pc = [])) as [->|Hne]; [done|].
  assert (length (Ropp <$> t) = length t) as Hc by by rewrite length_fmap.
  unfold pc_normalize, normalize_pc. cbv zeta.
  by rewrite (centred_sub_rows (length t) pc _ Hpc Hne Hc).
Qed.

Lemma scale_as_div (s : R) (pc : list (list R)) :
  s <> 0 ->
  (fun r : list R => (fun x => x * s) <$> r) <$> pc = scale_rows (/ s) pc.
Proof.
  intros Hs. unfold scale_rows. apply list_fmap_ext. intros _ r _.
  apply list_fmap_ext. intros _ x _. field. done.
Qed.

Lemma np_mean0_scale_rows (D : nat) (m : R) (pc : list (list R)) :
  rect D pc -> pc <> [] -> m <> 0 ->
  np_mean0 (scale_rows m pc) = (fun x => x / m) <$> np_mean0 pc.
Proof.
  intros Hpc Hne Hm.
  assert (scale_rows m pc <> []) as Hne' by by destruct pc.
  pose proof (rect_scale_rows D m pc Hpc) as Hrect.
  apply (list_eq_lt D).
  - by apply np_mean0_length.
  - rewrite length_fmap. by apply np_mean0_length.
  - intros j Hj. rewrite list_lookup_fmap.
    rewrite (np_mean0_lookup D) by done. rewrite (np_mean0_lookup D) by done. simpl.
    f_equal. rewrite col_scale_rows.
    assert (length (scale_rows m pc) = length pc) as -> by (unfold scale_rows; by rewrite length_fmap).
    assert (INR (length pc) <> 0) as Hn.
    { apply not_0_INR. by destruct pc. }
    field. done.
Qed.

Lemma sub_rows_scale_rows (m : R) (pc : list (list R)) (c : list R) :
  sub_rows (scale_rows m pc) ((fun x => x / m) <$> c) = scale_rows m (sub_rows pc c).
Proof.
  unfold sub_rows, scale_rows. rewrite <- !list_fmap_compose.
  apply list_fmap_ext. intros _ r _. simpl.
  revert c. induction r as [|x r IH]; intros [|y c]; csimpl; [done..|].
  f_equal; [lra|apply IH].
Qed.

Lemma np_div_scale (x M a : R) : 0 < a -> np_div (x / a) (M / a) = np_div x M.
Proof.
  intros Ha. unfold np_div.
  assert (/ a > 0) as Hi by by apply Rinv_0_lt_compat.
  destruct (decide (M = 0)) as [->|HM].
  - rewrite decide_True by lra.
    destruct (decide (x = 0)) as [->|Hx].
    + rewrite decide_True by lra. done.
    + rewrite decide_False by (unfold Rdiv; nra). f_equal.
      apply bool_decide_ext. unfold Rdiv. split; nra.
  - rewrite decide_False by (unfold Rdiv; nra). f_equal. field. lra.
Qed.

(** X3.  [pc_normalize] forgets a positive scaling: a cloud multiplied by a
    factor [s > 0] is normalised to what the cloud itself is normalised to
    (an all-NaN cloud included). *)
Theorem pc_normalize_scale_invariant (D : nat) (pc : list (list R)) (s : R) :
  rect D pc -> 0 < s ->
  pc_normalize ((fun r : list R => (fun x => x * s) <$> r) <$> pc) = pc_normalize pc.
Proof.
  intros Hpc Hs. rewrite scale_as_div by lra.
  destruct (decide (pc = [])) as [->|Hne]; [done|].
  assert (0 < / s) as Hi by by apply Rinv_0_lt_compat.
  unfold pc_normalize. cbv zeta.
  rewrite (np_mean0_scale_rows D) by (done || lra).
  rewrite sub_rows_scale_rows.
  destruct (np_max_is_Some (row_norm <$> sub_rows pc (np_mean0 pc))) as [M HM].
  { by destruct pc. }
  rewrite (max_norm_scale (/ s) M) by done. rewrite HM. simpl. f_equal.
  unfold scale_rows. rewrite <- list_fmap_compose.
  apply list_fmap_ext. intros _ r _. simpl. rewrite <- list_fmap_compose.
  apply list_fmap_ext. intros _ x _. simpl. by apply np_div_scale.
Qed.

End NormalisationInvariance.

(** ** Laws of farthest point sampling *)

Section SamplingLaws.
Context {G : Type} `{!RandomState G}.
Local Open Scope R_scope.

Lemma foldl_Rmin_le (l : list R) (a : R) : foldl Rmin a l <= a.
Proof.
  revert a. induction l as [|x l IH]; intros a; simpl; [lra|].
  etrans; [apply IH|]. apply Rmin_l.
Qed.

Lemma foldl_Rmin_lower (l : list R) (a x : R) : x ∈ l -> foldl Rmin a l <= x.
Proof.
  revert a. induction l as [|y l IH]; intros a Hx; [by apply elem_of_nil in Hx|].
  apply elem_of_cons in Hx as [->|Hx]; simpl.
  - etrans; [apply foldl_Rmin_le|]. apply Rmin_r.
  - by apply IH.
Qed.

Lemma foldl_Rmin_elem (l : list R) (a : R) : foldl Rmin a l ∈ a :: l.
Proof.
  revert a. induction l as [|x l IH]; intros a; simpl; [apply list_elem_of_here|].
  specialize (IH (Rmin a x)). apply elem_of_cons in IH as [->|IH].
  - unfold Rmin. destruct (Rle_dec a x).
    + apply list_elem_of_here.
    + apply list_elem_of_further, list_elem_of_here.
  - by do 2 apply list_elem_of_further.
Qed.

Lemma sqdist3_nonneg (a : list (list R)) (k s : nat) : 0 <= sqdist3 a k s.
Proof. apply sq_sum_nonneg. Qed.

Lemma sqdist3_self (a : list (list R)) (k : nat) : sqdist3 a k k = 0.
Proof.
  unfold sqdist3. rewrite zip_minus_self, fmap_replicate, np_sum_replicate. lra.
Qed.

Lemma dist_to_set_nonneg (a : list (list R)) (sel : list nat) (k : nat) :
  0 <= dist_to_set a sel k.
Proof.
  destruct sel as [|s sel]; simpl; [lra|].
  pose proof (foldl_Rmin_elem (sqdist3 a k <$> sel) (sqdist3 a k s)) as Hin.
  change (sqdist3 a k s :: (sqdist3 a k <$> sel)) with (sqdist3 a k <$> s :: sel) in Hin.
  apply list_elem_of_fmap in Hin as (s' & -> & _). apply sqdist3_nonneg.
Qed.

Lemma dist_to_set_member (a : list (list R)) (sel : list nat) (k : nat) :
  k ∈ sel -> dist_to_set a sel k = 0.
Proof.
  intros Hk. pose proof (dist_to_set_nonneg a sel k) as H0.
  destruct sel as [|s sel]; [by apply elem_of_nil in Hk|]. simpl in *.
  assert (foldl Rmin (sqdist3 a k s) (sqdist3 a k <$> sel) <= 0); [|lra].
  apply elem_of_cons in Hk as [<-|Hk].
  - etrans; [apply foldl_Rmin_le|]. rewrite sqdist3_self. lra.
  - etrans; [apply (foldl_Rmin_lower _ _ (sqdist3 a k k))|rewrite sqdist3_self; lra].
    by apply list_elem_of_fmap_2.
Qed.

Lemma dist_to_set_pos (a : list (list R)) (sel : list nat) (k : nat) :
  sel <> [] -> (forall s, s ∈ sel -> 0 < sqdist3 a k s) -> 0 < dist_to_set a sel k.
Proof.
  intros Hne Hpos. destruct sel as [|s sel]; [done|]. simpl.
  pose proof (foldl_Rmin_elem (sqdist3 a k <$> sel) (sqdist3 a k s)) as Hin.
  change (sqdist3 a k s :: (sqdist3 a k <$> sel)) with (sqdist3 a k <$> s :: sel) in Hin.
  apply list_elem_of_fmap in Hin as (s' & -> & Hs'). by apply Hpos.
Qed.

(** A list shorter than [N] misses an index below [N]. *)
Lemma missing_index (N : nat) (sel : list nat) :
  (length sel < N)%nat -> exists k, (k < N)%nat /\ k ∉ sel.
Proof.
  intros Hlen.
  destruct (decide (Forall (fun k => k ∈ sel) (seq 0 N))) as [Hall|Hnot].
  - assert (seq 0 N ⊆+ sel) as Hsub.
    { apply NoDup_submseteq; [apply NoDup_seq|].
      intros x Hx. by apply (proj1 (Forall_forall _ _) Hall). }
    apply submseteq_length in Hsub. rewrite length_seq in Hsub. lia.
  - apply not_Forall_Exists in Hnot; [|apply _].
    apply Exists_exists in Hnot as (k & Hk & Hnk).
    exists k. split; [|done]. apply elem_of_seq in Hk. lia.
Qed.

(** On separated points, the index that is farthest from a selection that
    does not yet cover the array is not in the selection. *)
Lemma first_argmax_fresh (a : list (list R)) (sel : list nat) (j : nat) :
  separated a -> sel <> [] -> (length sel < length a)%nat ->
  Forall (fun i => (i < length a)%nat) sel ->
  first_argmax (dist_to_set a sel) (length a) j -> j ∉ sel.
Proof.
  intros Hsep Hne Hlen Hall [Hj Hmax] Hin.
  destruct (missing_index (length a) sel Hlen) as (k & Hk & Hnk).
  destruct (Hmax k Hk) as [Hle _].
  rewrite (dist_to_set_member a sel j Hin) in Hle.
  assert (0 < dist_to_set a sel k); [|lra].
  apply dist_to_set_pos; [done|]. intros s Hs. apply Hsep; [done| |].
  - by apply (proj1 (Forall_forall _ _) Hall).
  - intros ->. done.
Qed.

Lemma NoDup_prefixes (l : list nat) :
  (forall i j, l !! S i = Some j -> j ∉ take (S i) l) -> NoDup l.
Proof.
  intros H. rewrite <- (take_ge l (length l)) by lia.
  generalize (length l) at 1. intros n. induction n as [|n IH]; [rewrite take_0; constructor|].
  destruct (l !! n) as [x|] eqn:Hx.
  - rewrite (take_S_r l n x Hx). apply NoDup_app. split; [done|]. split.
    + intros y Hy [->|[]%elem_of_nil]%elem_of_cons.
      destruct n as [|n]; [rewrite take_0 in Hy; by apply elem_of_nil in Hy|].
      by apply (H n x Hx).
    + apply NoDup_singleton.
  - apply lookup_ge_None in Hx. rewrite take_ge by lia.
    rewrite <- (take_ge l n) by lia. done.
Qed.

Lemma equal_rows_sqdist3 (a : list (list R)) (k s : nat) :
  default [] (a !! k) = default [] (a !! s) -> sqdist3 a k s = 0.
Proof.
  intros E. unfold sqdist3. rewrite E, zip_minus_self, fmap_replicate, np_sum_replicate. lra.
Qed.

End SamplingLaws.

Section SamplingShape.
Context {G : Type} `{!RandomState G}.
Local Open Scope R_scope.

(** X4.  On an array with at least one point, [farthest_point_sample]
    returns for every target count, also one larger than the number of
    points, a fresh array of exactly that many rows, each of them a row of the
    input.  On an array without points it raises ([np.random.randint(0, 0)]). *)
Theorem farthest_point_sample_rows (w : world G) (point npoint : nat) (a : list (list R)) :
  mem w !! point = Some (Float2 a) ->
  (a = [] -> (farthest_point_sample point npoint w).1 = None) /\
  (a <> [] ->
   exists q rows w',
     farthest_point_sample point npoint w = (Some q, w') /\
     mem w' !! q = Some (Float2 rows) /\
     length rows = npoint /\
     Forall (fun r => r ∈ a) rows).
Proof.
  intros Hp. split.
  - intros ->. unfold farthest_point_sample.
    rewrite (bind_Some _ _ w w []) by by apply load2_Some.
    unfold bind at 1. unfold alloc at 1. unfold bind at 1. unfold alloc at 1.
    unfold bind at 1. unfold np_random_randint. by simpl.
  - intros Hne.
    destruct (fps_run w point npoint a Hp Hne)
      as (idxs & q & w' & _ & Hlen & Hall & Hrun & Hq).
    exists q, ((fun i => default [] (a !! i)) <$> idxs), w'.
    split_and!; [done|done|by rewrite length_fmap|].
    apply Forall_fmap. eapply Forall_impl; [exact Hall|].
    intros i Hi. simpl in *. destruct (lookup_lt_is_Some_2 a i Hi) as [r Hr].
    rewrite Hr. simpl. by apply (list_elem_of_lookup_2 _ i).
Qed.

(** X5.  Sampling without repetition, in exact arithmetic (squared distances
    computed and compared without rounding): when the points are pairwise
    apart and their squared distances stay below 1e10, the K <= N rows that
    [farthest_point_sample] returns are pairwise different. *)
Theorem farthest_point_sample_distinct (w : world G) (point K : nat) (a : list (list R)) :
  mem w !! point = Some (Float2 a) ->
  (1 <= K <= length a)%nat ->
  bounded a -> separated a ->
  exists q rows w',
    farthest_point_sample point K w = (Some q, w') /\
    mem w' !! q = Some (Float2 rows) /\
    length rows = K /\ NoDup rows.
Proof.
  intros Hp [HK HN] Hb Hsep.
  assert (a <> []) as Hne by (intros ->; simpl in HN; lia).
  destruct (fps_run w point K a Hp Hne) as (idxs & q & w' & Hidx & Hlen & Hall & Hrun & Hq).
  exists q, ((fun i => default [] (a !! i)) <$> idxs), w'.
  split_and!; [done|done|by rewrite length_fmap|].
  assert (0 < length a)%nat as HN0 by lia.
  pose proof (randint_range 0 (length a) (np_random_global w) HN0) as Hstart.
  apply NoDup_fmap_2_strong.
  - intros x y Hx Hy E.
    destruct (decide (x = y)) as [|Hxy]; [done|].
    pose proof (proj1 (Forall_forall _ _) Hall x Hx) as Hx'.
    pose proof (proj1 (Forall_forall _ _) Hall y Hy) as Hy'. simpl in *.
    pose proof (Hsep x y Hx' Hy' Hxy) as Hpos.
    rewrite (equal_rows_sqdist3 a x y E) in Hpos. lra.
  - apply NoDup_prefixes. intros i j Hij.
    assert (S i < length idxs)%nat as Hi by (apply lookup_lt_is_Some; by eexists).
    apply (first_argmax_fresh a); [done| | | |].
    + destruct idxs; [simpl in Hi; lia|done].
    + rewrite length_take. lia.
    + by apply Forall_take.
    + refine (fps_indices_greedy a K Hb [] _ _ idxs (fps_inv_init a) _ Hidx i j Hij). lia.
Qed.

End SamplingShape.

(** ** Laws of the augmentations *)

Section AugmentationLaws.
Context {G : Type} `{!RandomState G}.
Local Open Scope R_scope.

Lemma succeeds_and {A} (m : M G A) (Q1 Q2 : A -> Prop) :
  succeeds m Q1 -> succeeds m Q2 -> succeeds m (fun a => Q1 a /\ Q2 a).
Proof.
  intros H1 H2 w. destruct (H1 w) as (a & w' & Hrun & Hmem & Ha).
  destruct (H2 w) as (a2 & w2 & Hrun2 & _ & Ha2).
  rewrite Hrun in Hrun2. injection Hrun2 as <- <-. by exists a, w'.
Qed.

(** A loop that rewrites entry [k] of its state in pass [k]: when pass [k]
    finds the entry the loop started with and replaces it by a value related
    to it by [P k], the loop ends with every entry so replaced. *)
Lemma succeeds_for_in_update {X} (body : nat -> list X -> M G (list X))
    (P : nat -> X -> X -> Prop) (s0 : list X) :
  (forall k s x, s0 !! k = Some x -> s !! k = Some x ->
     succeeds (body k s) (fun s' => exists v, s' = <[k := v]> s /\ P k x v)) ->
  succeeds (for_in (seq 0 (length s0)) body s0)
    (fun s' => length s' = length s0 /\
       forall k x, s0 !! k = Some x -> exists v, s' !! k = Some v /\ P k x v).
Proof.
  intros Hbody.
  set (J := fun (i : nat) (s : list X) =>
    length s = length s0 /\
    (forall k, (i <= k)%nat -> s !! k = s0 !! k) /\
    (forall k x, (k < i)%nat -> s0 !! k = Some x -> exists v, s !! k = Some v /\ P k x v)).
  assert (forall n i s, (i + n = length s0)%nat -> J i s ->
            succeeds (for_in (seq i n) body s) (J (length s0))) as Hloop.
  { induction n as [|n IH]; intros i s Hin HJ; simpl.
    - apply succeeds_ret. by replace (length s0) with i by lia.
    - destruct HJ as (Hlen & Hrest & Hdone).
      destruct (lookup_lt_is_Some_2 s0 i) as [x Hx]; [lia|].
      eapply succeeds_bind.
      + apply (Hbody i s x Hx). by rewrite Hrest.
      + intros s' (v & -> & Hv). apply IH; [lia|]. split_and!.
        * by rewrite length_insert.
        * intros k Hk. rewrite list_lookup_insert_ne by lia. apply Hrest. lia.
        * intros k y Hk Hy. destruct (decide (k = i)) as [->|Hne].
          -- exists v. rewrite list_lookup_insert_eq by lia.
             rewrite Hx in Hy. injection Hy as <-. done.
          -- rewrite list_lookup_insert_ne by done. apply Hdone; [lia|done]. }
  eapply succeeds_weaken; [|apply (Hloop (length s0) 0%nat s0); [done|]].
  - intros s' (Hlen & _ & Hdone). split; [done|]. intros k x Hk. apply Hdone; [|done].
    apply lookup_lt_is_Some. by eexists.
  - split_and!; [done|done|]. intros k x Hk. lia.
Qed.

Lemma succeeds_np_random_uniform_range (lo hi : R) :
  lo <= hi -> succeeds (G:=G) (np_random_uniform lo hi) (fun s => lo <= s <= hi).
Proof.
  intros Hle w. unfold np_random_uniform, bind, np_random_random, ret.
  pose proof (random_sample_range (np_random_global w)) as Hu.
  destruct (random_sample (np_random_global w)) as [u g]. simpl in *.
  eexists _, _. split; [done|]. split; [done|]. nra.
Qed.

Lemma scale_law `{!Float F} (b : list (list (list F))) (scale_low scale_high : R) :
  scale_low <= scale_high ->
  succeeds (G:=G) (random_scale_point_cloud b scale_low scale_high)
    (fun b' => length b' = length b /\
       forall k pc, b !! k = Some pc ->
         exists s, scale_low <= s <= scale_high /\
           b' !! k = Some ((fun r : list F => (fun x => fmult x (of_R s)) <$> r) <$> pc)).
Proof.
  intros Hle. unfold random_scale_point_cloud.
  eapply succeeds_bind.
  { apply succeeds_repeatM, (succeeds_np_random_uniform_range _ _ Hle). }
  intros scales [Hlen Hrange].
  eapply succeeds_weaken; [|apply (succeeds_for_in_update _
    (fun k pc v => exists s, scale_low <= s <= scale_high /\
       v = (fun r : list F => (fun x => fmult x (of_R s)) <$> r) <$> pc))].
  - intros b' [Hb' Hall]. split; [done|]. intros k pc Hk.
    destruct (Hall k pc Hk) as (v & Hv & s & Hs & ->). by exists s.
  - intros k s pc Hk Hs.
    destruct (lookup_lt_is_Some_2 scales k) as [x Hx].
    { rewrite Hlen. apply lookup_lt_is_Some. by eexists. }
    eapply succeeds_bind; [by apply succeeds_lift_opt|]. intros ? ->.
    eapply succeeds_bind; [by apply succeeds_lift_opt|]. intros ? ->.
    apply succeeds_ret. eexists. split; [done|]. exists x. split; [|done].
    exact (proj1 (Forall_lookup _ _) Hrange k x Hx).
Qed.

Lemma shift_law `{!Float F} (B N : nat) (b : list (list (list F))) (shift_range : R) :
  is_batch B N 3 b -> 0 <= shift_range ->
  succeeds (G:=G) (shift_point_cloud b shift_range)
    (fun b' => length b' = length b /\
       forall k pc, b !! k = Some pc ->
         exists t, length t = 3%nat /\
           Forall (fun x => - shift_range <= x <= shift_range) t /\
           b' !! k
           = Some ((fun r => zip_with (fun x t => fplus x (of_R t)) r t) <$> pc)).
Proof.
  intros Hb Hr. unfold shift_point_cloud.
  eapply succeeds_bind.
  { apply succeeds_repeatM, succeeds_repeatM, succeeds_np_random_uniform_range. lra. }
  intros shifts [Hlen Hsh].
  eapply succeeds_weaken; [|apply (succeeds_for_in_update _
    (fun k pc v => exists t, length t = 3%nat /\
       Forall (fun x => - shift_range <= x <= shift_range) t /\
       v = (fun r => zip_with (fun x t => fplus x (of_R t)) r t) <$> pc))].
  - intros b' [Hb' Hall]. split; [done|]. intros k pc Hk.
    destruct (Hall k pc Hk) as (v & Hv & t & Ht & Htr & ->). by exists t.
  - intros k s pc Hk Hs.
    destruct (lookup_lt_is_Some_2 shifts k) as [sh Hk'].
    { rewrite Hlen. apply lookup_lt_is_Some. by eexists. }
    destruct (proj1 (Forall_lookup _ _) Hsh k sh Hk') as [Hsh3 Hshr].
    destruct Hb as [HB Hall].
    destruct (proj1 (Forall_lookup _ _) Hall k pc Hk) as [HN HC].
    eapply succeeds_bind; [by apply succeeds_lift_opt|]. intros ? ->.
    eapply succeeds_bind; [by apply succeeds_lift_opt|]. intros ? ->.
    eapply succeeds_bind; [apply succeeds_lift_opt; by apply (iadd_row_Some 3)|]. intros ? ->.
    apply succeeds_ret. eexists. split; [done|]. by exists sh.
Qed.

Lemma np_clip_range (x lo hi : R) : lo <= hi -> lo <= np_clip x lo hi <= hi.
Proof.
  intros Hle. unfold np_clip. split; [|apply Rmin_r].
  apply Rmin_glb; [apply Rmax_r|done].
Qed.

(** X8.  With a positive [clip], [jitter_point_cloud] returns the batch with
    an array of noise added to it, of the shape of the batch and with every
    entry in [-clip, clip]; with any other [clip] its assertion fails before
    anything is drawn. *)
Theorem jitter_point_cloud_bound (b : list (list (list R))) (sigma clip : R) :
  (clip > 0 ->
   succeeds (G:=G) (jitter_point_cloud b sigma clip)
     (fun b' => exists noise : list (list (list R)),
        Forall2 (Forall2 (Forall2 (fun (_ n : R) => - clip <= n <= clip))) b noise /\
        b' = zip_with (zip_with (zip_with Rplus)) noise b)) /\
  (~ clip > 0 -> forall w : world G, jitter_point_cloud b sigma clip w = (None, w)).
Proof.
  split.
  - intros Hclip. unfold jitter_point_cloud. rewrite decide_True by done.
    eapply succeeds_bind.
    { apply (succeeds_mapM_M _ _
        (fun pc npc => Forall2 (Forall2 (fun (_ _ : R) => True)) pc npc)).
      intros pc _.
      apply (succeeds_mapM_M _ _ (Forall2 (fun (_ _ : R) => True))).
      intros r _. apply (succeeds_mapM_M _ _ (fun _ _ => True)).
      intros x _. apply succeeds_np_random_randn. }
    intros noise Hnoise. apply succeeds_ret. eexists. split; [|done].
    induction Hnoise as [|pc npc b noise Hpc _ IH]; [constructor|].
    csimpl. constructor; [|exact IH]. clear IH.
    induction Hpc as [|r nr pc npc Hr _ IH]; [constructor|].
    csimpl. constructor; [|exact IH]. clear IH.
    induction Hr as [|x z r nr _ _ IH]; [constructor|].
    csimpl. constructor; [|exact IH].
    pose proof (np_clip_range (sigma * z) (-1 * clip) clip) as Hc. lra.
  - intros Hclip w. unfold jitter_point_cloud. by rewrite decide_False.
Qed.

End AugmentationLaws.

Section RotationLaws.
Context {G : Type} `{!RandomState G} `{!Cast32 R}.
Local Open Scope R_scope.

Lemma np_dot_row_times (x m : list (list R)) :
  np_dot x m = (fun r => row_times r m) <$> x.
Proof. done. Qed.

Lemma list3 {X} (l : list X) : length l = 3%nat -> exists a b c, l = [a; b; c].
Proof. destruct l as [|a [|b [|c [|? ?]]]]; try done. by exists a, b, c. Qed.

Lemma matrix3 (m : list (list R)) :
  length m = 3%nat -> rect 3 m ->
  exists a1 a2 a3 b1 b2 b3 c1 c2 c3,
    m = [[a1; a2; a3]; [b1; b2; b3]; [c1; c2; c3]].
Proof.
  intros (r1 & r2 & r3 & ->)%list3 Hm.
  apply Forall_cons in Hm as [(a1 & a2 & a3 & ->)%list3 Hm].
  apply Forall_cons in Hm as [(b1 & b2 & b3 & ->)%list3 Hm].
  apply Forall_cons in Hm as [(c1 & c2 & c3 & ->)%list3 _].
  by exists a1, a2, a3, b1, b2, b3, c1, c2, c3.
Qed.

Lemma row_times_assoc (p : list R) (A B : list (list R)) :
  length p = 3%nat -> length A = 3%nat -> rect 3 A -> length B = 3%nat -> rect 3 B ->
  row_times p (np_dot A B) = row_times (row_times p A) B.
Proof.
  intros (x & y & z & ->)%list3 HA HA' HB HB'.
  destruct (matrix3 A HA HA') as (a1 & a2 & a3 & b1 & b2 & b3 & c1 & c2 & c3 & ->).
  destruct (matrix3 B HB HB') as (d1 & d2 & d3 & e1 & e2 & e3 & f1 & f2 & f3 & ->).
  unfold row_times, np_dot, col_sum, ncols. csimpl.
  f_equal; [ring|]. f_equal; [ring|]. f_equal. ring.
Qed.

Lemma sq_norm3 (x y z x' y' z' : R) :
  x' ^ 2 + y' ^ 2 + z' ^ 2 = x ^ 2 + y ^ 2 + z ^ 2 ->
  row_norm [x'; y'; z'] = row_norm [x; y; z].
Proof. intros E. unfold row_norm. csimpl. f_equal. lra. Qed.

Lemma trig_one (t : R) : sin t * sin t + cos t * cos t = 1.
Proof. pose proof (sin2_cos2 t) as E. unfold Rsqr in E. exact E. Qed.

(** Each of the three axis rotations keeps the norm of a row vector. *)
Lemma rotate_x_norm (p : list R) (t : R) :
  length p = 3%nat ->
  let p' := row_times p [[1; 0; 0]; [0; cos t; - sin t]; [0; sin t; cos t]] in
  length p' = 3%nat /\ row_norm p' = row_norm p /\ p' !! 0%nat = p !! 0%nat.
Proof.
  intros (x & y & z & ->)%list3. unfold row_times, col_sum, ncols. csimpl.
  split; [done|]. split; [|f_equal; lra]. apply sq_norm3.
  replace (_ + _ + _) with (x ^ 2 + (y ^ 2 + z ^ 2) * (sin t * sin t + cos t * cos t)) by ring.
  rewrite trig_one. ring.
Qed.

Lemma rotate_y_norm (p : list R) (t : R) :
  length p = 3%nat ->
  let p' := row_times p [[cos t; 0; sin t]; [0; 1; 0]; [- sin t; 0; cos t]] in
  length p' = 3%nat /\ row_norm p' = row_norm p /\ p' !! 1%nat = p !! 1%nat.
Proof.
  intros (x & y & z & ->)%list3. unfold row_times, col_sum, ncols. csimpl.
  split; [done|]. split; [|f_equal; lra]. apply sq_norm3.
  replace (_ + _ + _) with (y ^ 2 + (x ^ 2 + z ^ 2) * (sin t * sin t + cos t * cos t)) by ring.
  rewrite trig_one. ring.
Qed.

Lemma rotate_z_norm (p : list R) (t : R) :
  length p = 3%nat ->
  let p' := row_times p [[cos t; - sin t; 0]; [sin t; cos t; 0]; [0; 0; 1]] in
  length p' = 3%nat /\ row_norm p' = row_norm p /\ p' !! 2%nat = p !! 2%nat.
Proof.
  intros (x & y & z & ->)%list3. unfold row_times, col_sum, ncols. csimpl.
  split; [done|]. split; [|f_equal; lra]. apply sq_norm3.
  replace (_ + _ + _) with (z ^ 2 + (x ^ 2 + y ^ 2) * (sin t * sin t + cos t * cos t)) by ring.
  rewrite trig_one. ring.
Qed.

Lemma perturbation_matrix_norm (angles p : list R) :
  length p = 3%nat -> row_norm (row_times p (perturbation_matrix angles)) = row_norm p.
Proof.
  intros Hp. unfold perturbation_matrix. cbv zeta.
  set (a0 := default 0 (angles !! 0%nat)). set (a1 := default 0 (angles !! 1%nat)).
  set (a2 := default 0 (angles !! 2%nat)).
  destruct (rotate_z_norm p a2 Hp) as (Hz3 & Hz & _).
  destruct (rotate_y_norm _ a1 Hz3) as (Hy3 & Hy & _).
  destruct (rotate_x_norm _ a0 Hy3) as (Hx3 & Hx & _).
  cbv zeta in *.
  rewrite row_times_assoc; [|done|done|by repeat constructor|done|].
  - rewrite row_times_assoc; [|done|done|by repeat constructor|done|by repeat constructor].
    by rewrite Hx, Hy, Hz.
  - rewrite np_dot_row_times. by repeat constructor.
Qed.

(** One pass of a rotation loop, with the value it writes. *)
Lemma rotate_pass_value (B N : nat) (b rotated : list (list (list R))) (k : nat)
    (pc t m : list (list R)) :
  b !! k = Some pc -> rotated !! k = Some t ->
  length pc = N -> rect 3 pc -> length t = N -> rect 3 t ->
  ncols m = 3%nat -> rect 3 m ->
  succeeds (G:=G)
    (let! shape_pc := lift_opt (b !! k) in
     let! flat := lift_opt (reshape_m1_3 shape_pc) in
     let! target := lift_opt (rotated !! k) in
     let! v := lift_opt (assign_broadcast target (np_dot flat m)) in
     ret (<[k := astype_float32 v]> rotated))
    (fun s' => s' = <[k := astype_float32 (np_dot pc m)]> rotated).
Proof.
  intros Hpc Ht HN HC HtN HtC Hm3 Hm.
  destruct (np_dot_shape pc m) as [Hlen Hrect]; [by rewrite Hm3|]. rewrite Hm3 in Hrect.
  eapply succeeds_bind; [by apply succeeds_lift_opt|]. intros ? ->.
  eapply succeeds_bind; [apply succeeds_lift_opt; by apply reshape_rect3|]. intros ? ->.
  eapply succeeds_bind; [by apply succeeds_lift_opt|]. intros ? ->.
  eapply succeeds_bind.
  { apply succeeds_lift_opt. apply (assign_broadcast_same 3); [lia|done|done]. }
  intros ? ->. by apply succeeds_ret.
Qed.

Lemma zeros3_lookup (B N C : nat) (b : list (list (list R))) (k : nat) (t : list (list R)) :
  is_batch B N C b -> zeros3 b !! k = Some t ->
  exists pc, b !! k = Some pc /\ length pc = N /\ rect C pc /\ length t = N /\ rect C t.
Proof.
  intros Hb Ht.
  assert (k < B)%nat as Hk.
  { destruct Hb as [<- _]. apply lookup_lt_Some in Ht.
    unfold zeros3 in Ht. by rewrite length_fmap in Ht. }
  destruct (is_batch_lookup B N C b k Hb Hk) as (pc & Hpc & HN & HC).
  destruct (is_batch_lookup B N C (zeros3 b) k (is_batch_zeros3 B N C b Hb) Hk)
    as (t' & Ht' & HtN & HtC).
  rewrite Ht in Ht'. injection Ht' as <-. by exists pc.
Qed.

Lemma zeros3_length (b : list (list (list R))) : length (zeros3 b) = length b.
Proof. unfold zeros3. by rewrite length_fmap. Qed.

Lemma succeeds_np_random_uniform_unit :
  succeeds (G:=G) (np_random_uniform 0 1) (fun u => 0 <= u < 1).
Proof.
  intros w. unfold np_random_uniform, bind, np_random_random, ret.
  pose proof (random_sample_range (np_random_global w)) as Hu.
  destruct (random_sample (np_random_global w)) as [u g]. simpl in *.
  eexists _, _. split; [done|]. split; [done|]. lra.
Qed.

(** The rotation about the second axis keeps norms and second coordinates;
    the product of the three axis rotations keeps norms. *)
Lemma rotation_y_isometry (pc : list (list R)) (theta : R) :
  rect 3 pc -> turned_about_y pc (np_dot pc (rotation_y theta)).
Proof.
  intros HC. rewrite np_dot_row_times. apply Forall2_fmap_r, Forall_Forall2_diag.
  eapply Forall_impl; [exact HC|]. intros p Hp. simpl in Hp.
  destruct (rotate_y_norm p theta Hp) as (_ & H1 & H2). by split.
Qed.

Lemma perturbation_isometry (pc : list (list R)) (angles : list R) :
  rect 3 pc -> same_norms pc (np_dot pc (perturbation_matrix angles)).
Proof.
  intros HC. rewrite np_dot_row_times. apply Forall2_fmap_r, Forall_Forall2_diag.
  eapply Forall_impl; [exact HC|]. intros p Hp. simpl in Hp.
  by apply perturbation_matrix_norm.
Qed.

(** What [rotate_point_cloud] stores for each cloud: the cast of its product
    with a rotation about the second axis. *)
Lemma rotate_law (B N : nat) (b : list (list (list R))) :
  is_batch B N 3 b ->
  succeeds (G:=G) (rotate_point_cloud b)
    (fun b' => length b' = length b /\
       forall k pc, b !! k = Some pc ->
         exists theta, 0 <= theta < 2 * PI /\
           b' !! k = Some (astype_float32 (np_dot pc (rotation_y theta)))).
Proof.
  intros Hb. unfold rotate_point_cloud. rewrite <- (zeros3_length b).
  eapply succeeds_weaken; [|apply (succeeds_for_in_update _
    (fun k (_ v : list (list R)) => forall pc, b !! k = Some pc ->
       exists theta, 0 <= theta < 2 * PI /\
         v = astype_float32 (np_dot pc (rotation_y theta))))].
  - intros b' [Hlen Hall]. split; [done|]. intros k pc Hk.
    destruct (lookup_lt_is_Some_2 (zeros3 b) k) as [t Ht].
    { rewrite zeros3_length. apply lookup_lt_is_Some. by eexists. }
    destruct (Hall k t Ht) as (v & Hv & HP).
    destruct (HP pc Hk) as (theta & Htheta & ->). by exists theta.
  - intros k s t Ht Hs.
    destruct (zeros3_lookup B N 3 b k t Hb Ht) as (pc & Hpc & HN & HC & HtN & HtC).
    eapply succeeds_bind; [apply succeeds_np_random_uniform_unit|]. intros u Hu.
    eapply succeeds_weaken; [|apply (rotate_pass_value B N b s k pc t); try done].
    + intros s' ->. eexists. split; [done|]. intros pc0 Hpc0.
      rewrite Hpc in Hpc0. injection Hpc0 as <-.
      exists (u * 2 * PI). split; [|done]. pose proof PI_RGT_0. cbv beta in Hu. nra.
    + by repeat constructor.
Qed.

(** What [rotate_perturbation_point_cloud] stores for each cloud: the cast
    of its product with the matrix of three clipped angles. *)
Lemma rotate_perturbation_law (B N : nat) (b : list (list (list R)))
    (angle_sigma angle_clip : R) :
  is_batch B N 3 b ->
  succeeds (G:=G) (rotate_perturbation_point_cloud b angle_sigma angle_clip)
    (fun b' => length b' = length b /\
       forall k pc, b !! k = Some pc ->
         exists angles, length angles = 3%nat /\
           (0 <= angle_clip -> Forall (fun a => - angle_clip <= a <= angle_clip) angles) /\
           b' !! k = Some (astype_float32 (np_dot pc (perturbation_matrix angles)))).
Proof.
  intros Hb. unfold rotate_perturbation_point_cloud. rewrite <- (zeros3_length b).
  eapply succeeds_weaken; [|apply (succeeds_for_in_update _
    (fun k (_ v : list (list R)) => forall pc, b !! k = Some pc ->
       exists angles, length angles = 3%nat /\
         (0 <= angle_clip -> Forall (fun a => - angle_clip <= a <= angle_clip) angles) /\
         v = astype_float32 (np_dot pc (perturbation_matrix angles))))].
  - intros b' [Hlen Hall]. split; [done|]. intros k pc Hk.
    destruct (lookup_lt_is_Some_2 (zeros3 b) k) as [t Ht].
    { rewrite zeros3_length. apply lookup_lt_is_Some. by eexists. }
    destruct (Hall k t Ht) as (v & Hv & HP).
    destruct (HP pc Hk) as (angles & H3 & Hrange & ->). by exists angles.
  - intros k s t Ht Hs.
    destruct (zeros3_lookup B N 3 b k t Hb Ht) as (pc & Hpc & HN & HC & HtN & HtC).
    eapply succeeds_bind; [apply succeeds_repeatM, succeeds_np_random_randn|].
    intros zs [Hzs _].
    destruct (perturbation_matrix_shape
                ((fun z => np_clip (angle_sigma * z) (- angle_clip) angle_clip) <$> zs))
      as [H1 H2].
    eapply succeeds_weaken; [|apply (rotate_pass_value B N b s k pc t); try done].
    intros s' ->. eexists. split; [done|]. intros pc0 Hpc0.
    rewrite Hpc in Hpc0. injection Hpc0 as <-.
    eexists. split_and!; [|
      |done].
    + by rewrite length_fmap.
    + intros Hclip. apply Forall_fmap, Forall_forall. intros z _. simpl.
      apply np_clip_range. lra.
Qed.

(** A cloud of a batch has the width of the batch. *)
Lemma is_batch_rect {X} (B N C : nat) (b : list (list (list X))) (k : nat)
    (pc : list (list X)) :
  is_batch B N C b -> b !! k = Some pc -> rect C pc.
Proof.
  intros [_ Hall] Hk. exact (proj2 (proj1 (Forall_lookup _ _) Hall k pc Hk)).
Qed.

End RotationLaws.

Section AugmentationGeometry.
Context {G : Type} `{!RandomState G} `{!Cast32 R}.
Local Open Scope R_scope.

(** X6.  [random_scale_point_cloud] multiplies all coordinates of a cloud by
    one factor, which lies in [scale_low, scale_high]; it keeps the shape of
    the batch and never raises. *)
Theorem random_scale_point_cloud_law (B N C : nat) (b : list (list (list R)))
    (scale_low scale_high : R) :
  is_batch B N C b -> scale_low <= scale_high ->
  succeeds (G:=G) (random_scale_point_cloud b scale_low scale_high)
    (fun b' => is_batch B N C b' /\
       forall k pc, b !! k = Some pc ->
         exists s, scale_low <= s <= scale_high /\
           b' !! k = Some ((fun r : list R => (fun x => x * s) <$> r) <$> pc)).
Proof.
  intros Hb Hle.
  eapply succeeds_weaken;
    [|apply succeeds_and; [by apply random_scale_point_cloud_shape
                          |by apply (scale_law b scale_low scale_high)]].
  intros b' [Hb' [_ Hlaw]]. by split.
Qed.

(** X7.  [shift_point_cloud] adds to all points of a cloud one vector of
    three components, each within [shift_range] of zero; on a batch of
    3-channel clouds it keeps the shape and never raises. *)
Theorem shift_point_cloud_law (B N : nat) (b : list (list (list R))) (shift_range : R) :
  is_batch B N 3 b -> 0 <= shift_range ->
  succeeds (G:=G) (shift_point_cloud b shift_range)
    (fun b' => is_batch B N 3 b' /\
       forall k pc, b !! k = Some pc ->
         exists t, length t = 3%nat /\
           Forall (fun x => - shift_range <= x <= shift_range) t /\
           b' !! k = Some ((fun r => zip_with Rplus r t) <$> pc)).
Proof.
  intros Hb Hr.
  eapply succeeds_weaken;
    [|apply succeeds_and; [by apply shift_point_cloud_shape
                          |by apply (shift_law B N b shift_range)]].
  intros b' [Hb' [_ Hlaw]]. by split.
Qed.

(** X9.  [rotate_point_cloud] stores, for each cloud, the float32 cast of
    the product of the cloud with the matrix of a rotation about the second
    axis by an angle drawn in [0, 2 pi); in exact arithmetic that product,
    before the cast, has for every point the norm and the second coordinate
    of the point it comes from.  The batch keeps its shape and nothing is
    raised. *)
Theorem rotate_point_cloud_isometry (B N : nat) (b : list (list (list R))) :
  is_batch B N 3 b ->
  succeeds (G:=G) (rotate_point_cloud b)
    (fun b' => is_batch B N 3 b' /\
       forall k pc, b !! k = Some pc ->
         exists theta, 0 <= theta < 2 * PI /\
           b' !! k = Some (astype_float32 (np_dot pc (rotation_y theta))) /\
           turned_about_y pc (np_dot pc (rotation_y theta))).
Proof.
  intros Hb.
  eapply succeeds_weaken;
    [|apply succeeds_and; [by apply rotate_point_cloud_shape
                          |by apply (rotate_law B N)]].
  intros b' [Hb' [_ Hlaw]]. split; [done|]. intros k pc Hk.
  destruct (Hlaw k pc Hk) as (theta & Htheta & Hv).
  exists theta. split; [done|]. split; [done|].
  apply rotation_y_isometry. by eapply (is_batch_rect B N 3 b k).
Qed.

(** X10.  [rotate_perturbation_point_cloud] stores, for each cloud, the
    float32 cast of the product of the cloud with the matrix
    Rz . Ry . Rx of three angles, each clipped to
    [-angle_clip, angle_clip]; in exact arithmetic that product, before the
    cast, keeps the norm of every point.  The batch keeps its shape and
    nothing is raised. *)
Theorem rotate_perturbation_point_cloud_isometry (B N : nat) (b : list (list (list R)))
    (angle_sigma angle_clip : R) :
  is_batch B N 3 b ->
  succeeds (G:=G) (rotate_perturbation_point_cloud b angle_sigma angle_clip)
    (fun b' => is_batch B N 3 b' /\
       forall k pc, b !! k = Some pc ->
         exists angles, length angles = 3%nat /\
           (0 <= angle_clip -> Forall (fun a => - angle_clip <= a <= angle_clip) angles) /\
           b' !! k = Some (astype_float32 (np_dot pc (perturbation_matrix angles))) /\
           same_norms pc (np_dot pc (perturbation_matrix angles))).
Proof.
  intros Hb.
  eapply succeeds_weaken;
    [|apply succeeds_and; [by apply rotate_perturbation_point_cloud_shape
                          |by apply (rotate_perturbation_law B N)]].
  intros b' [Hb' [_ Hlaw]]. split; [done|]. intros k pc Hk.
  destruct (Hlaw k pc Hk) as (angles & H3 & Hrange & Hv).
  exists angles. split; [done|]. split; [done|]. split; [done|].
  apply perturbation_isometry. by eapply (is_batch_rect B N 3 b k).
Qed.

End AugmentationGeometry.

Section StreamFacts.
Context {G : Type} `{!RandomState G} `{!Cast32 R}.
Local Open Scope R_scope.

Lemma global_only_ret {A} (a : A) : draws_global_only (G:=G) (ret a).
Proof. by intros w. Qed.

Lemma global_only_raise {A} : draws_global_only (G:=G) (@raise G A).
Proof. by intros w. Qed.

Lemma global_only_lift_opt {A} (o : option A) : draws_global_only (G:=G) (lift_opt o).
Proof. by intros w. Qed.

Lemma global_only_bind {A B} (m : M G A) (k : A -> M G B) :
  draws_global_only m -> (forall a, draws_global_only (k a)) ->
  draws_global_only (bind m k).
Proof.
  intros Hm Hk w. unfold bind. destruct (Hm w) as (H1 & H2).
  destruct (m w) as [[a|] w1]; simpl in *; [|done].
  destruct (Hk a w1) as (H4 & H5). by rewrite H4, H5.
Qed.

Lemma global_only_for_in {A St} (l : list A) (body : A -> St -> M G St) :
  (forall x s, draws_global_only (body x s)) ->
  forall s, draws_global_only (for_in l body s).
Proof.
  intros Hbody. induction l as [|x l IH]; intros s; simpl.
  - apply global_only_ret.
  - apply global_only_bind; [apply Hbody|apply IH].
Qed.

Lemma global_only_repeatM {A} (n : nat) (m : M G A) :
  draws_global_only m -> draws_global_only (repeatM n m).
Proof.
  intros Hm. induction n as [|n IH]; simpl.
  - apply global_only_ret.
  - apply global_only_bind; [done|]. intros x.
    apply global_only_bind; [done|]. intros xs. apply global_only_ret.
Qed.

Lemma global_only_mapM_M {A B} (f : A -> M G B) (l : list A) :
  (forall x, draws_global_only (f x)) -> draws_global_only (mapM_M f l).
Proof.
  intros Hf. induction l as [|x l IH]; simpl.
  - apply global_only_ret.
  - apply global_only_bind; [done|]. intros y.
    apply global_only_bind; [done|]. intros ys. apply global_only_ret.
Qed.

Lemma global_only_random : draws_global_only (G:=G) np_random_random.
Proof. intros w. unfold np_random_random. by destruct (random_sample _). Qed.

Lemma global_only_randn : draws_global_only (G:=G) np_random_randn.
Proof. intros w. unfold np_random_randn. by destruct (standard_normal _). Qed.

Lemma global_only_uniform (lo hi : R) : draws_global_only (G:=G) (np_random_uniform lo hi).
Proof. apply global_only_bind; [apply global_only_random|]. intros u. apply global_only_ret. Qed.

Lemma mirrors_np_random_only {A} (m' m : M G A) :
  mirrors m' m -> draws_global_only m -> draws_np_random_only m'.
Proof.
  intros Hm Hg w. rewrite (Hm w). unfold on_swapped. simpl.
  destruct (Hg (swap_streams w)) as (H1 & H2).
  destruct (m (swap_streams w)) as [a w1]. simpl in *. by rewrite H1, H2.
Qed.

Ltac global_only :=
  repeat first
    [ apply global_only_ret | apply global_only_raise | apply global_only_lift_opt
    | apply global_only_random | apply global_only_randn | apply global_only_uniform
    | apply global_only_repeatM | apply global_only_mapM_M; intros ?
    | apply global_only_for_in; intros ? ?
    | apply global_only_bind; [|intros ?]
    | progress cbv beta zeta
    | match goal with |- draws_global_only (if ?c then _ else _) => destruct c end ].

Lemma global_only_dropout (b : list (list (list R))) (mr : R) :
  draws_global_only (G:=G) (random_point_dropout b mr).
Proof. unfold random_point_dropout. global_only. Qed.

Lemma global_only_scale (b : list (list (list R))) (lo hi : R) :
  draws_global_only (G:=G) (random_scale_point_cloud b lo hi).
Proof. unfold random_scale_point_cloud. global_only. Qed.

Lemma global_only_shift (b : list (list (list R))) (range : R) :
  draws_global_only (G:=G) (shift_point_cloud b range).
Proof. unfold shift_point_cloud. global_only. Qed.

Lemma global_only_jitter (b : list (list (list R))) (sigma clip : R) :
  draws_global_only (G:=G) (jitter_point_cloud b sigma clip).
Proof. unfold jitter_point_cloud. global_only. Qed.

Lemma global_only_rotate (b : list (list (list R))) :
  draws_global_only (G:=G) (rotate_point_cloud b).
Proof. unfold rotate_point_cloud. global_only. Qed.

Lemma global_only_rotate_perturbation (b : list (list (list R))) (sigma clip : R) :
  draws_global_only (G:=G) (rotate_perturbation_point_cloud b sigma clip).
Proof. unfold rotate_perturbation_point_cloud. global_only. Qed.

(** X12.  The two families of augmentations use separate random sources:
    the plain functions draw from the global stream of [np.random] only, the
    [_distill] variants from [np_random] only, and neither draws from
    Python's [random], whether it returns or raises.  (Which arrays a call
    writes is not part of the statement.) *)
Theorem augmentation_streams (b : list (list (list R)))
    (max_dropout_ratio scale_low scale_high shift_range sigma clip
     angle_sigma angle_clip : R) :
  (draws_global_only (G:=G) (random_point_dropout b max_dropout_ratio) /\
   draws_global_only (G:=G) (random_scale_point_cloud b scale_low scale_high) /\
   draws_global_only (G:=G) (shift_point_cloud b shift_range) /\
   draws_global_only (G:=G) (jitter_point_cloud b sigma clip) /\
   draws_global_only (G:=G) (rotate_point_cloud b) /\
   draws_global_only (G:=G) (rotate_perturbation_point_cloud b angle_sigma angle_clip)) /\
  (draws_np_random_only (G:=G) (random_point_dropout_distill b max_dropout_ratio) /\
   draws_np_random_only (G:=G) (random_scale_point_cloud_distill b scale_low scale_high) /\
   draws_np_random_only (G:=G) (shift_point_cloud_distill b shift_range) /\
   draws_np_random_only (G:=G) (rotate_point_cloud_distill b) /\
   draws_np_random_only (G:=G)
     (rotate_perturbation_point_cloud_distill b angle_sigma angle_clip)).
Proof.
  split.
  - split; [apply global_only_dropout|]. split; [apply global_only_scale|].
    split; [apply global_only_shift|]. split; [apply global_only_jitter|].
    split; [apply global_only_rotate|apply global_only_rotate_perturbation].
  - split.
    { eapply mirrors_np_random_only; [apply mirrors_random_point_dropout|].
      apply global_only_dropout. }
    split.
    { eapply mirrors_np_random_only; [apply mirrors_random_scale_point_cloud|].
      apply global_only_scale. }
    split.
    { eapply mirrors_np_random_only; [apply mirrors_shift_point_cloud|].
      apply global_only_shift. }
    split.
    { eapply mirrors_np_random_only; [apply mirrors_rotate_point_cloud|].
      apply global_only_rotate. }
    eapply mirrors_np_random_only; [apply mirrors_rotate_perturbation_point_cloud|].
    apply global_only_rotate_perturbation.
Qed.

End StreamFacts.

Section RotateDistill.
Context {G : Type} `{!RandomState G} `{!Cast32 R}.
Local Open Scope R_scope.

(** X11.  [rotate_point_cloud_distill] is the rotation of
    [rotate_point_cloud] drawn from [np_random]: it stores, for each cloud,
    the float32 cast of the product of the cloud with the matrix of a
    rotation about the second axis by an angle in [0, 2 pi), a product that
    in exact arithmetic, before the cast, keeps norms and second
    coordinates; it keeps the shape of the batch; and from a world in which
    the two generators are in the same state it returns what
    [rotate_point_cloud] returns. *)
Theorem rotate_point_cloud_distill_law (B N : nat) (b : list (list (list R))) :
  is_batch B N 3 b ->
  succeeds (G:=G) (rotate_point_cloud_distill b)
    (fun b' => is_batch B N 3 b' /\
       forall k pc, b !! k = Some pc ->
         exists theta, 0 <= theta < 2 * PI /\
           b' !! k = Some (astype_float32 (np_dot pc (rotation_y theta))) /\
           turned_about_y pc (np_dot pc (rotation_y theta))) /\
  forall w : world G,
    np_random w = np_random_global w ->
    (rotate_point_cloud_distill b w).1 = (rotate_point_cloud b w).1.
Proof.
  intros Hb. split.
  - eapply succeeds_mirrors; [apply mirrors_rotate_point_cloud|].
    eapply succeeds_weaken;
      [|apply succeeds_and; [by apply rotate_point_cloud_shape
                            |by apply (rotate_law B N)]].
    intros b' [Hb' [_ Hlaw]]. split; [done|]. intros k pc Hk.
    destruct (Hlaw k pc Hk) as (theta & Htheta & Hv).
    exists theta. split; [done|]. split; [done|].
    apply rotation_y_isometry. by eapply (is_batch_rect B N 3 b k).
  - intros w Hw. apply mirrors_same_result; [apply mirrors_rotate_point_cloud|done].
Qed.

End RotateDistill.

Section DropoutRows.
Context {G : Type} `{!RandomState G} {A : Type}.
Local Open Scope R_scope.

Lemma dropout_cloud_rows (mr : R) (pc : list (list A)) (u : R) (rs : list R) (r : list A) :
  r ∈ dropout_cloud mr pc u rs -> r ∈ pc.
Proof.
  unfold dropout_cloud. destruct (decide _) as [_|_]; [|done].
  intros [i Hi]%list_elem_of_lookup.
  assert (i < length pc)%nat as Hlt.
  { apply lookup_lt_Some in Hi. by rewrite assign_rows_length in Hi. }
  rewrite assign_rows_lookup in Hi by done.
  destruct (decide _) as [_|_].
  - injection Hi as <-. destruct pc as [|p pc]; [simpl in Hlt; lia|]. simpl. apply list_elem_of_here.
  - by eapply list_elem_of_lookup_2.
Qed.

(** Dropout writes no new point: every row of an output cloud is a row of
    the cloud it was made of. *)
Lemma random_point_dropout_rows (B N C : nat) (b : list (list (list A))) (mr : R) :
  is_batch B N C b ->
  succeeds (G:=G) (random_point_dropout b mr)
    (fun b' => Forall2 (fun pc pc' : list (list A) =>
                          length pc' = length pc /\ forall r, r ∈ pc' -> r ∈ pc) b b').
Proof.
  intros Hb w. rewrite (random_point_dropout_run B N C b mr w Hb).
  eexists _, _. split; [done|]. split; [done|].
  pose proof (dropout_draws_length B N (np_random_global w)) as Hlen.
  destruct Hb as [HB Hall].
  apply Forall2_same_length_lookup_2.
  - rewrite length_zip_with. lia.
  - intros k pc pc' Hpc Hpc'.
    apply lookup_zip_with_Some in Hpc' as (pc0 & d & -> & Hpc0 & Hd).
    rewrite Hpc in Hpc0. injection Hpc0 as <-.
    destruct (proj1 (Forall_lookup _ _) Hall k pc Hpc) as [HN HC].
    split; [|apply dropout_cloud_rows].
    by destruct (dropout_cloud_shape mr N C pc d.1 d.2 HN HC) as [-> _].
Qed.

End DropoutRows.

(** ** [ModelNet]: the stored array and the sample *)

Section ModelNetStore.
Context {G : Type} `{!RandomState G} `{!Cast32 R}.
Context {image caption feature : Type}.
Local Open Scope string_scope.
Local Open Scope list_scope.

Lemma write_back_row (D : nat) (r ry : list R) :
  length r = D -> length ry = (3 `min` D)%nat ->
  take 3 (ry ++ drop 3 r) = ry /\ ry ++ drop 3 (ry ++ drop 3 r) = ry ++ drop 3 r.
Proof.
  intros Hr Hry. destruct (decide (3 <= D)%nat) as [Hge|Hlt].
  - rewrite take_app_length', drop_app_length' by lia. done.
  - rewrite (drop_ge r) by lia. rewrite app_nil_r.
    rewrite take_ge, drop_ge by lia. by rewrite app_nil_r.
Qed.

Lemma write_back (D : nat) (a y : list (list R)) :
  Forall2 (fun r ry : list R => length r = D /\ length ry = (3 `min` D)%nat) a y ->
  let a' := zip_with (fun (r ry : list R) => ry ++ drop 3 r) a y in
  length a' = length a /\ take 3 <$> a' = y /\
  zip_with (fun (r ry : list R) => ry ++ drop 3 r) a' y = a'.
Proof.
  induction 1 as [|r ry a y [Hr Hry] _ (IH1 & IH2 & IH3)]; [done|].
  destruct (write_back_row D r ry Hr Hry) as [H1 H2].
  csimpl. rewrite IH1, IH2, IH3, H1, H2. done.
Qed.

Lemma lift_write_back (a y : list (list R)) :
  zip_with (fun (r ry : list npfloat) => ry ++ drop 3 r) (lift a) (lift y)
  = lift (zip_with (fun (r ry : list R) => ry ++ drop 3 r) a y).
Proof.
  unfold lift. revert y. induction a as [|r a IH]; intros [|ry y]; csimpl; try done.
  by rewrite IH, fmap_app, fmap_drop.
Qed.

(** A run of [_get_item] on a stored array that needs no sampling: up to the
    write of the normalised coordinates into the stored array.  What follows
    the write is the same computation whenever the array written is. *)
Lemma get_item_prefix (self : ModelNet.t (feature:=feature)) (index p label : nat)
    (a y : list (list R)) (w : world G) :
  (forall x : R, float32 x = x) ->
  ModelNet.process_data self = true ->
  ModelNet.list_of_points self !! index = Some p ->
  ModelNet.list_of_labels self !! index = Some label ->
  mem w !! p = Some (Float2 a) ->
  (length a <= ModelNet.npoints self)%nat ->
  pc_normalize (take 3 <$> a) = Some (lift y) ->
  exists rest : list (list npfloat) -> nat -> M G (prod (list (list npfloat)) nat),
    (forall a0 l0 v, (rest a0 l0 v).2 = v) /\
    forall (a2 y2 : list (list R)) (w2 : world G),
      mem w2 !! p = Some (Float2 a2) ->
      (length a2 <= ModelNet.npoints self)%nat ->
      pc_normalize (take 3 <$> a2) = Some (lift y2) ->
      ModelNet._get_item self index w2
      = rest (lift (zip_with (fun (r ry : list R) => ry ++ drop 3 r) a2 y2)) label
          (set_mem (<[p := Float2 (zip_with (fun (r ry : list R) => ry ++ drop 3 r) a2 y2)]>
                      (mem w2)) w2).
Proof.
  intros Hexact Hproc Hp Hl Hmem Hlen Hnorm.
  eexists (fun a' label =>
    let point_set := if ModelNet.use_normals self then a' else take 3 <$> a' in
    let! point_set := if ModelNet.use_height self then lift_opt (append_height point_set)
                      else ret point_set in
    if ModelNet.use_10k_pc self && ModelNet.use_colored_pc self then
      let! xyz := lift_opt (ModelNet.modelnet_10k_rgb_data self !! index) in
      let point_set := append_rgb (lift xyz) in
      let! cat := lift_opt (ModelNet.cat_name self !! index) in
      let! label := lift_opt (ModelNet.list_index cat (ModelNet.shape_names self)) in
      ret (point_set, label)
    else if ModelNet.use_colored_pc self then ret (append_rgb point_set, label)
    else ret (point_set, label)).
  split.
  - intros a0 l0 v. unfold bind, lift_opt, ret. cbv zeta.
    repeat case_match; by simplify_eq/=.
  - intros a2 y2 w2 Hmem2 Hlen2 Hnorm2. unfold ModelNet._get_item. rewrite Hproc.
    rewrite (bind_Some _ _ w2 w2 (p, label)).
    2:{ unfold bind, lift_opt, ret. by rewrite Hp, Hl. }
    cbn [fst snd].
    rewrite (bind_Some _ _ w2 w2 (lift a2)) by by apply load_floats_Some.
    rewrite decide_False by (rewrite lift_length; lia).
    rewrite (bind_Some _ _ w2 w2 p) by done.
    rewrite (bind_Some _ _ w2 w2 (lift a2)) by by apply load_floats_Some.
    rewrite (bind_Some _ _ w2 w2 (lift y2)).
    2:{ unfold lift_opt. by rewrite lift_take, pc_normalize_floats_lift, Hnorm2. }
    rewrite astype_float32_lift, (astype_float32_exact _ Hexact).
    rewrite lift_write_back, of_floats_lift.
    rewrite (bind_Some _ _ w2 _ tt) by by eapply store_Some.
    done.
Qed.

Lemma getitem_pure_tail (self : ModelNet.t (feature:=feature)) (index : nat)
    (o : option (list (list npfloat) * nat)) (w1 : world G) :
  ModelNet.subset self <> "train" ->
  forall w0, ModelNet._get_item self index w0 = (o, w1) ->
    (ModelNet.getitem (image:=image) (caption:=caption) self index w0).2 = w1 /\
    forall w2, ModelNet._get_item self index w2 = (o, w1) ->
      ModelNet.getitem (image:=image) (caption:=caption) self index w2
      = ModelNet.getitem self index w0.
Proof.
  intros Hsub w0 Hrun. unfold ModelNet.getitem.
  rewrite !(bool_decide_eq_false_2 (ModelNet.subset self = "train")) by done.
  split.
  - unfold bind at 1. rewrite Hrun. destruct o as [pl|]; [|done].
    unfold bind, lift_opt, ret. repeat case_match; by simplify_eq/=.
  - intros w2 Hrun2. unfold bind at 1 5. by rewrite Hrun, Hrun2.
Qed.

(** X16.  In exact arithmetic (the centring, the norms and the division of
    [pc_normalize] computed without rounding, and a cast to float32 that
    changes no value), on an entry whose stored array needs no sampling and
    whose points are not all equal: [ModelNet.__getitem__] leaves in the
    store, at the address of the entry, the array whose first three columns
    are the normalised coordinates, and, normalisation being idempotent
    there, a second call on the evaluation split returns what the first
    returned and leaves the store as the first left it. *)
Theorem ModelNet_getitem_repeatable (self : ModelNet.t (feature:=feature))
    (index p label D : nat) (a : list (list R)) (w : world G) :
  (forall x : R, float32 x = x) ->
  ModelNet.process_data self = true ->
  ModelNet.subset self <> "train" ->
  ModelNet.list_of_points self !! index = Some p ->
  ModelNet.list_of_labels self !! index = Some label ->
  mem w !! p = Some (Float2 a) ->
  (length a <= ModelNet.npoints self)%nat ->
  rect D a -> nondegenerate (take 3 <$> a) ->
  (exists y, pc_normalize (take 3 <$> a) = Some (lift y) /\
     mem (ModelNet.getitem (image:=image) (caption:=caption) self index w).2 !! p
     = Some (Float2 (zip_with (fun (r ry : list R) => ry ++ drop 3 r) a y))) /\
  ModelNet.getitem (image:=image) (caption:=caption) self index
    (ModelNet.getitem (image:=image) (caption:=caption) self index w).2
  = ModelNet.getitem self index w.
Proof.
  intros Hexact Hproc Hsub Hp Hl Hmem Hlen Hrect Hnd.
  assert (rect (3 `min` D) (take 3 <$> a)) as Hrect3.
  { apply Forall_fmap. eapply Forall_impl; [exact Hrect|]. intros r Hr. simpl in *.
    by rewrite length_take, Hr. }
  destruct (pc_normalize_nondegenerate _ _ Hrect3 Hnd)
    as (y & m & _ & _ & Hy & Hnorm & Hyrect & Hyne & Hmean & Hmax).
  assert (length y = length a) as Hylen.
  { rewrite Hy. unfold scale_rows, sub_rows. by rewrite !length_fmap. }
  assert (Forall2 (fun r ry : list R => length r = D /\ length ry = (3 `min` D)%nat) a y)
    as Hrows.
  { apply Forall2_same_length_lookup_2; [done|]. intros i r ry Hr Hry. split.
    - exact (proj1 (Forall_lookup _ _) Hrect i r Hr).
    - exact (proj1 (Forall_lookup _ _) Hyrect i ry Hry). }
  destruct (write_back D a y Hrows) as (Hlen' & Htake & Hzip).
  set (a' := zip_with (fun (r ry : list R) => ry ++ drop 3 r) a y) in *.
  destruct (pc_normalize_fixed _ y Hyrect Hyne Hmean Hmax) as [Hfix _].
  destruct (get_item_prefix self index p label a y w Hexact Hproc Hp Hl Hmem Hlen Hnorm)
    as (rest & Hpure & Hrun).
  set (w1 := set_mem (<[p := Float2 a']> (mem w)) w).
  pose proof (Hrun a y w Hmem Hlen Hnorm) as Hrun1. fold a' in Hrun1. fold w1 in Hrun1.
  assert (mem w1 !! p = Some (Float2 a')) as Hmem1 by (simpl; by rewrite lookup_insert_eq).
  assert (ModelNet._get_item self index w1 = rest (lift a') label w1) as Hrun2.
  { rewrite (Hrun a' y w1 Hmem1); [| lia | by rewrite Htake].
    rewrite Hzip. f_equal. unfold w1, set_mem. simpl. by rewrite insert_insert_eq. }
  destruct (rest (lift a') label w1) as [o w1'] eqn:Hrest.
  assert (w1' = w1) as -> by (rewrite <- (Hpure (lift a') label w1); by rewrite Hrest).
  destruct (getitem_pure_tail self index o w1 Hsub w Hrun1) as [Hw Hsame].
  rewrite Hw. split; [by exists y|]. by apply Hsame.
Qed.

End ModelNetStore.

Section ModelNetSample.
Context {G : Type} `{!RandomState G} `{!Cast32 R}.
Context {image caption feature : Type}.
Local Open Scope string_scope.
Local Open Scope list_scope.

(** X17.  The sample of [ModelNet.__getitem__] holds the float32 cast of
    the points that [_get_item] returns (NaN rows included, on an entry
    whose points are all equal), in a shuffled order on the training split
    and in their own order otherwise, with the label of [_get_item] and the
    name of that label. *)
Theorem ModelNet_getitem_points (self : ModelNet.t (feature:=feature)) (index : nat)
    (w w' : world G) (s : Sample image caption feature) :
  ModelNet.getitem self index w = (Some s, w') ->
  exists (points pc : list (list npfloat)) (label : nat) (w1 : world G),
    ModelNet._get_item self index w = (Some (points, label), w1) /\
    s !! "pc" = Some (VTensor (tensor_float (Tensor2 pc))) /\
    s !! "label" = Some (VInt label) /\
    pc ≡ₚ points /\
    (ModelNet.subset self <> "train" -> pc = points /\ w' = w1) /\
    (exists name, ModelNet.shape_names self !! label = Some name /\
                  s !! "class_name" = Some (VStr name)).
Proof.
  intros H. unfold ModelNet.getitem in H.
  apply bind_inv in H as ([points label] & w1 & Hget & H). cbn [fst snd] in H.
  apply bind_inv in H as (idxs & w2 & Hidx & H).
  apply bind_inv in H as (pc & w3 & Hpc%lift_opt_inv & H). destruct Hpc as [Hpc ->].
  apply bind_inv in H as (name & w4 & Hname%lift_opt_inv & H). destruct Hname as [Hname ->].
  assert (idxs ≡ₚ seq 0 (length points) /\
          (ModelNet.subset self <> "train" -> idxs = seq 0 (length points) /\ w2 = w1))
    as [Hperm Htest].
  { destruct (bool_decide (ModelNet.subset self = "train")) eqn:Hsub.
    - split; [|by apply bool_decide_eq_true in Hsub].
      destruct (shuffle (seq 0 (length points)) (np_random_global w1)) as [v g] eqn:Hsh.
      injection Hidx as <- _.
      pose proof (shuffle_perm (seq 0 (length points)) (np_random_global w1)) as Hp.
      by rewrite Hsh in Hp.
    - apply ret_inv in Hidx as [-> ->]. done. }
  assert (pc ≡ₚ points) as Hpcperm.
  { destruct (rows_at_prefix points idxs (length points) Hperm) as (rows & Hrows & Hlen & Hsub).
    rewrite take_ge in Hrows.
    2:{ apply Permutation_length in Hperm. rewrite Hperm, length_seq. lia. }
    rewrite Hpc in Hrows. injection Hrows as <-.
    apply submseteq_length_Permutation; [done|lia]. }
  assert (s !! "pc" = Some (VTensor (tensor_float (Tensor2 pc))) /\ s !! "label" = Some (VInt label) /\
          s !! "class_name" = Some (VStr name) /\
          (ModelNet.subset self <> "train" -> w' = w2)) as (Hs1 & Hs2 & Hs3 & Hw).
  { destruct (bool_decide (ModelNet.subset self = "train")) eqn:Hsub.
    - apply bind_inv in H as (ti & w5 & _ & H).
      apply bind_inv in H as (tf & w6 & _ & H).
      apply ret_inv in H as [-> _].
      split_and!; try done. by apply bool_decide_eq_true in Hsub.
    - apply ret_inv in H as [-> ->]. done. }
  exists points, pc, label, w1. split_and!; try done.
  - intros Hsub. destruct (Htest Hsub) as [-> ->]. split; [|by apply Hw].
    rewrite mapM_lookup_seq in Hpc. by injection Hpc.
  - by exists name.
Qed.

End ModelNetSample.

(** ** Tables and names built by the constructors *)

Section TableFacts.
Local Open Scope string_scope.
Local Open Scope list_scope.

Lemma enumerate_keys_snoc (keys : list string) (k : string) :
  enumerate_keys (keys ++ [k]) = <[k := length keys]> (enumerate_keys keys).
Proof.
  unfold enumerate_keys. rewrite imap_app, foldl_app. simpl.
  by rewrite Nat.add_0_r.
Qed.

(** The table holds, for each key, the position of its last occurrence. *)
Lemma enumerate_keys_lookup (keys : list string) (s : string) (i : nat) :
  enumerate_keys keys !! s = Some i <->
  keys !! i = Some s /\ forall j, (i < j)%nat -> keys !! j <> Some s.
Proof.
  revert i. induction keys as [|k keys IH] using rev_ind; intros i.
  - unfold enumerate_keys. simpl. rewrite lookup_empty. split; [done|]. by intros [? _].
  - rewrite enumerate_keys_snoc. destruct (decide (k = s)) as [->|Hne].
    + rewrite lookup_insert_eq. split.
      * intros [= <-]. split.
        -- by rewrite lookup_app_r, Nat.sub_diag by lia.
        -- intros j Hj. rewrite lookup_ge_None_2; [done|]. rewrite length_app. simpl. lia.
      * intros [Hi Hlast]. f_equal.
        destruct (decide (i = length keys)) as [|Hne]; [done|].
        assert (i < length keys)%nat as Hlt.
        { apply lookup_lt_Some in Hi. rewrite length_app in Hi. simpl in Hi. lia. }
        destruct (Hlast (length keys) Hlt). by rewrite lookup_app_r, Nat.sub_diag by lia.
    + rewrite lookup_insert_ne by done. rewrite IH. split.
      * intros [Hi Hlast]. split; [by apply lookup_app_l_Some|].
        intros j Hj Hjs. apply lookup_app_Some in Hjs as [Hjs|[_ Hjs]].
        -- by apply (Hlast j).
        -- apply list_lookup_singleton_Some in Hjs as [_ ?]. done.
      * intros [Hi Hlast].
        apply lookup_app_Some in Hi as [Hi|[_ Hi]].
        -- split; [done|]. intros j Hj Hjs. apply (Hlast j Hj). by apply lookup_app_l_Some.
        -- apply list_lookup_singleton_Some in Hi as [_ ?]. done.
Qed.

Lemma enumerate_keys_is_Some (keys : list string) (s : string) :
  s ∈ keys -> is_Some (enumerate_keys keys !! s).
Proof.
  induction keys as [|k keys IH] using rev_ind; [by intros ?%elem_of_nil|].
  intros Hs. rewrite enumerate_keys_snoc. destruct (decide (k = s)) as [->|Hne].
  - rewrite lookup_insert_eq. by eexists.
  - rewrite lookup_insert_ne by done. apply IH.
    apply elem_of_app in Hs as [Hs|Hs%list_elem_of_singleton]; [done|congruence].
Qed.

Lemma synset_id_map_snoc (id_map : list ShapeNetInit.id_dict) (d : ShapeNetInit.id_dict) :
  ShapeNetInit.synset_id_map (id_map ++ [d])
  = <[ShapeNetInit.synsetId d := d]> (ShapeNetInit.synset_id_map id_map).
Proof. unfold ShapeNetInit.synset_id_map. by rewrite foldl_app. Qed.

Lemma index_list_snoc (id_map : list ShapeNetInit.id_dict) (d : ShapeNetInit.id_dict) :
  ShapeNetInit.index_list (id_map ++ [d])
  = <[ShapeNetInit.synsetId d := length id_map]> (ShapeNetInit.index_list id_map).
Proof.
  unfold ShapeNetInit.index_list. rewrite fmap_app. simpl.
  by rewrite enumerate_keys_snoc, length_fmap.
Qed.

(** The two tables of [ShapeNet.__init__] describe the same entry. *)
Lemma synset_id_map_index (id_map : list ShapeNetInit.id_dict) (s : string) :
  ShapeNetInit.synset_id_map id_map !! s
  = i ← ShapeNetInit.index_list id_map !! s; id_map !! i.
Proof.
  induction id_map as [|d id_map IH] using rev_ind; [done|].
  rewrite synset_id_map_snoc, index_list_snoc.
  destruct (decide (ShapeNetInit.synsetId d = s)) as [<-|Hne].
  - rewrite !lookup_insert_eq. simpl. by rewrite lookup_app_r, Nat.sub_diag by lia.
  - rewrite !lookup_insert_ne by done. rewrite IH.
    destruct (ShapeNetInit.index_list id_map !! s) as [i|] eqn:Hi; [|done]. simpl.
    apply enumerate_keys_lookup in Hi as [Hi _].
    apply lookup_lt_Some in Hi. rewrite length_fmap in Hi.
    by rewrite lookup_app_l.
Qed.

(** X18.  The two tables that [ShapeNet.__init__] builds from the taxonomy
    agree: the index that [index_list] gives for a synset id is the position
    of the last entry with that id, and [synset_id_map] holds that entry. *)
Theorem ShapeNet_tables_agree (id_map : list ShapeNetInit.id_dict) (s : string) (i : nat) :
  ShapeNetInit.index_list id_map !! s = Some i ->
  exists d, id_map !! i = Some d /\ ShapeNetInit.synsetId d = s /\
    ShapeNetInit.synset_id_map id_map !! s = Some d /\
    forall j d', (i < j)%nat -> id_map !! j = Some d' -> ShapeNetInit.synsetId d' <> s.
Proof.
  intros Hi. pose proof (synset_id_map_index id_map s) as Hmap. rewrite Hi in Hmap.
  simpl in Hmap. apply enumerate_keys_lookup in Hi as [Hi Hlast].
  rewrite list_lookup_fmap in Hi.
  destruct (id_map !! i) as [d|] eqn:Hd; [|done]. injection Hi as Hs.
  exists d. split_and!; [done..|].
  intros j d' Hj Hd' Hs'. apply (Hlast j Hj). by rewrite list_lookup_fmap, Hd', <- Hs'.
Qed.

(** X20.  [ModelNet.classes] maps every category name of the file to the
    position of its last occurrence; without repeated names, to its
    position. *)
Theorem ModelNet_classes_last_wins (cat : list string) (c : string) :
  (c ∈ cat -> is_Some (ModelNetInit.classes cat !! c)) /\
  (forall i, ModelNetInit.classes cat !! c = Some i <->
     cat !! i = Some c /\ forall j, (i < j)%nat -> cat !! j <> Some c) /\
  (NoDup cat -> forall i, cat !! i = Some c -> ModelNetInit.classes cat !! c = Some i).
Proof.
  split; [apply enumerate_keys_is_Some|]. split; [apply enumerate_keys_lookup|].
  intros Hnd i Hi. apply enumerate_keys_lookup. split; [done|].
  intros j Hj Hjc. pose proof (NoDup_lookup _ _ _ _ Hnd Hi Hjc). lia.
Qed.

End TableFacts.

Section StringFacts.
Local Open Scope string_scope.
Local Open Scope list_scope.

Lemma str_split_nonempty (c : Ascii.ascii) (s : string) : str_split c s <> [].
Proof.
  induction s as [|a s IH]; simpl; [done|].
  destruct (decide (a = c)); [done|]. by destruct (str_split c s).
Qed.

(** A string in which the separator does not occur is one piece. *)
Lemma str_split_free (c : Ascii.ascii) (s : string) :
  c ∉ String.list_ascii_of_string s -> str_split c s = [s].
Proof.
  induction s as [|a s IH]; simpl; [done|]. intros Hc.
  apply not_elem_of_cons in Hc as [Hne Hc].
  rewrite decide_False by done. by rewrite IH.
Qed.

(** The first piece ends at the first separator. *)
Lemma str_split_first (c : Ascii.ascii) (pre rest : string) :
  c ∉ String.list_ascii_of_string pre ->
  str_split c (pre +:+ String c rest) = pre :: str_split c rest.
Proof.
  induction pre as [|a pre IH]; simpl; intros Hc.
  - by rewrite decide_True.
  - apply not_elem_of_cons in Hc as [Hne Hc].
    rewrite decide_False by done. by rewrite IH.
Qed.

Lemma str_from_app (pre rest : string) (c : Ascii.ascii) :
  str_from (String.length pre + 1) (pre +:+ String c rest) = rest.
Proof. induction pre as [|a pre IH]; simpl; [done|exact IH]. Qed.

Lemma str_from_beyond (s : string) : str_from (String.length s + 1) s = "".
Proof. induction s as [|a s IH]; simpl; [done|exact IH]. Qed.

(** X19.  A line [<taxonomy>-<model>.<ext>] of the list file, with no dash
    in the taxonomy id and no dot in the model id, is taken apart into these
    two ids. *)
Theorem file_entry_of_line_round_trip (taxonomy model ext : string) :
  "-"%char ∉ String.list_ascii_of_string taxonomy ->
  "."%char ∉ String.list_ascii_of_string model ->
  ShapeNetInit.file_entry_of_line (taxonomy +:+ "-" +:+ model +:+ "." +:+ ext)
  = {| ShapeNet.taxonomy_id := taxonomy;
       ShapeNet.model_id := model;
       ShapeNet.file_path := taxonomy +:+ "-" +:+ model +:+ "." +:+ ext |}.
Proof.
  intros Ht Hm. unfold ShapeNetInit.file_entry_of_line. cbv zeta.
  change (taxonomy +:+ "-" +:+ model +:+ "." +:+ ext)
    with (taxonomy +:+ String "-" (model +:+ String "." ext)).
  rewrite (str_split_first _ _ _ Ht). simpl default.
  rewrite str_from_app, (str_split_first _ _ _ Hm). done.
Qed.

(** A line without a dash: the whole line is the taxonomy id, and the model
    id is empty. *)
Lemma file_entry_of_line_no_dash (line : string) :
  "-"%char ∉ String.list_ascii_of_string line ->
  ShapeNetInit.file_entry_of_line line
  = {| ShapeNet.taxonomy_id := line; ShapeNet.model_id := "";
       ShapeNet.file_path := line |}.
Proof.
  intros Hl. unfold ShapeNetInit.file_entry_of_line. cbv zeta.
  rewrite (str_split_free _ _ Hl). simpl default. by rewrite str_from_beyond.
Qed.

Lemma str_join_cons_char (sep : string) (a : Ascii.ascii) (h : string) (t : list string) :
  str_join sep (String a h :: t) = String a (str_join sep (h :: t)).
Proof. by destruct t. Qed.

Lemma removelast_cons2 {X} (x y : X) (l : list X) :
  removelast (x :: y :: l) = x :: removelast (y :: l).
Proof. done. Qed.

(** Splitting at the separator and joining all pieces but the last gives
    back what stands before the last separator. *)
Lemma str_split_cons (c a : Ascii.ascii) (s : string) :
  str_split c (String a s)
  = if decide (a = c) then "" :: str_split c s
    else match str_split c s with
         | [] => [String a ""]
         | h :: t => String a h :: t
         end.
Proof. done. Qed.

Lemma str_join_sep (c : Ascii.ascii) (x : string) (t : list string) :
  str_join (String c "") ("" :: x :: t) = String c (str_join (String c "") (x :: t)).
Proof. done. Qed.

Lemma join_split_init (c : Ascii.ascii) (pre suffix : string) :
  c ∉ String.list_ascii_of_string suffix ->
  exists h t, removelast (str_split c (pre +:+ String c suffix)) = h :: t /\
    str_join (String c "") (h :: t) = pre.
Proof.
  intros Hs. induction pre as [|a pre (h & t & IH1 & IH2)].
  - change ("" +:+ String c suffix) with (String c suffix).
    rewrite str_split_cons, decide_True by done.
    rewrite (str_split_free _ _ Hs). by exists "", [].
  - change (String a pre +:+ String c suffix) with (String a (pre +:+ String c suffix)).
    rewrite str_split_cons.
    destruct (str_split c (pre +:+ String c suffix)) as [|x [|y l]] eqn:E; [done..|].
    rewrite removelast_cons2 in IH1. remember (removelast (y :: l)) as T eqn:HT.
    injection IH1 as <- <-.
    destruct (decide (a = c)) as [->|Hne].
    + exists "", (x :: T). split.
      * by rewrite !removelast_cons2, <- HT.
      * by rewrite str_join_sep, IH2.
    + exists (String a x), T. split.
      * by rewrite removelast_cons2, <- HT.
      * by rewrite str_join_cons_char, IH2.
Qed.

(** X21.  The shape name that [ModelNet.__init__] derives from a shape id is
    the id without its last underscore and what follows it. *)
Theorem shape_name_drops_last (name suffix : string) :
  "_"%char ∉ String.list_ascii_of_string suffix ->
  ModelNetInit.shape_name (name +:+ "_" +:+ suffix) = name.
Proof.
  intros Hs. unfold ModelNetInit.shape_name.
  change (name +:+ "_" +:+ suffix) with (name +:+ String "_" suffix).
  destruct (join_split_init "_" name suffix Hs) as (h & t & -> & E). exact E.
Qed.

Lemma shape_name_no_underscore (x : string) :
  "_"%char ∉ String.list_ascii_of_string x -> ModelNetInit.shape_name x = "".
Proof.
  intros Hx. unfold ModelNetInit.shape_name. by rewrite (str_split_free _ _ Hx).
Qed.

End StringFacts.

(** ** [Objaverse_Lvis_Colored]: the view and the rotations *)

Section ObjaverseView.
Context {G : Type} `{!RandomState G} `{!Cast32 R}.
Context {rgb image caption feature : Type}.
Local Open Scope string_scope.
Local Open Scope list_scope.
Local Open Scope R_scope.

Lemma batch1 {X} (N C : nat) (b : list (list (list X))) :
  is_batch 1 N C b -> exists pc, b = [pc] /\ length pc = N /\ rect C pc.
Proof.
  intros [Hlen Hall]. destruct b as [|pc [|? ?]]; try done.
  apply Forall_cons in Hall as [[? ?] _]. by exists pc.
Qed.

Lemma rows_of_lift (y : list (list R)) (kept' : list (list npfloat)) :
  (forall r, r ∈ kept' -> r ∈ lift y) ->
  exists kept, kept' = lift kept /\ forall r, r ∈ kept -> r ∈ y.
Proof.
  induction kept' as [|r' kept' IH]; intros Hin.
  - exists []. split; [done|]. intros r Hr. inversion Hr.
  - destruct IH as (kept & -> & Hkept).
    { intros r Hr. apply Hin. by apply list_elem_of_further. }
    assert (r' ∈ lift y) as Hr' by apply Hin, list_elem_of_here.
    apply list_elem_of_fmap in Hr' as (r & -> & Hr).
    exists (r :: kept). split; [done|].
    intros r0 Hr0. inversion Hr0; subst; [done|by apply Hkept].
Qed.

Lemma lift_scale_shift (kept : list (list R)) (scale : R) (t : list R) :
  (fun r : list npfloat => zip_with (fun x t => nf_plus x (Fin t)) r t)
    <$> ((fun r : list npfloat => (fun x => nf_mult x (Fin scale)) <$> r) <$> lift kept)
  = lift ((fun r : list R => zip_with Rplus ((fun x => x * scale) <$> r) t) <$> kept).
Proof.
  unfold lift. rewrite <- !list_fmap_compose. apply list_fmap_ext. intros i r _. simpl.
  rewrite <- list_fmap_compose. clear. revert t.
  induction r as [|x r IH]; intros [|t0 t]; csimpl; try done. by rewrite IH.
Qed.

(** X22.  The cloud in the sample of [Objaverse_Lvis_Colored.__getitem__] is
    the normalised cloud after dropout, scaling and shifting: these write
    through the view [data[None, ...]] into [data].  The two rotations that
    follow return new arrays and do not reach the sample, which holds the
    cloud cast to float32. *)
Theorem Objaverse_getitem_unrotated
    (self : Objaverse_Lvis_Colored.t (rgb:=rgb) (image:=image) (caption:=caption)
              (feature:=feature))
    (idx : nat) (sample addr name : string) (xyz : list (list R)) (colours : rgb)
    (im : image) (label : nat) (cap : caption) :
  Objaverse_Lvis_Colored.file_list self !! idx = Some sample ->
  Objaverse_Lvis_Colored.npy_file_map self !! sample = Some addr ->
  Objaverse_Lvis_Colored.np_load self addr = Some (xyz, colours) ->
  Objaverse_Lvis_Colored.train_transform self colours = Some im ->
  rect 3 xyz -> nondegenerate xyz ->
  Objaverse_Lvis_Colored.augment self = true ->
  Objaverse_Lvis_Colored.use_height self = false ->
  Objaverse_Lvis_Colored.value_to_key_mapping self !! sample = Some name ->
  Objaverse_Lvis_Colored.key_to_id self !! name = Some label ->
  Objaverse_Lvis_Colored.subset self <> "train" ->
  Objaverse_Lvis_Colored.tokenizer self name = Some cap ->
  succeeds (G:=G) (Objaverse_Lvis_Colored.getitem self idx)
    (fun s => exists (y kept : list (list R)) (scale : R) (t : list R),
       Objaverse_Lvis_Colored.pc_norm xyz = Some (lift y) /\
       length kept = length y /\ (forall r, r ∈ kept -> r ∈ y) /\
       0.8 <= scale <= 1.25 /\
       length t = 3%nat /\ Forall (fun x => - (0.1) <= x <= 0.1) t /\
       s !! "pc"%string
       = Some (VTensor (tensor_float (Tensor2 (lift
                 ((fun r : list R =>
                     zip_with Rplus ((fun x => x * scale) <$> r) t) <$> kept)))))).
Proof.
  intros Hfile Hmap Hload Htrans Hrect Hnd Haug Hheight Hname Hlabel Hsub Htok.
  destruct (pc_normalize_nondegenerate 3 xyz Hrect Hnd)
    as (y & m & _ & _ & Hy & Hnorm & Hyrect & _ & _ & _).
  unfold Objaverse_Lvis_Colored.getitem.
  eapply succeeds_bind; [by apply succeeds_lift_opt|]. intros ? ->.
  eapply succeeds_bind; [by apply succeeds_lift_opt|]. intros ? ->.
  eapply succeeds_bind; [by apply succeeds_lift_opt|]. intros ? ->. cbn [fst snd].
  eapply succeeds_bind; [by apply succeeds_lift_opt|]. intros ? ->.
  change (Objaverse_Lvis_Colored.pc_norm xyz) with (pc_normalize xyz). rewrite Hnorm.
  eapply succeeds_bind; [by apply succeeds_lift_opt|]. intros ? ->.
  rewrite Haug, Hheight, (bool_decide_eq_false_2 _ Hsub).
  assert (is_batch 1 (length y) 3 [lift y]) as Hb.
  { split; [done|]. repeat constructor; [apply lift_length|by apply lift_rect]. }
  eapply (succeeds_bind _ _ (fun data => exists (kept : list (list R)) (scale : R) (t : list R),
            length kept = length y /\ (forall r, r ∈ kept -> r ∈ y) /\
            0.8 <= scale <= 1.25 /\
            length t = 3%nat /\ Forall (fun x => - (0.1) <= x <= 0.1) t /\
            data = lift ((fun r : list R =>
                            zip_with Rplus ((fun x => x * scale) <$> r) t) <$> kept))).
  - eapply succeeds_bind.
    { apply succeeds_and; [by apply random_point_dropout_shape
                          |by apply (random_point_dropout_rows 1 (length y) 3)]. }
    intros b1 [Hb1 Hrows1].
    destruct (batch1 _ _ _ Hb1) as (kept' & -> & Hklen & Hkrect).
    apply Forall2_cons_1 in Hrows1 as [[_ Hkept'] _].
    destruct (rows_of_lift y kept' Hkept') as (kept & -> & Hkept).
    rewrite lift_length in Hklen.
    eapply succeeds_bind.
    { apply succeeds_and; [by apply random_scale_point_cloud_shape
                          |apply (scale_law [lift kept] 0.8 1.25); lra]. }
    intros b2 [Hb2 [_ Hlaw2]].
    destruct (Hlaw2 0%nat (lift kept) eq_refl) as (scale & Hscale & Hb2').
    destruct (batch1 _ _ _ Hb2) as (scaled & -> & Hslen & Hsrect).
    injection Hb2' as ->.
    eapply succeeds_bind.
    { apply succeeds_and; [by apply shift_point_cloud_shape
                          |apply (shift_law 1 (length y)); [done|lra]]. }
    intros b3 [Hb3 [_ Hlaw3]].
    destruct (Hlaw3 0%nat _ eq_refl) as (t & Ht3 & Ht & Hb3').
    eapply succeeds_bind; [by apply succeeds_lift_opt|]. intros ? ->.
    eapply succeeds_bind; [by apply rotate_perturbation_point_cloud_shape|]. intros b4 Hb4.
    eapply succeeds_bind; [by apply rotate_point_cloud_shape|]. intros b5 Hb5.
    apply succeeds_ret. exists kept, scale, t.
    do 5 (split; [done|]). apply lift_scale_shift.
  - intros data (kept & scale & t & Hklen & Hkept & Hscale & Ht3 & Ht & ->).
    eapply (succeeds_bind _ _ (fun d => d = lift ((fun r : list R =>
              zip_with Rplus ((fun x => x * scale) <$> r) t) <$> kept)));
      [by apply succeeds_ret|]. intros ? ->.
    eapply succeeds_bind; [by apply succeeds_lift_opt|]. intros ? ->.
    eapply succeeds_bind; [by apply succeeds_lift_opt|]. intros ? ->.
    eapply (succeeds_bind _ _ (fun _ => True)); [by apply succeeds_ret|]. intros tf _.
    eapply succeeds_bind; [by apply succeeds_lift_opt|]. intros ? ->.
    apply succeeds_ret. exists y, kept, scale, t. by do 6 (split; [done|]).
Qed.

End ObjaverseView.

(** ** Configuration files *)

Section ConfigFacts.
Context {V : Type}.
Context (load_base load_cfg : V -> option (Config.yaml V)).
Local Open Scope string_scope.
Local Open Scope list_scope.

Local Abbreviation yaml := (Config.yaml V).
Local Abbreviation merge := (Config.merge_new_config load_base).

Lemma assoc_set_fresh (key : string) (v : yaml) (kv : list (string * yaml)) :
  key ∉ kv.*1 -> Config.assoc_set key v kv = kv ++ [(key, v)].
Proof.
  induction kv as [|[k u] kv IH]; [done|]. csimpl. intros [Hne Hk]%not_elem_of_cons.
  rewrite decide_False by done. by rewrite IH.
Qed.

Lemma assoc_set_last (key : string) (u v : yaml) (kv : list (string * yaml)) :
  key ∉ kv.*1 -> Config.assoc_set key v (kv ++ [(key, u)]) = kv ++ [(key, v)].
Proof.
  induction kv as [|[k x] kv IH]; csimpl.
  - intros _. by rewrite decide_True.
  - intros [Hne Hk]%not_elem_of_cons. rewrite decide_False by done. by rewrite IH.
Qed.

Lemma assoc_get_last (key : string) (v : yaml) (kv : list (string * yaml)) :
  key ∉ kv.*1 -> Config.assoc_get key (kv ++ [(key, v)]) = Some v.
Proof.
  induction kv as [|[k x] kv IH]; csimpl.
  - intros _. by rewrite decide_True.
  - intros [Hne Hk]%not_elem_of_cons. rewrite decide_False by done. by rewrite IH.
Qed.

Lemma assoc_get_elem (key : string) (v : yaml) (kv : list (string * yaml)) :
  NoDup kv.*1 -> (key, v) ∈ kv -> Config.assoc_get key kv = Some v.
Proof.
  induction kv as [|[k x] kv IH]; csimpl; [by intros _ ?%elem_of_nil|].
  intros [Hk Hnd]%NoDup_cons [[= -> ->]|Hin]%elem_of_cons.
  - by rewrite decide_True.
  - rewrite decide_False; [by apply IH|]. intros ->. apply Hk.
    apply list_elem_of_fmap. by exists (key, v).
Qed.

Lemma assoc_set_elem (key : string) (v : yaml) (kv : list (string * yaml)) :
  NoDup kv.*1 -> (key, v) ∈ kv -> Config.assoc_set key v kv = kv.
Proof.
  induction kv as [|[k x] kv IH]; csimpl; [by intros _ ?%elem_of_nil|].
  intros [Hk Hnd]%NoDup_cons [[= -> ->]|Hin]%elem_of_cons.
  - by rewrite decide_True.
  - rewrite decide_False; [by rewrite IH|]. intros ->. apply Hk.
    apply list_elem_of_fmap. by exists (key, v).
Qed.

Lemma depth_elem (key : string) (v : yaml) (kv : list (string * yaml)) :
  (key, v) ∈ kv -> (Config.depth v < Config.depth (Config.Dict kv))%nat.
Proof.
  induction kv as [|[k x] kv IH]; [by intros ?%elem_of_nil|].
  intros [[= -> ->]|Hin]%elem_of_cons; simpl in *.
  - lia.
  - specialize (IH Hin). lia.
Qed.

Lemma plain_elem (key : string) (v : yaml) (kv : list (string * yaml)) :
  Config.plain (Config.Dict kv) -> (key, v) ∈ kv ->
  Config.plain v /\ match v with Config.Leaf _ => key <> "_base_" | Config.Dict _ => True end.
Proof.
  intros [_ Hgo]. induction kv as [|[k x] kv IH]; [by intros ?%elem_of_nil|].
  destruct Hgo as (Hb & Hp & Hgo). intros [[= -> ->]|Hin]%elem_of_cons; [done|].
  by apply IH.
Qed.

Lemma plain_nodup (kv : list (string * yaml)) :
  Config.plain (Config.Dict kv) -> NoDup kv.*1.
Proof. by intros [? _]. Qed.

(** The loop of [merge_new_config] over the items [rest] of a plain mapping,
    from a config that holds none of their keys: the items are added, in
    order. *)
Lemma merge_items_fresh (fuel : nat) :
  (forall d, Config.plain (Config.Dict d) -> (Config.depth (Config.Dict d) <= fuel)%nat ->
     merge fuel (Config.Dict []) (Config.Dict d) = Config.Done (Config.Dict d)) ->
  forall (d rest pre : list (string * yaml)),
    Config.plain (Config.Dict d) -> (Config.depth (Config.Dict d) <= S fuel)%nat ->
    rest ⊆ d -> NoDup (pre ++ rest).*1 ->
    Config.for_items rest (Config.merge_pass load_base (merge fuel)) (Config.Dict pre)
    = Config.Done (Config.Dict (pre ++ rest)).
Proof.
  intros IHf d rest. induction rest as [|[k v] rest IH]; intros pre Hd Hdepth Hsub Hnd.
  - by rewrite app_nil_r.
  - assert ((k, v) ∈ d) as Hin by (apply Hsub, list_elem_of_here).
    assert (rest ⊆ d) as Hsub' by (intros x Hx; by apply Hsub, list_elem_of_further).
    assert (k ∉ pre.*1) as Hfresh.
    { rewrite fmap_app in Hnd. apply NoDup_app in Hnd as (_ & Hdisj & _).
      intros Hk. apply (Hdisj k Hk). csimpl. apply list_elem_of_here. }
    assert (NoDup ((pre ++ [(k, v)]) ++ rest).*1) as Hnd' by by rewrite <- app_assoc.
    destruct (plain_elem k v d Hd Hin) as [Hpv Hbase].
    pose proof (depth_elem k v d Hin) as Hdv.
    simpl Config.for_items. unfold Config.merge_pass at 1. cbn [fst snd].
    destruct v as [x|dv].
    + rewrite decide_False by done. simpl. rewrite assoc_set_fresh by done.
      rewrite (IH _ Hd Hdepth Hsub' Hnd'). by rewrite <- app_assoc.
    + simpl. rewrite bool_decide_eq_false_2 by done. simpl.
      rewrite assoc_set_fresh by done. rewrite assoc_get_last by done. simpl.
      rewrite IHf by (done || lia). simpl. rewrite assoc_set_last by done.
      rewrite (IH _ Hd Hdepth Hsub' Hnd'). by rewrite <- app_assoc.
Qed.

Lemma merge_fresh (fuel : nat) (d : list (string * yaml)) :
  Config.plain (Config.Dict d) -> (Config.depth (Config.Dict d) <= fuel)%nat ->
  merge fuel (Config.Dict []) (Config.Dict d) = Config.Done (Config.Dict d).
Proof.
  revert d. induction fuel as [|fuel IH]; intros d Hd Hdepth; [simpl in Hdepth; lia|].
  simpl. apply (merge_items_fresh fuel IH d d []); try done. by apply plain_nodup.
Qed.

(** The same loop from a config that is the mapping itself: nothing
    changes. *)
Lemma merge_items_same (fuel : nat) :
  (forall d, Config.plain (Config.Dict d) -> (Config.depth (Config.Dict d) <= fuel)%nat ->
     merge fuel (Config.Dict d) (Config.Dict d) = Config.Done (Config.Dict d)) ->
  forall (d rest : list (string * yaml)),
    Config.plain (Config.Dict d) -> (Config.depth (Config.Dict d) <= S fuel)%nat ->
    rest ⊆ d ->
    Config.for_items rest (Config.merge_pass load_base (merge fuel)) (Config.Dict d)
    = Config.Done (Config.Dict d).
Proof.
  intros IHf d rest. induction rest as [|[k v] rest IH]; intros Hd Hdepth Hsub; [done|].
  assert ((k, v) ∈ d) as Hin by (apply Hsub, list_elem_of_here).
  assert (rest ⊆ d) as Hsub' by (intros x Hx; by apply Hsub, list_elem_of_further).
  destruct (plain_elem k v d Hd Hin) as [Hpv Hbase].
  pose proof (depth_elem k v d Hin) as Hdv.
  pose proof (plain_nodup d Hd) as Hnd.
  simpl Config.for_items. unfold Config.merge_pass at 1. cbn [fst snd].
  destruct v as [x|dv].
  - rewrite decide_False by done. simpl. rewrite assoc_set_elem by done. by apply IH.
  - simpl. rewrite bool_decide_eq_true_2.
    2:{ apply list_elem_of_fmap. by exists (k, Config.Dict dv). }
    simpl. rewrite (assoc_get_elem k (Config.Dict dv)) by done. simpl.
    rewrite IHf by (done || lia). simpl. rewrite assoc_set_elem by done. by apply IH.
Qed.

Lemma merge_same (fuel : nat) (d : list (string * yaml)) :
  Config.plain (Config.Dict d) -> (Config.depth (Config.Dict d) <= fuel)%nat ->
  merge fuel (Config.Dict d) (Config.Dict d) = Config.Done (Config.Dict d).
Proof.
  revert d. induction fuel as [|fuel IH]; intros d Hd Hdepth; [simpl in Hdepth; lia|].
  simpl. by apply (merge_items_same fuel IH d d).
Qed.

(** X23.  A configuration file that names no file to include is returned
    as it is: [cfg_from_yaml_file] yields the mapping of the file, with its
    nested mappings, in the order of the file. *)
Theorem cfg_from_yaml_file_plain (fuel : nat) (cfg_file : V) (d : list (string * yaml)) :
  load_cfg cfg_file = Some (Config.Dict d) ->
  Config.plain (Config.Dict d) ->
  (Config.depth (Config.Dict d) <= fuel)%nat ->
  Config.cfg_from_yaml_file load_base load_cfg fuel cfg_file = Config.Done (Config.Dict d).
Proof.
  intros Hload Hd Hdepth. unfold Config.cfg_from_yaml_file. rewrite Hload.
  by apply merge_fresh.
Qed.

(** X24.  A "_base_" entry is replaced by the mapping of the file it names:
    the included settings are kept under the key "_base_", in the place of
    the entry, and are not merged into the level that includes them. *)
Theorem cfg_from_yaml_file_base (fuel : nat) (cfg_file path : V)
    (rest base : list (string * yaml)) :
  load_cfg cfg_file = Some (Config.Dict (("_base_", Config.Leaf path) :: rest)) ->
  load_base path = Some (Config.Dict base) ->
  Config.plain (Config.Dict base) -> Config.plain (Config.Dict rest) ->
  "_base_" ∉ rest.*1 ->
  (Config.depth (Config.Dict base) <= fuel)%nat ->
  (Config.depth (Config.Dict rest) <= S fuel)%nat ->
  Config.cfg_from_yaml_file load_base load_cfg (S fuel) cfg_file
  = Config.Done (Config.Dict (("_base_", Config.Dict base) :: rest)).
Proof.
  intros Hload Hbase Hpb Hpr Hfresh Hdb Hdr. unfold Config.cfg_from_yaml_file.
  rewrite Hload. simpl Config.merge_new_config. simpl Config.obind at 1.
  simpl Config.for_items. unfold Config.merge_pass at 1. cbn [fst snd].
  rewrite decide_True by done. rewrite Hbase. simpl.
  rewrite merge_fresh by done. simpl. rewrite merge_same by done. simpl.
  apply (merge_items_fresh fuel (merge_fresh fuel) rest rest
           [("_base_", Config.Dict base)]); try done.
  csimpl. apply NoDup_cons. split; [done|]. by apply plain_nodup.
Qed.


End ConfigFacts.

(** ** Instances of the laws *)

Section LawWitnesses.
Local Existing Instance exact_cast.
Local Open Scope string_scope.
Local Open Scope list_scope.
Local Open Scope R_scope.

Lemma two_points_rect : rect 3 [[0; 0; 0]; [2; 0; 0]].
Proof. by repeat constructor. Qed.

Lemma normalize_pc_unit_ball_witness :
  rect 3 [[0; 0; 0]; [2; 0; 0]] /\
  exists y, normalize_pc [[0; 0; 0]; [2; 0; 0]] = Some (lift y) /\
    length y = 2%nat /\ rect 3 y /\
    (forall r, r ∈ y -> row_norm r <= 1) /\
    (forall r x, r ∈ y -> x ∈ r -> -1 <= x <= 1).
Proof.
  split; [exact two_points_rect|].
  destruct (normalize_pc_unit_ball 3 [[0; 0; 0]; [2; 0; 0]] two_points_rect) as [_ H].
  by apply H.
Defined.

Lemma normalize_shift_invariant_witness :
  iadd_row [[0; 0; 0]; [2; 0; 0]] [1; 1; 1]
  = Some [[0 + 1; 0 + 1; 0 + 1]; [2 + 1; 0 + 1; 0 + 1]] /\
  pc_normalize [[0 + 1; 0 + 1; 0 + 1]; [2 + 1; 0 + 1; 0 + 1]]
  = pc_normalize [[0; 0; 0]; [2; 0; 0]] /\
  normalize_pc [[0 + 1; 0 + 1; 0 + 1]; [2 + 1; 0 + 1; 0 + 1]]
  = normalize_pc [[0; 0; 0]; [2; 0; 0]].
Proof.
  assert (iadd_row [[0; 0; 0]; [2; 0; 0]] [1; 1; 1]
          = Some [[0 + 1; 0 + 1; 0 + 1]; [2 + 1; 0 + 1; 0 + 1]]) as Hadd by reflexivity.
  split; [exact Hadd|]. exact (normalize_shift_invariant _ _ _ Hadd).
Defined.

Lemma pc_normalize_scale_invariant_witness :
  rect 3 [[0; 0; 0]; [2; 0; 0]] /\ 0 < 2 /\
  pc_normalize ((fun r : list R => (fun x => x * 2) <$> r) <$> [[0; 0; 0]; [2; 0; 0]])
  = pc_normalize [[0; 0; 0]; [2; 0; 0]].
Proof.
  assert (0 < 2) as H2 by lra.
  split; [exact two_points_rect|]. split; [exact H2|].
  exact (pc_normalize_scale_invariant 3 _ 2 two_points_rect H2).
Defined.

Lemma near_world_points : mem near_world !! 5%nat = Some (Float2 near_points).
Proof. apply lookup_singleton_eq. Qed.

Lemma near_points_bounded : bounded near_points.
Proof.
  intros k s Hk Hs. simpl in Hk, Hs.
  destruct k as [|[|[|k]]]; try lia; destruct s as [|[|[|s]]]; try lia;
    unfold sqdist3; simpl; lra.
Qed.

Lemma near_points_separated : separated near_points.
Proof.
  intros k s Hk Hs Hne. simpl in Hk, Hs.
  destruct k as [|[|[|k]]]; try lia; destruct s as [|[|[|s]]]; try lia; try done;
    unfold sqdist3; simpl; lra.
Qed.

Lemma farthest_point_sample_rows_witness :
  mem near_world !! 5%nat = Some (Float2 near_points) /\
  exists q rows w',
    farthest_point_sample 5 7 near_world = (Some q, w') /\
    mem w' !! q = Some (Float2 rows) /\
    length rows = 7%nat /\
    Forall (fun r => r ∈ near_points) rows.
Proof.
  split; [exact near_world_points|].
  destruct (farthest_point_sample_rows near_world 5 7 near_points near_world_points)
    as [_ H]. by apply H.
Defined.

Lemma farthest_point_sample_distinct_witness :
  mem near_world !! 5%nat = Some (Float2 near_points) /\
  (1 <= 2 <= length near_points)%nat /\
  bounded near_points /\ separated near_points /\
  exists q rows w',
    farthest_point_sample 5 2 near_world = (Some q, w') /\
    mem w' !! q = Some (Float2 rows) /\
    length rows = 2%nat /\ NoDup rows.
Proof.
  assert (1 <= 2 <= length near_points)%nat as HK by (simpl; lia).
  split; [exact near_world_points|]. split; [exact HK|].
  split; [exact near_points_bounded|]. split; [exact near_points_separated|].
  exact (farthest_point_sample_distinct near_world 5 2 near_points near_world_points HK
           near_points_bounded near_points_separated).
Defined.

Lemma random_scale_point_cloud_law_witness :
  is_batch 1 5 3 five_points /\ 0.8 <= 1.25 /\
  succeeds (G:=tape) (random_scale_point_cloud five_points 0.8 1.25)
    (fun b' => is_batch 1 5 3 b' /\
       forall k pc, five_points !! k = Some pc ->
         exists s, 0.8 <= s <= 1.25 /\
           b' !! k = Some ((fun r : list R => (fun x => x * s) <$> r) <$> pc)).
Proof.
  assert (0.8 <= 1.25) as Hle by lra.
  split; [exact is_batch_five_points|]. split; [exact Hle|].
  exact (random_scale_point_cloud_law 1 5 3 five_points 0.8 1.25 is_batch_five_points Hle).
Defined.

Lemma shift_point_cloud_law_witness :
  is_batch 1 5 3 five_points /\ 0 <= 0.1 /\
  succeeds (G:=tape) (shift_point_cloud five_points 0.1)
    (fun b' => is_batch 1 5 3 b' /\
       forall k pc, five_points !! k = Some pc ->
         exists t, length t = 3%nat /\
           Forall (fun x => - (0.1) <= x <= 0.1) t /\
           b' !! k = Some ((fun r => zip_with Rplus r t) <$> pc)).
Proof.
  assert (0 <= 0.1) as Hle by lra.
  split; [exact is_batch_five_points|]. split; [exact Hle|].
  exact (shift_point_cloud_law 1 5 five_points 0.1 is_batch_five_points Hle).
Defined.

Lemma jitter_point_cloud_bound_witness :
  0.05 > 0 /\
  succeeds (G:=tape) (jitter_point_cloud five_points 0.01 0.05)
    (fun b' => exists noise : list (list (list R)),
       Forall2 (Forall2 (Forall2 (fun (_ n : R) => - (0.05) <= n <= 0.05)))
         five_points noise /\
       b' = zip_with (zip_with (zip_with Rplus)) noise five_points).
Proof.
  assert (0.05 > 0) as Hclip by lra.
  split; [exact Hclip|].
  exact (proj1 (jitter_point_cloud_bound five_points 0.01 0.05) Hclip).
Defined.

Lemma rotate_point_cloud_isometry_witness :
  is_batch 1 5 3 five_points /\
  succeeds (G:=tape) (rotate_point_cloud five_points)
    (fun b' => is_batch 1 5 3 b' /\
       forall k pc, five_points !! k = Some pc ->
         exists theta, 0 <= theta < 2 * PI /\
           b' !! k = Some (astype_float32 (np_dot pc (rotation_y theta))) /\
           turned_about_y pc (np_dot pc (rotation_y theta))).
Proof.
  split; [exact is_batch_five_points|].
  exact (rotate_point_cloud_isometry 1 5 five_points is_batch_five_points).
Defined.

Lemma rotate_perturbation_point_cloud_isometry_witness :
  is_batch 1 5 3 five_points /\
  succeeds (G:=tape) (rotate_perturbation_point_cloud five_points 0.06 0.18)
    (fun b' => is_batch 1 5 3 b' /\
       forall k pc, five_points !! k = Some pc ->
         exists angles, length angles = 3%nat /\
           (0 <= 0.18 -> Forall (fun a => - (0.18) <= a <= 0.18) angles) /\
           b' !! k = Some (astype_float32 (np_dot pc (perturbation_matrix angles))) /\
           same_norms pc (np_dot pc (perturbation_matrix angles))).
Proof.
  split; [exact is_batch_five_points|].
  exact (rotate_perturbation_point_cloud_isometry 1 5 five_points 0.06 0.18
           is_batch_five_points).
Defined.

Lemma rotate_point_cloud_distill_law_witness :
  is_batch 1 5 3 five_points /\
  succeeds (G:=tape) (rotate_point_cloud_distill five_points)
    (fun b' => is_batch 1 5 3 b' /\
       forall k pc, five_points !! k = Some pc ->
         exists theta, 0 <= theta < 2 * PI /\
           b' !! k = Some (astype_float32 (np_dot pc (rotation_y theta))) /\
           turned_about_y pc (np_dot pc (rotation_y theta))) /\
  (rotate_point_cloud_distill five_points twin_world).1
  = (rotate_point_cloud five_points twin_world).1.
Proof.
  split; [exact is_batch_five_points|].
  destruct (rotate_point_cloud_distill_law (G:=tape) 1 5 five_points is_batch_five_points)
    as [H1 H2].
  split; [exact H1|]. apply H2. reflexivity.
Defined.

Lemma random_sample_without_replacement_witness :
  ShapeNet.permutation_ok (toy_shapenet (fun _ => Some tt))
    (length [[0; 0; 0]; [1; 0; 0]]) (mem toy_world) /\
  (2 <= length [[0; 0; 0]; [1; 0; 0]])%nat /\
  exists rows w',
    ShapeNet.random_sample (toy_shapenet (fun _ => Some tt)) [[0; 0; 0]; [1; 0; 0]] 2
      toy_world = (Some rows, w') /\
    length rows = 2%nat /\ rows ⊆+ [[0; 0; 0]; [1; 0; 0]] /\
    (2%nat = length [[0; 0; 0]; [1; 0; 0]] -> rows ≡ₚ [[0; 0; 0]; [1; 0; 0]]) /\
    ShapeNet.permutation_ok (toy_shapenet (fun _ => Some tt))
      (length [[0; 0; 0]; [1; 0; 0]]) (mem w').
Proof.
  assert (2 <= length [[0; 0; 0]; [1; 0; 0]])%nat as Hnum by (simpl; lia).
  split; [exact (toy_world_permutation_ok _)|]. split; [exact Hnum|].
  exact (random_sample_without_replacement (toy_shapenet (fun _ => Some tt))
           [[0; 0; 0]; [1; 0; 0]] 2 toy_world (toy_world_permutation_ok _) Hnum).
Defined.

Lemma short_world_permutation_ok :
  ShapeNet.permutation_ok short_shapenet (ShapeNet.sample_points_num short_shapenet)
    (mem toy_world).
Proof. exists [0; 1]%nat. split; [apply lookup_singleton_eq|done]. Qed.

Lemma getitem_undersized_raises_witness :
  ShapeNet.file_list short_shapenet !! 0%nat = Some toy_entry /\
  ShapeNet.io_get short_shapenet (ShapeNet.file_path toy_entry) = Some [[0; 0; 0]] /\
  (length [[0; 0; 0]] < ShapeNet.sample_points_num short_shapenet)%nat /\
  ShapeNet.permutation_ok short_shapenet (ShapeNet.sample_points_num short_shapenet)
    (mem toy_world) /\
  (ShapeNet.getitem toy_split toy_strip toy_format 1 short_shapenet 0 toy_world).1 = None.
Proof.
  assert (length [[0; 0; 0]] < ShapeNet.sample_points_num short_shapenet)%nat as Hlt
    by (simpl; lia).
  split; [reflexivity|]. split; [reflexivity|]. split; [exact Hlt|].
  split; [exact short_world_permutation_ok|].
  exact (getitem_undersized_raises short_shapenet toy_split toy_strip toy_format
           0 toy_entry [[0; 0; 0]] 0 toy_world eq_refl eq_refl Hlt
           short_world_permutation_ok).
Defined.

End LawWitnesses.

Section AdapterLawWitnesses.
Local Existing Instance exact_cast.
Local Open Scope string_scope.
Local Open Scope list_scope.
Local Open Scope R_scope.

Lemma toy_modelnet_rect : rect 6 [[0; 0; 0; 0; 0; 1]; [2; 0; 0; 0; 0; 1]].
Proof. by repeat constructor. Qed.

Lemma toy_modelnet_nondegenerate :
  nondegenerate (take 3 <$> [[0; 0; 0; 0; 0; 1]; [2; 0; 0; 0; 0; 1]]).
Proof.
  exists [0; 0; 0], [2; 0; 0]. split; [apply list_elem_of_here|].
  split; [apply list_elem_of_further, list_elem_of_here|]. intros [= H]. lra.
Qed.

Lemma toy_modelnet_test : ModelNet.subset toy_modelnet <> "train".
Proof. done. Qed.

Lemma ModelNet_getitem_repeatable_witness :
  (forall x : R, float32 x = x) /\
  ModelNet.process_data toy_modelnet = true /\
  ModelNet.subset toy_modelnet <> "train" /\
  ModelNet.list_of_points toy_modelnet !! 0%nat = Some 7%nat /\
  ModelNet.list_of_labels toy_modelnet !! 0%nat = Some 1%nat /\
  mem toy_modelnet_world !! 7%nat = Some (Float2 [[0; 0; 0; 0; 0; 1]; [2; 0; 0; 0; 0; 1]]) /\
  (exists y, pc_normalize (take 3 <$> [[0; 0; 0; 0; 0; 1]; [2; 0; 0; 0; 0; 1]])
             = Some (lift y) /\
     mem (ModelNet.getitem (image:=unit) (caption:=string) toy_modelnet 0
            toy_modelnet_world).2 !! 7%nat
     = Some (Float2 (zip_with (fun (r ry : list R) => ry ++ drop 3 r)
                       [[0; 0; 0; 0; 0; 1]; [2; 0; 0; 0; 0; 1]] y))) /\
  ModelNet.getitem (image:=unit) (caption:=string) toy_modelnet 0
    (ModelNet.getitem (image:=unit) (caption:=string) toy_modelnet 0 toy_modelnet_world).2
  = ModelNet.getitem toy_modelnet 0 toy_modelnet_world.
Proof.
  assert (mem toy_modelnet_world !! 7%nat
          = Some (Float2 [[0; 0; 0; 0; 0; 1]; [2; 0; 0; 0; 0; 1]])) as Hmem
    by apply lookup_singleton_eq.
  assert (length [[0; 0; 0; 0; 0; 1]; [2; 0; 0; 0; 0; 1]] <= ModelNet.npoints toy_modelnet)%nat
    as Hlen by (simpl; lia).
  split; [exact (fun x => eq_refl)|].
  split; [reflexivity|]. split; [exact toy_modelnet_test|]. split; [reflexivity|].
  split; [reflexivity|]. split; [exact Hmem|].
  exact (ModelNet_getitem_repeatable (G:=tape) (image:=unit) (caption:=string)
           toy_modelnet 0 7 1 6 _ toy_modelnet_world
           (fun x => eq_refl) eq_refl toy_modelnet_test eq_refl eq_refl Hmem Hlen toy_modelnet_rect
           toy_modelnet_nondegenerate).
Defined.

Lemma ModelNet_getitem_points_witness :
  exists s w',
    ModelNet.getitem (image:=unit) (caption:=string) toy_modelnet 0 toy_modelnet_flat_world
    = (Some s, w') /\
    exists (points pc : list (list npfloat)) (label : nat) (w1 : world tape),
      ModelNet._get_item toy_modelnet 0 toy_modelnet_flat_world
      = (Some (points, label), w1) /\
      s !! "pc" = Some (VTensor (tensor_float (Tensor2 pc))) /\
      s !! "label" = Some (VInt label) /\
      pc ≡ₚ points /\
      (ModelNet.subset toy_modelnet <> "train" -> pc = points /\ w' = w1) /\
      (exists name, ModelNet.shape_names toy_modelnet !! label = Some name /\
                    s !! "class_name" = Some (VStr name)).
Proof.
  destruct modelnet_degenerate_run as (w' & Hrun & _). eexists _, w'.
  split; [exact Hrun|].
  exact (ModelNet_getitem_points toy_modelnet 0 toy_modelnet_flat_world w' _ Hrun).
Defined.

Lemma ShapeNet_tables_agree_witness :
  ShapeNetInit.index_list toy_id_map !! "02747177" = Some 1%nat /\
  exists d, toy_id_map !! 1%nat = Some d /\ ShapeNetInit.synsetId d = "02747177" /\
    ShapeNetInit.synset_id_map toy_id_map !! "02747177" = Some d /\
    forall j d', (1 < j)%nat -> toy_id_map !! j = Some d' ->
      ShapeNetInit.synsetId d' <> "02747177".
Proof.
  assert (ShapeNetInit.index_list toy_id_map !! "02747177" = Some 1%nat) as Hi
    by reflexivity.
  split; [exact Hi|]. exact (ShapeNet_tables_agree toy_id_map "02747177" 1 Hi).
Defined.

Lemma no_dash : "-"%char ∉ String.list_ascii_of_string "02691156".
Proof. apply (bool_decide_unpack _). by vm_compute. Qed.

Lemma no_dot : "."%char ∉ String.list_ascii_of_string "1a04e3eab45ca15dd86060f189eb133".
Proof. apply (bool_decide_unpack _). by vm_compute. Qed.

Lemma no_underscore : "_"%char ∉ String.list_ascii_of_string "0001".
Proof. apply (bool_decide_unpack _). by vm_compute. Qed.

Lemma file_entry_of_line_round_trip_witness :
  ("-"%char ∉ String.list_ascii_of_string "02691156") /\
  ("."%char ∉ String.list_ascii_of_string "1a04e3eab45ca15dd86060f189eb133") /\
  ShapeNetInit.file_entry_of_line
    ("02691156" +:+ "-" +:+ "1a04e3eab45ca15dd86060f189eb133" +:+ "." +:+ "npy")
  = {| ShapeNet.taxonomy_id := "02691156";
       ShapeNet.model_id := "1a04e3eab45ca15dd86060f189eb133";
       ShapeNet.file_path :=
         "02691156" +:+ "-" +:+ "1a04e3eab45ca15dd86060f189eb133" +:+ "." +:+ "npy" |}.
Proof.
  split; [exact no_dash|]. split; [exact no_dot|].
  exact (file_entry_of_line_round_trip _ _ "npy" no_dash no_dot).
Defined.

Lemma shape_name_drops_last_witness :
  ("_"%char ∉ String.list_ascii_of_string "0001") /\
  ModelNetInit.shape_name ("night_stand" +:+ "_" +:+ "0001") = "night_stand".
Proof.
  split; [exact no_underscore|].
  exact (shape_name_drops_last "night_stand" "0001" no_underscore).
Defined.

Lemma toy_objaverse_test : Objaverse_Lvis_Colored.subset toy_objaverse <> "train".
Proof. done. Qed.

Lemma Objaverse_getitem_unrotated_witness :
  Objaverse_Lvis_Colored.file_list toy_objaverse !! 0%nat = Some "0a1b" /\
  Objaverse_Lvis_Colored.np_load toy_objaverse "000-000/0a1b.npy"
  = Some ([[0; 0; 0]; [1; 0; 0]], tt) /\
  rect 3 [[0; 0; 0]; [1; 0; 0]] /\ nondegenerate [[0; 0; 0]; [1; 0; 0]] /\
  succeeds (G:=tape) (Objaverse_Lvis_Colored.getitem toy_objaverse 0)
    (fun s => exists (y kept : list (list R)) (scale : R) (t : list R),
       Objaverse_Lvis_Colored.pc_norm [[0; 0; 0]; [1; 0; 0]] = Some (lift y) /\
       length kept = length y /\ (forall r, r ∈ kept -> r ∈ y) /\
       0.8 <= scale <= 1.25 /\
       length t = 3%nat /\ Forall (fun x => - (0.1) <= x <= 0.1) t /\
       s !! "pc"
       = Some (VTensor (tensor_float (Tensor2 (lift
                 ((fun r : list R =>
                     zip_with Rplus ((fun x => x * scale) <$> r) t) <$> kept)))))).
Proof.
  split; [reflexivity|]. split; [reflexivity|].
  split; [exact toy_data_rect|]. split; [exact toy_data_nondegenerate|].
  exact (Objaverse_getitem_unrotated (G:=tape) toy_objaverse 0 "0a1b" "000-000/0a1b.npy"
           "chair" [[0; 0; 0]; [1; 0; 0]] tt tt 7 "chair"
           eq_refl eq_refl eq_refl eq_refl toy_data_rect toy_data_nondegenerate
           eq_refl eq_refl eq_refl eq_refl toy_objaverse_test eq_refl).
Defined.

Lemma toy_cfg_plain : Config.plain (Config.Dict toy_cfg).
Proof.
  split; [apply (bool_decide_unpack _); by vm_compute|].
  split; [done|]. split; [done|]. split; [done|]. split; [|done].
  split; [apply NoDup_singleton|]. by repeat split.
Qed.

Lemma toy_base_plain : Config.plain (Config.Dict toy_base).
Proof.
  split; [apply NoDup_singleton|]. split; [done|]. split; [|done].
  split; [apply NoDup_singleton|]. by repeat split.
Qed.

Lemma toy_cfg_no_base : "_base_" ∉ toy_cfg.*1.
Proof. apply (bool_decide_unpack _). by vm_compute. Qed.

Lemma cfg_from_yaml_file_plain_witness :
  toy_load_cfg "ShapeNet-55.yaml" = Some (Config.Dict toy_cfg) /\
  Config.plain (Config.Dict toy_cfg) /\
  (Config.depth (Config.Dict toy_cfg) <= 2)%nat /\
  Config.cfg_from_yaml_file toy_load_base toy_load_cfg 2 "ShapeNet-55.yaml"
  = Config.Done (Config.Dict toy_cfg).
Proof.
  assert (Config.depth (Config.Dict toy_cfg) <= 2)%nat as Hdepth by (simpl; lia).
  split; [reflexivity|]. split; [exact toy_cfg_plain|]. split; [exact Hdepth|].
  exact (cfg_from_yaml_file_plain toy_load_base toy_load_cfg 2 "ShapeNet-55.yaml" toy_cfg
           eq_refl toy_cfg_plain Hdepth).
Defined.

Lemma cfg_from_yaml_file_base_witness :
  toy_load_cfg "with_base.yaml"
  = Some (Config.Dict (("_base_", Config.Leaf "base.yaml") :: toy_cfg)) /\
  toy_load_base "base.yaml" = Some (Config.Dict toy_base) /\
  Config.plain (Config.Dict toy_base) /\ Config.plain (Config.Dict toy_cfg) /\
  ("_base_" ∉ toy_cfg.*1) /\
  Config.cfg_from_yaml_file toy_load_base toy_load_cfg 3 "with_base.yaml"
  = Config.Done (Config.Dict (("_base_", Config.Dict toy_base) :: toy_cfg)).
Proof.
  assert (Config.depth (Config.Dict toy_base) <= 2)%nat as Hdb by (simpl; lia).
  assert (Config.depth (Config.Dict toy_cfg) <= 3)%nat as Hdr by (simpl; lia).
  split; [reflexivity|]. split; [reflexivity|]. split; [exact toy_base_plain|].
  split; [exact toy_cfg_plain|]. split; [exact toy_cfg_no_base|].
  exact (cfg_from_yaml_file_base toy_load_base toy_load_cfg 2 "with_base.yaml" "base.yaml"
           toy_cfg toy_base eq_refl eq_refl toy_base_plain toy_cfg_plain toy_cfg_no_base
           Hdb Hdr).
Defined.


End AdapterLawWitnesses.
